(** * dslib: the AVL tree of [DS/avl.c]

    The C program builds an AVL tree from an array of integers with an
    iterative insertion: it walks down from the root, records the path on
    a stack, hangs a new leaf and unwinds the stack, rotating at the first
    node whose balance factor reaches 2 or -2.

    The embedding keeps the program as it is written: nodes live in a
    store indexed by addresses, the functions read and write node fields
    through pointers, and every function is a computation in a state and
    fault monad.  The proofs relate the store to a tree of nodes and carry
    the AVL invariants through the unwinding loop.

    Conventions of the model:
    - [int] values are integers of [Z].  The program compares the values
      of the array and never computes with them; heights and counts are
      bounded by the number of nodes ([avl_side_bound]), so that no
      arithmetic of the program leaves the range of [int] on a tree built
      from an array of [len] values.
    - [calloc] hands out the addresses in increasing order, as the block
      allocators of memory models do; whether a request is served is
      decided by an oracle in the store.
    - The loops run on fuel.  The theorems give the fuel that is enough
      ([3 * len] for the build), and [OutOfFuel] is never a result they
      accept. *)

From Stdlib Require Import ZArith Lia String.
From stdpp Require Import base option list sorting gmap.

Local Open Scope Z_scope.

(** ** Memory *)

(** Addresses of allocated blocks are positive numbers; a pointer is an
    address or NULL. *)
Abbreviation ptr := (option positive).

Module Avl.

(** Modelled from the spec: the declaration of [avl_t] is in [avl.h], which
    is not among the sources.  The spec gives a node an integer value, a
    cached height and owning references to a left and a right child; the
    field names are the ones [avl.c] uses. *)
Record t := mk { data : Z; height : Z; left : ptr; right : ptr }.

Definition with_data (v : Z) (n : t) : t := mk v (height n) (left n) (right n).
Definition with_height (v : Z) (n : t) : t := mk (data n) v (left n) (right n).
Definition with_left (v : ptr) (n : t) : t := mk (data n) (height n) v (right n).
Definition with_right (v : ptr) (n : t) : t := mk (data n) (height n) (left n) v.

(** What [calloc] hands out: all fields zero. *)
Definition zero : t := mk 0 0 None None.

End Avl.
Abbreviation avl_t := Avl.t.

(** Modelled from the spec: the logging facility [log(level, format,
    args...)] with the levels ERROR and INFO is an external collaborator.
    The model keeps the lines it is given: level, format string (written
    here without its closing newline) and arguments. *)
Inductive level := ERROR | INFO.
Record logline := Log { log_level : level; log_format : string; log_args : list Z }.

(** The store: AVL nodes, tree handles ([avl_pp] cells), the integer arrays
    of the caller, the next address [calloc] hands out, the outcomes of
    the coming allocation requests ([false]: the request fails; an empty
    list: every request is served) and the log. *)
Record mem := Mem {
  nodes : gmap positive avl_t;
  handles : gmap positive ptr;
  arrays : gmap positive (list Z);
  next : positive;
  oracle : list bool;
  logs : list logline
}.

Definition set_nodes (f : gmap positive avl_t → gmap positive avl_t) (s : mem) : mem :=
  Mem (f (nodes s)) (handles s) (arrays s) (next s) (oracle s) (logs s).
Definition set_handles (f : gmap positive ptr → gmap positive ptr) (s : mem) : mem :=
  Mem (nodes s) (f (handles s)) (arrays s) (next s) (oracle s) (logs s).
Definition set_next (n : positive) (s : mem) : mem :=
  Mem (nodes s) (handles s) (arrays s) n (oracle s) (logs s).
Definition set_oracle (o : list bool) (s : mem) : mem :=
  Mem (nodes s) (handles s) (arrays s) (next s) o (logs s).
Definition set_logs (l : list logline) (s : mem) : mem :=
  Mem (nodes s) (handles s) (arrays s) (next s) (oracle s) l.

(** ** Computations *)

(** What C leaves undefined is a fault: a read or write through NULL, an
    access outside an allocated block.  [OutOfFuel] is a loop that did
    not finish within the steps it was given. *)
Inductive fault := NullDeref | BadAccess | OutOfFuel.

Inductive outcome (A : Type) :=
| Ok (a : A) (s : mem)
| Fault (f : fault).
Arguments Ok {A} a s.
Arguments Fault {A} f.

Definition M (A : Type) : Type := mem → outcome A.

Definition ret {A} (a : A) : M A := λ s, Ok a s.
Definition bind {A B} (c : M A) (k : A → M B) : M B :=
  λ s, match c s with
       | Ok a s' => k a s'
       | Fault f => Fault f
       end.
Definition fail {A} (f : fault) : M A := λ _, Fault f.

Declare Scope mem_scope.
Delimit Scope mem_scope with mem.
Bind Scope mem_scope with M.
Notation "x ← y ; z" := (bind y (λ x : _, z))
  (at level 20, y at level 100, z at level 200, only parsing) : mem_scope.
Notation "' x ← y ; z" := (bind y (λ x : _, z))
  (at level 20, x pattern, y at level 100, z at level 200, only parsing) : mem_scope.
Notation "x ;; z" := (bind x (λ _, z))
  (at level 100, z at level 200, only parsing, right associativity) : mem_scope.
Local Open Scope mem_scope.

(** [log(level, format, args...)] *)
Definition log (l : level) (fmt : string) (args : list Z) : M unit :=
  λ s, Ok tt (set_logs (logs s ++ [Log l fmt args]) s).

(** A read of the node [p] points to. *)
Definition load (p : ptr) : M avl_t :=
  λ s, match p with
       | None => Fault NullDeref
       | Some a => match nodes s !! a with
                   | Some n => Ok n s
                   | None => Fault BadAccess
                   end
       end.

(** A write to one field of the node [p] points to. *)
Definition store (p : ptr) (f : avl_t → avl_t) : M unit :=
  λ s, match p with
       | None => Fault NullDeref
       | Some a => match nodes s !! a with
                   | Some n => Ok tt (set_nodes <[a := f n]> s)
                   | None => Fault BadAccess
                   end
       end.

(** [*head] and [*head = v] *)
Definition load_handle (head : ptr) : M ptr :=
  λ s, match head with
       | None => Fault NullDeref
       | Some a => match handles s !! a with
                   | Some v => Ok v s
                   | None => Fault BadAccess
                   end
       end.
Definition store_handle (head : ptr) (v : ptr) : M unit :=
  λ s, match head with
       | None => Fault NullDeref
       | Some a => match handles s !! a with
                   | Some _ => Ok tt (set_handles <[a := v]> s)
                   | None => Fault BadAccess
                   end
       end.

(** [arr[i]] *)
Definition read_int (arr : ptr) (i : Z) : M Z :=
  λ s, match arr with
       | None => Fault NullDeref
       | Some a => match arrays s !! a with
                   | Some l => if i <? 0 then Fault BadAccess
                               else match l !! Z.to_nat i with
                                    | Some v => Ok v s
                                    | None => Fault BadAccess
                                    end
                   | None => Fault BadAccess
                   end
       end.

(** An allocation request asks the oracle. *)
Definition request : M bool :=
  λ s, match oracle s with
       | [] => Ok true s
       | b :: o => Ok b (set_oracle o s)
       end.

(** [calloc(1, sizeof(avl_t))]: NULL, or a fresh zeroed node. *)
Definition calloc_avl_t : M ptr :=
  ok ← request;
  if ok : bool then
    λ s, Ok (Some (next s))
            (set_next (Pos.succ (next s)) (set_nodes <[next s := Avl.zero]> s))
  else ret None.

(** [calloc(1, sizeof(avl_p))]: NULL, or a fresh handle holding NULL. *)
Definition calloc_avl_p : M ptr :=
  ok ← request;
  if ok : bool then
    λ s, Ok (Some (next s))
            (set_next (Pos.succ (next s)) (set_handles <[next s := None]> s))
  else ret None.

(** [free(root)] for an AVL node. *)
Definition free_avl_t (p : ptr) : M unit :=
  λ s, match p with
       | None => Ok tt s
       | Some a => match nodes s !! a with
                   | Some _ => Ok tt (set_nodes (delete a) s)
                   | None => Fault BadAccess
                   end
       end.

(** ** The path stack *)

(** [#define LEFT 0] and [#define RIGHT 1] *)
Definition LEFT : Z := 0.
Definition RIGHT : Z := 1.

(** [nodedata]: a node of the descent path and the direction taken from
    it. *)
Record nodedata := Nodedata { node : ptr; direction : Z }.

(** Modelled from the spec: the stack library ([get_stack], [push], [pop],
    [destroy_stack]) is not part of [avl.c].  The spec describes a LIFO
    sequence: [push] adds an entry, [pop] removes and returns the entry
    pushed last, or a not-present signal when the stack is empty. *)
Definition get_stack : list nodedata := [].
Definition push (stack : list nodedata) (n : nodedata) : list nodedata := n :: stack.
Definition pop (stack : list nodedata) : option nodedata * list nodedata :=
  match stack with
  | [] => (None, [])
  | n :: stack' => (Some n, stack')
  end.
Definition destroy_stack (stack : list nodedata) : M unit := ret tt.

(** [malloc(sizeof(nodedata))] followed by the writes to the two fields of
    the block: the entry, or a write through NULL when the request
    fails. *)
Definition malloc_nodedata (nd : ptr) (dir : Z) : M nodedata :=
  ok ← request;
  if ok : bool then ret (Nodedata nd dir) else fail NullDeref.

(** ** Heights and rotations *)

(** The conditional both [height] and [BalanceFactor] use for a child:
    [child == NULL ? 0 : 1 + child->height]. *)
Definition side (child : ptr) : M Z :=
  match child with
  | None => ret 0
  | Some _ => c ← load child; ret (1 + Avl.height c)
  end.

Definition height (node : ptr) : M Z :=
  match node with
  | None => ret 0
  | Some _ =>
      n ← load node;
      lh ← side (Avl.left n);
      rh ← side (Avl.right n);
      ret (if lh >=? rh then lh else rh)
  end.

Definition BalanceFactor (node : ptr) : M Z :=
  match node with
  | None => ret 0
  | Some _ =>
      n ← load node;
      lh ← side (Avl.left n);
      rh ← side (Avl.right n);
      ret (lh - rh)
  end.

Definition RotateRight (node : ptr) : M ptr :=
  n ← load node;
  let left_node := Avl.left n in
  ln ← load left_node;
  store node (Avl.with_left (Avl.right ln));;
  store left_node (Avl.with_right node);;
  h ← height node;
  store node (Avl.with_height h);;
  h ← height left_node;
  store left_node (Avl.with_height h);;
  ret left_node.

Definition RotateLeft (node : ptr) : M ptr :=
  n ← load node;
  let right_node := Avl.right n in
  rn ← load right_node;
  store node (Avl.with_right (Avl.left rn));;
  store right_node (Avl.with_left node);;
  h ← height node;
  store node (Avl.with_height h);;
  h ← height right_node;
  store right_node (Avl.with_height h);;
  ret right_node.

Definition RightRight (node : ptr) : M ptr := RotateLeft node.

Definition LeftLeft (node : ptr) : M ptr := RotateRight node.

Definition LeftRight (node : ptr) : M ptr :=
  n ← load node;
  l ← RotateLeft (Avl.left n);
  store node (Avl.with_left l);;
  RotateRight node.

Definition RightLeft (node : ptr) : M ptr :=
  n ← load node;
  r ← RotateRight (Avl.right n);
  store node (Avl.with_right r);;
  RotateLeft node.

(** ** Rebalancing *)

(** The assignment [rebalance] repeats in its four cases: the rotated
    subtree goes to the recorded side of the parent when an entry [p] was
    popped, and to [*head] otherwise. *)
Definition reattach (p : option nodedata) (head new : ptr) : M unit :=
  match p with
  | Some p =>
      if direction p =? RIGHT
      then store (node p) (Avl.with_right new)
      else store (node p) (Avl.with_left new)
  | None => store_handle head new
  end.

Definition rebalance (stack : list nodedata) (head tmp : ptr) (data : Z)
  : M (list nodedata) :=
  bf ← BalanceFactor tmp;
  if bf =? -2 then
    let '(p, stack) := pop stack in
    t ← load tmp;
    r ← load (Avl.right t);
    (if data >=? Avl.data r
     then new ← RightRight tmp; reattach p head new
     else new ← RightLeft tmp; reattach p head new);;
    h ← height tmp;
    store tmp (Avl.with_height h);;
    ret stack
  else
    bf ← BalanceFactor tmp;
    if bf =? 2 then
      let '(p, stack) := pop stack in
      t ← load tmp;
      l ← load (Avl.left t);
      (if data <? Avl.data l
       then new ← LeftLeft tmp; reattach p head new
       else new ← LeftRight tmp; reattach p head new);;
      h ← height tmp;
      store tmp (Avl.with_height h);;
      ret stack
    else
      h ← height tmp;
      store tmp (Avl.with_height h);;
      ret stack.

(** ** Building the tree *)

(** [while ((p = pop(stack)) != NULL) { tmp = p->node; free(p);
    rebalance(stack, head, tmp, arr[i]); }] *)
Fixpoint while_pop (fuel : nat) (stack : list nodedata) (head arr : ptr) (i : Z)
  : M (list nodedata) :=
  match fuel with
  | O => fail OutOfFuel
  | S fuel =>
      match pop stack with
      | (None, stack) => ret stack
      | (Some p, stack) =>
          let tmp := node p in
          v ← read_int arr i;
          stack ← rebalance stack head tmp v;
          while_pop fuel stack head arr i
      end
  end.

(** [while (root) { ... }]: the descent for [arr[i]].  The loop ends by
    [break] after the insertion, with [root] reset to [*head]. *)
Fixpoint while_root (fuel : nat) (arr : ptr) (i : Z) (head root : ptr)
    (stack : list nodedata) : M (ptr * list nodedata) :=
  match fuel with
  | O => fail OutOfFuel
  | S fuel =>
      match root with
      | None => ret (root, stack)
      | Some _ =>
          v ← read_int arr i;
          r ← load root;
          if v <? Avl.data r then
            match Avl.left r with
            | None =>
                l ← calloc_avl_t;
                store root (Avl.with_left l);;
                v ← read_int arr i;
                store l (Avl.with_data v);;
                h ← height root;
                store root (Avl.with_height h);;
                stack ← while_pop fuel stack head arr i;
                root ← load_handle head;
                ret (root, stack)
            | Some _ =>
                n ← malloc_nodedata root LEFT;
                let stack := push stack n in
                r ← load root;
                while_root fuel arr i head (Avl.left r) stack
            end
          else
            match Avl.right r with
            | None =>
                l ← calloc_avl_t;
                store root (Avl.with_right l);;
                v ← read_int arr i;
                store l (Avl.with_data v);;
                h ← height root;
                store root (Avl.with_height h);;
                stack ← while_pop fuel stack head arr i;
                root ← load_handle head;
                ret (root, stack)
            | Some _ =>
                n ← malloc_nodedata root RIGHT;
                let stack := push stack n in
                r ← load root;
                while_root fuel arr i head (Avl.right r) stack
            end
      end
  end.

(** [for (; i < len; i++) { while (root) { ... } }]: the result is what
    the loop leaves in the variables [root] and [stack]. *)
Fixpoint for_i (fuel : nat) (arr : ptr) (len : Z) (head : ptr) (i : Z) (root : ptr)
    (stack : list nodedata) : M (ptr * list nodedata) :=
  match fuel with
  | O => fail OutOfFuel
  | S fuel =>
      if i <? len then
        '(root, stack) ← while_root fuel arr i head root stack;
        for_i fuel arr len head (i + 1) root stack
      else ret (root, stack)
  end.

Definition generate_avl (fuel : nat) (arr : ptr) (len : Z) : M ptr :=
  let stack := get_stack in
  if match arr with None => true | Some _ => false end || (len =? 0) then
    log ERROR "Invalid array." [];;
    ret None
  else
    root ← calloc_avl_t;
    match root with
    | None =>
        log ERROR "calloc failed." [];;
        ret None
    | Some _ =>
        v ← read_int arr 0;
        store root (Avl.with_data v);;
        head ← calloc_avl_p;
        store_handle head root;;
        '(root, stack) ← for_i fuel arr len head 1 root stack;
        destroy_stack stack;;
        ret head
    end.

(** ** Deleting and printing *)

Fixpoint delete_avl (fuel : nat) (root : ptr) : M Z :=
  match fuel with
  | O => fail OutOfFuel
  | S fuel =>
      let count := 0 in
      match root with
      | None =>
          log ERROR "root invalid." [];;
          ret (-1)
      | Some _ =>
          r ← load root;
          count ← match Avl.left r with
                  | Some _ => c ← delete_avl fuel (Avl.left r); ret (count + c)
                  | None => ret count
                  end;
          r ← load root;
          count ← match Avl.right r with
                  | Some _ => c ← delete_avl fuel (Avl.right r); ret (count + c)
                  | None => ret count
                  end;
          free_avl_t root;;
          ret (count + 1)
      end
  end.

Fixpoint print_avl (fuel : nat) (root parent : ptr) : M Z :=
  match fuel with
  | O => fail OutOfFuel
  | S fuel =>
      let count := 0 in
      match root with
      | None =>
          log ERROR "root invalid." [];;
          ret (-1)
      | Some _ =>
          let count := count + 1 in
          r ← load root;
          pa ← load parent;
          log INFO "data: %6d,  parent: %6d" [Avl.data r; Avl.data pa];;
          r ← load root;
          count ← match Avl.left r with
                  | Some _ =>
                      log INFO "LEFT." [];;
                      c ← print_avl fuel (Avl.left r) root;
                      ret (count + c)
                  | None => ret count
                  end;
          r ← load root;
          count ← match Avl.right r with
                  | Some _ =>
                      log INFO "RIGHT." [];;
                      c ← print_avl fuel (Avl.right r) root;
                      ret (count + c)
                  | None => ret count
                  end;
          ret count
      end
  end.

(** ** Trees in the store *)

(** The tree a pointer leads to: each node with its address, its value and
    its stored height. *)
Inductive tree :=
| Leaf
| Node (l : tree) (a : positive) (d h : Z) (r : tree).

Definition root_ptr (t : tree) : ptr :=
  match t with
  | Leaf => None
  | Node _ a _ _ _ => Some a
  end.

(** The store holds the nodes of [t], linked as in [t]. *)
Fixpoint repr (m : gmap positive avl_t) (t : tree) : Prop :=
  match t with
  | Leaf => True
  | Node l a d h r =>
      m !! a = Some (Avl.mk d h (root_ptr l) (root_ptr r)) ∧ repr m l ∧ repr m r
  end.

(** Inorder sequence of the nodes, as pairs of address and value. *)
Fixpoint inorder (t : tree) : list (positive * Z) :=
  match t with
  | Leaf => []
  | Node l a d _ r => inorder l ++ (a, d) :: inorder r
  end.

Definition addrs (t : tree) : list positive := (inorder t).*1.
Definition values (t : tree) : list Z := (inorder t).*2.

Fixpoint size (t : tree) : nat :=
  match t with
  | Leaf => 0
  | Node l _ _ _ r => S (size l + size r)
  end.

(** [t] sits in the store at [p]: the nodes are there, linked as in [t],
    and no address occurs twice. *)
Definition tree_at (m : gmap positive avl_t) (p : ptr) (t : tree) : Prop :=
  root_ptr t = p ∧ repr m t ∧ NoDup (addrs t).

(** Reading the tree at [p] back from the store, to a depth of [fuel]. *)
Fixpoint read_tree (fuel : nat) (m : gmap positive avl_t) (p : ptr) : option tree :=
  match fuel with
  | O => None
  | S fuel =>
      match p with
      | None => Some Leaf
      | Some a =>
          match m !! a with
          | None => None
          | Some n =>
              match read_tree fuel m (Avl.left n), read_tree fuel m (Avl.right n) with
              | Some l, Some r => Some (Node l a (Avl.data n) (Avl.height n) r)
              | _, _ => None
              end
          end
      end
  end.

(** ** Heights, balance and order of a tree *)

(** The height of a subtree as the program counts it for a child: 0 for an
    absent child, one more than the height of the node otherwise; the
    height of a node is the larger of its two sides.  [real_height] follows
    the structure of the tree and never looks at a stored height. *)
Fixpoint real_side (t : tree) : Z :=
  match t with
  | Leaf => 0
  | Node l _ _ _ r => 1 + Z.max (real_side l) (real_side r)
  end.

Definition real_height (t : tree) : Z :=
  match t with
  | Leaf => 0
  | Node l _ _ _ r => Z.max (real_side l) (real_side r)
  end.

(** The recursive height in the words of the specification: a node with no
    children has height 0, any other node one more than the maximum over
    its children. *)
Fixpoint spec_height (t : tree) : Z :=
  match t with
  | Leaf => 0
  | Node l _ _ _ r =>
      match l, r with
      | Leaf, Leaf => 0
      | Node _ _ _ _ _, Leaf => 1 + spec_height l
      | Leaf, Node _ _ _ _ _ => 1 + spec_height r
      | Node _ _ _ _ _, Node _ _ _ _ _ => 1 + Z.max (spec_height l) (spec_height r)
      end
  end.

(** Balance factor of a node from the structure: left height minus right
    height. *)
Definition balance_factor (t : tree) : Z :=
  match t with
  | Leaf => 0
  | Node l _ _ _ r => real_side l - real_side r
  end.

(** Every node of [t] satisfies [P] (given as a predicate on the subtree
    rooted at the node). *)
Fixpoint all_nodes (P : tree → Prop) (t : tree) : Prop :=
  match t with
  | Leaf => True
  | Node l _ _ _ r => P t ∧ all_nodes P l ∧ all_nodes P r
  end.

Definition stored_height (t : tree) : Z :=
  match t with
  | Leaf => 0
  | Node _ _ _ h _ => h
  end.

Definition balanced_node (t : tree) : Prop := -1 ≤ balance_factor t ≤ 1.
Definition height_cached (t : tree) : Prop := stored_height t = spec_height t.

Definition node_value (t : tree) : Z :=
  match t with
  | Leaf => 0
  | Node _ _ d _ _ => d
  end.
Definition left_of (t : tree) : tree :=
  match t with
  | Leaf => Leaf
  | Node l _ _ _ _ => l
  end.
Definition right_of (t : tree) : tree :=
  match t with
  | Leaf => Leaf
  | Node _ _ _ _ r => r
  end.

(** The order the specification states: left strictly smaller, right
    greater or equal. *)
Definition bst_strict_node (t : tree) : Prop :=
  Forall (λ v, v < node_value t) (values (left_of t)) ∧
  Forall (λ v, node_value t ≤ v) (values (right_of t)).

(** The order the rotations keep: left smaller or equal, right greater or
    equal. *)
Definition bst_weak_node (t : tree) : Prop :=
  Forall (λ v, v ≤ node_value t) (values (left_of t)) ∧
  Forall (λ v, node_value t ≤ v) (values (right_of t)).

(** ** The insertion, on trees

    What the program does to the store, read on the tree the store holds.
    The refinement lemmas further down show that the program computes
    these functions. *)

(** [child == NULL ? 0 : 1 + child->height] on a tree. *)
Definition side_of (t : tree) : Z :=
  match t with
  | Leaf => 0
  | Node _ _ _ h _ => 1 + h
  end.

(** [lh >= rh ? lh : rh] *)
Definition pick (lh rh : Z) : Z := if lh >=? rh then lh else rh.

(** A node whose height was just set by [node->height = height(node)]. *)
Definition join (l : tree) (a : positive) (d : Z) (r : tree) : tree :=
  Node l a d (pick (side_of l) (side_of r)) r.

Definition rot_left (t : tree) : tree :=
  match t with
  | Node l a d _ (Node rl b e _ rr) => join (join l a d rl) b e rr
  | _ => t
  end.

Definition rot_right (t : tree) : tree :=
  match t with
  | Node (Node ll b e _ lr) a d _ r => join ll b e (join lr a d r)
  | _ => t
  end.

Definition left_right (t : tree) : tree :=
  match t with
  | Node l a d h r => rot_right (Node (rot_left l) a d h r)
  | Leaf => Leaf
  end.

Definition right_left (t : tree) : tree :=
  match t with
  | Node l a d h r => rot_left (Node l a d h (rot_right r))
  | Leaf => Leaf
  end.

Definition bf_of (t : tree) : Z := side_of (left_of t) - side_of (right_of t).

Definition rotates (t : tree) : bool := (bf_of t =? -2) || (bf_of t =? 2).

(** The subtree [rebalance] leaves where [tmp] was. *)
Definition rebalanced (v : Z) (t : tree) : tree :=
  match t with
  | Leaf => Leaf
  | Node l a d _ r =>
      if bf_of t =? -2 then
        if v >=? node_value r then rot_left t else right_left t
      else if bf_of t =? 2 then
        if v <? node_value l then rot_right t else left_right t
      else join l a d r
  end.

(** One entry of the descent path: the node, the direction taken from it
    and the subtree on the other side. *)
Record frame := Frame {
  f_addr : positive; f_data : Z; f_height : Z; f_dir : Z; f_sib : tree
}.

Definition fill (f : frame) (c : tree) : tree :=
  if f_dir f =? RIGHT
  then Node (f_sib f) (f_addr f) (f_data f) (f_height f) c
  else Node c (f_addr f) (f_data f) (f_height f) (f_sib f).

(** The tree around a subtree [c]: the innermost frame comes first, as on
    the stack. *)
Fixpoint plug (ctx : list frame) (c : tree) : tree :=
  match ctx with
  | [] => c
  | f :: ctx => plug ctx (fill f c)
  end.

Definition stack_of (ctx : list frame) : list nodedata :=
  map (λ f, Nodedata (Some (f_addr f)) (f_dir f)) ctx.

(** The unwinding loop: [c] is the subtree below the top entry. *)
Fixpoint unwind (v : Z) (ctx : list frame) (c : tree) : tree :=
  match ctx with
  | [] => c
  | f :: ctx' =>
      let t := fill f c in
      if rotates t then
        match ctx' with
        | [] => rebalanced v t
        | f' :: ctx'' => unwind v ctx'' (fill f' (rebalanced v t))
        end
      else unwind v ctx' (rebalanced v t)
  end.

(** The descent: the path to the node that receives the new leaf [new],
    and that node with the leaf attached and its height refreshed. *)
Fixpoint descend (v : Z) (new : positive) (t : tree) (ctx : list frame)
  : list frame * tree :=
  match t with
  | Leaf => (ctx, Leaf)
  | Node l a d h r =>
      if v <? d then
        match l with
        | Leaf => (ctx, join (Node Leaf new v 0 Leaf) a d r)
        | Node _ _ _ _ _ => descend v new l (Frame a d h LEFT r :: ctx)
        end
      else
        match r with
        | Leaf => (ctx, join l a d (Node Leaf new v 0 Leaf))
        | Node _ _ _ _ _ => descend v new r (Frame a d h RIGHT l :: ctx)
        end
  end.

Definition insert (v : Z) (new : positive) (t : tree) : tree :=
  let '(ctx, c) := descend v new t [] in unwind v ctx c.

(** Insertion into the inorder sequence: behind every value that is not
    greater. *)
Fixpoint ins_list (v : Z) (new : positive) (l : list (positive * Z))
  : list (positive * Z) :=
  match l with
  | [] => [(new, v)]
  | (a, d) :: l' => if v <? d then (new, v) :: l else (a, d) :: ins_list v new l'
  end.

(** The invariant of the build: heights are stored as [height] computes
    them from the children, and the two sides differ by at most one. *)
Fixpoint avl (t : tree) : Prop :=
  match t with
  | Leaf => True
  | Node l _ _ h r =>
      avl l ∧ avl r ∧ h = pick (side_of l) (side_of r)
      ∧ -1 ≤ side_of l - side_of r ≤ 1
  end.

(** The path up to the root is fine for a hole of side height [s0]: the
    siblings are AVL trees and the stored heights of the path nodes are the
    ones a subtree of side height [s0] in the hole gives. *)
Fixpoint ctx_ok (ctx : list frame) (s0 : Z) : Prop :=
  match ctx with
  | [] => True
  | f :: ctx' =>
      avl (f_sib f) ∧ f_height f = Z.max s0 (side_of (f_sib f))
      ∧ -1 ≤ s0 - side_of (f_sib f) ≤ 1
      ∧ ctx_ok ctx' (1 + f_height f)
  end.

(** The subtree grew on the side the value [v] went to. *)
Definition lean (v : Z) (c : tree) : Prop :=
  match c with
  | Leaf => False
  | Node l _ d _ r =>
      if v <? d then side_of l = side_of r + 1 else side_of r = side_of l + 1
  end.

(** The direction recorded for a path node is the one the comparison with
    [v] gives. *)
Definition dir_ok (v : Z) (f : frame) : Prop :=
  f_dir f = if v <? f_data f then LEFT else RIGHT.

(** The children the rotations of [rebalance] go through are there. *)
Definition safe (v : Z) (t : tree) : Prop :=
  match t with
  | Leaf => False
  | Node l _ _ _ r =>
      (bf_of t = -2 →
       match r with
       | Leaf => False
       | Node rl _ e _ _ => v < e → rl ≠ Leaf
       end) ∧
      (bf_of t = 2 →
       match l with
       | Leaf => False
       | Node _ _ e _ lr => e ≤ v → lr ≠ Leaf
       end)
  end.

(** [safe] at every node the unwinding loop hands to [rebalance]. *)
Fixpoint unwind_safe (v : Z) (ctx : list frame) (c : tree) : Prop :=
  match ctx with
  | [] => True
  | f :: ctx' =>
      let t := fill f c in
      safe v t ∧
      if rotates t then
        match ctx' with
        | [] => True
        | f' :: ctx'' => unwind_safe v ctx'' (fill f' (rebalanced v t))
        end
      else unwind_safe v ctx' (rebalanced v t)
  end.

(** The nodes of a path, their siblings included. *)
Fixpoint ctx_inorder (ctx : list frame) : list (positive * Z) :=
  match ctx with
  | [] => []
  | f :: ctx' => (f_addr f, f_data f) :: inorder (f_sib f) ++ ctx_inorder ctx'
  end.

(** The store holds the path: every path node is there, pointing to its
    sibling subtree on one side and to [p] (for the innermost node) or to
    the path node below it on the other. *)
Fixpoint repr_ctx (m : gmap positive avl_t) (ctx : list frame) (p : ptr) : Prop :=
  match ctx with
  | [] => True
  | f :: ctx' =>
      m !! f_addr f =
        Some (if f_dir f =? RIGHT
              then Avl.mk (f_data f) (f_height f) (root_ptr (f_sib f)) p
              else Avl.mk (f_data f) (f_height f) p (root_ptr (f_sib f)))
      ∧ repr m (f_sib f)
      ∧ repr_ctx m ctx' (Some (f_addr f))
  end.

(** The inorder sequence of [plug ctx c] from the one of [c]. *)
Fixpoint plug_list (ctx : list frame) (l : list (positive * Z)) : list (positive * Z) :=
  match ctx with
  | [] => l
  | f :: ctx' =>
      plug_list ctx'
        (if f_dir f =? RIGHT
         then inorder (f_sib f) ++ (f_addr f, f_data f) :: l
         else l ++ (f_addr f, f_data f) :: inorder (f_sib f))
  end.

(** Ascending by value. *)
Definition by_value : relation (positive * Z) := λ x y, x.2 ≤ y.2.

(** The address of the node made for [arr[i]] when the build starts with
    [n0] as the next free address: the root takes [n0], the handle
    [n0 + 1], and the leaf for [arr[i]] is the next allocation each
    time. *)
Definition node_of (n0 : positive) (i : nat) : positive :=
  match i with
  | O => n0
  | S _ => (n0 + Pos.of_succ_nat i)%positive
  end.

(** Index [i] comes before index [j] in a stable ascending sort of [xs]:
    its value is smaller, or the values are equal and [i] is the earlier
    position. *)
Definition idx_lt (xs : list Z) : relation nat :=
  λ i j, xs !!! i < xs !!! j ∨ (xs !!! i = xs !!! j ∧ (i < j)%nat).

(** Insertion of index [k] into a sequence of indices: behind every index
    whose value is not greater than [xs[k]]. *)
Fixpoint ins_idx (xs : list Z) (k : nat) (p : list nat) : list nat :=
  match p with
  | [] => [k]
  | j :: p' => if xs !!! k <? xs !!! j then k :: p else j :: ins_idx xs k p'
  end.

(** The indices [0 .. n-1] sorted by insertion, one after the other. *)
Fixpoint sort_idx (xs : list Z) (n : nat) : list nat :=
  match n with
  | O => []
  | S n' => ins_idx xs n' (sort_idx xs n')
  end.

(** The store [s] with [m] for its nodes. *)
Definition with_nodes (m : gmap positive avl_t) (s : mem) : mem := set_nodes (λ _, m) s.

(** The addresses of a path, siblings included. *)
Definition ctx_addrs (ctx : list frame) : list positive := (ctx_inorder ctx).*1.

(** From [s] to [s'] nothing changed but nodes and handles. *)
Definition same_rest (s s' : mem) : Prop :=
  arrays s' = arrays s ∧ next s' = next s ∧ oracle s' = oracle s ∧ logs s' = logs s.

(** From [s] to [s'] no node outside the addresses [A] and no handle but
    [hd] changed. *)
Definition untouched (A : list positive) (hd : positive) (s s' : mem) : Prop :=
  (∀ x, x ∉ A → nodes s' !! x = nodes s !! x)
  ∧ (∀ h, h ≠ hd → handles s' !! h = handles s !! h).

(** After a rotation [rebalance] has popped the parent entry, if there is
    one, and hung the rotated subtree [t] below it. *)
Definition reattached (ctx : list frame) (t : tree) : list frame * tree :=
  match ctx with
  | [] => ([], t)
  | f :: ctx' => (ctx', fill f t)
  end.

(** One turn of the unwinding loop on the path and the subtree below it. *)
Definition unwind_step (v : Z) (ctx : list frame) (t : tree) : list frame * tree :=
  if rotates t then reattached ctx (rebalanced v t) else (ctx, rebalanced v t).

(** [c] run from [s] returns [x] in a state that satisfies [Q]. *)
Definition yields {A} (c : M A) (s : mem) (x : A) (Q : mem → Prop) : Prop :=
  ∃ s', c s = Ok x s' ∧ Q s'.

(** Every coming allocation request is served. *)
Definition oracle_ok (s : mem) : Prop := Forall (λ b, b = true) (oracle s).

(** The state after an allocation request. *)
Definition served (s : mem) : mem := set_oracle (tail (oracle s)) s.

(** The tree after the values [vs] went in, one new node per value from
    address [n] on. *)
Fixpoint build_from (vs : list Z) (n : positive) (t : tree) : tree :=
  match vs with
  | [] => t
  | v :: vs' => build_from vs' (Pos.succ n) (insert v n t)
  end.

(** The tree [generate_avl] builds from [xs] when [n0] is the next free
    address: the root at [n0], the handle at [n0 + 1], the leaves behind. *)
Definition built (xs : list Z) (n0 : positive) : tree :=
  match xs with
  | [] => Leaf
  | x :: xs' => build_from xs' (Pos.succ (Pos.succ n0)) (Node Leaf n0 x 0 Leaf)
  end.

(** What every insertion keeps true of the tree. *)
Definition good (t : tree) : Prop :=
  t ≠ Leaf ∧ avl t ∧ StronglySorted by_value (inorder t).

(** The store holds [t] behind the handle [hd], all of it below the next
    free address. *)
Definition held (s : mem) (hd : positive) (t : tree) : Prop :=
  repr (nodes s) t ∧ NoDup (addrs t)
  ∧ Forall (λ a, (a < next s)%positive) (addrs t)
  ∧ handles s !! hd = Some (root_ptr t).

(** The state in which the loop of [generate_avl] starts: root and handle
    allocated, [arr[0]] in the root. *)
Definition started (s : mem) (x : Z) : mem :=
  set_handles <[Pos.succ (next s) := Some (next s)]>
    (set_next (Pos.succ (Pos.succ (next s)))
       (set_handles <[Pos.succ (next s) := None]>
          (served
             (with_nodes (<[next s := Avl.mk x 0 None None]> (nodes s))
                (set_next (Pos.succ (next s)) (served s)))))).

(** The state [sk] is the one the run [generate_avl(arr, len)] is in when
    its loop reaches [i = k], after the insertions of [arr[1]] to
    [arr[k-1]]: it is the state in which the build of the first [k] values
    returns, and the loop of the run on [len] values goes on from it with
    the fuel that is left. *)
Definition reached (fuel : nat) (arr : ptr) (len : Z) (s : mem) (k : nat)
    (hd : positive) (sk : mem) : Prop :=
  generate_avl fuel arr (Z.of_nat k) s = Ok (Some hd) sk
  ∧ ∃ root, handles sk !! hd = Some root
    ∧ generate_avl fuel arr len s
      = match for_i (fuel - (k - 1)) arr len (Some hd) (Z.of_nat k) root [] sk with
        | Ok _ s' => Ok (Some hd) s'
        | Fault f => Fault f
        end.

(** A store that holds the array [xs] at address 1 and nothing else. *)
Definition init_mem (xs : list Z) : mem :=
  Mem ∅ ∅ {[ 1%positive := xs ]} 2%positive [] [].

(** A tree without the addresses: values and stored heights. *)
Inductive shape :=
| SLeaf
| SNode (l : shape) (d h : Z) (r : shape).

Fixpoint shape_of (t : tree) : shape :=
  match t with
  | Leaf => SLeaf
  | Node l _ d h r => SNode (shape_of l) d h (shape_of r)
  end.

(** A store that holds the array [xs] at address 1 and whose coming
    allocation requests end as [o] says. *)
Definition oracle_mem (xs : list Z) (o : list bool) : mem :=
  Mem ∅ ∅ {[ 1%positive := xs ]} 2%positive o [].

(** A store with one node, of value 7, at address 3. *)
Definition one_node : mem :=
  Mem {[ 3%positive := Avl.mk 7 0 None None ]} ∅ ∅ 4%positive [] [].

(** The lines [print_avl] logs for the tree [t] below a parent of value
    [pv]: preorder, each node with the value of its parent. *)
Fixpoint print_lines (t : tree) (pv : Z) : list logline :=
  match t with
  | Leaf => []
  | Node l _ d _ r =>
      Log INFO "data: %6d,  parent: %6d" [d; pv]
      :: match l with
         | Leaf => []
         | Node _ _ _ _ _ => Log INFO "LEFT." [] :: print_lines l d
         end
      ++ match r with
         | Leaf => []
         | Node _ _ _ _ _ => Log INFO "RIGHT." [] :: print_lines r d
         end
  end.

(** [c] leaves the integer arrays of the store as they are. *)
Definition keeps_arrays {A} (c : M A) : Prop :=
  ∀ s a s', c s = Ok a s' → arrays s' = arrays s.

(** A store with three nodes at the addresses 3, 4 and 5: 30 at the top,
    10 to its left, 20 to the right of 10; the handle at 2 leads to the
    top. *)
Definition left_right_mem : mem :=
  Mem {[ 3%positive := Avl.mk 30 2 (Some 4%positive) None;
         4%positive := Avl.mk 10 1 None (Some 5%positive);
         5%positive := Avl.mk 20 0 None None ]}
      {[ 2%positive := Some 3%positive ]} ∅ 6%positive [] [].

(** The mirror image: 10 at the top, 30 to its right, 20 to the left of
    30. *)
Definition right_left_mem : mem :=
  Mem {[ 3%positive := Avl.mk 10 2 None (Some 4%positive);
         4%positive := Avl.mk 30 1 (Some 5%positive) None;
         5%positive := Avl.mk 20 0 None None ]}
      {[ 2%positive := Some 3%positive ]} ∅ 6%positive [] [].

(** A store with three nodes in a row to the right: 10 at address 3, 20 at
    4 to its right, 30 at 5 to the right of 20, as after the attachment of
    30 (the height of 20 refreshed, the one of 10 not yet); the handle at 2
    leads to 10. *)
Definition chain_mem : mem :=
  Mem {[ 3%positive := Avl.mk 10 1 None (Some 4%positive);
         4%positive := Avl.mk 20 1 None (Some 5%positive);
         5%positive := Avl.mk 30 0 None None ]}
      {[ 2%positive := Some 3%positive ]} ∅ 6%positive [] [].

(** [c] ends within the fuel it was given: it returns, or it stops at a
    memory fault. *)
Definition in_time {A} (c : M A) : Prop := ∀ s, c s ≠ Fault OutOfFuel.

(** Every value [c] returns satisfies [P]. *)
Definition returns {A} (P : A → Prop) (c : M A) : Prop :=
  ∀ s a s', c s = Ok a s' → P a.

(** A store with two arrays, [30; 10; 20] at address 1 and [5; 5] at
    address 2. *)
Definition two_arrays : mem :=
  Mem ∅ ∅ {[ 1%positive := [30; 10; 20]; 2%positive := [5; 5] ]} 3%positive [] [].

(** The Fibonacci numbers: 0, 1, 1, 2, 3, 5, 8, ... *)
Fixpoint fib (n : nat) : nat :=
  match n with
  | O => 0
  | S n' =>
      match n' with
      | O => 1
      | S n'' => fib n' + fib n''
      end
  end.

(** The tree [t] with the address [g a] in the place of every address
    [a]. *)
Fixpoint rename (g : positive → positive) (t : tree) : tree :=
  match t with
  | Leaf => Leaf
  | Node l a d h r => Node (rename g l) (g a) d h (rename g r)
  end.

Definition rename_frame (g : positive → positive) (f : frame) : frame :=
  Frame (g (f_addr f)) (f_data f) (f_height f) (f_dir f) (rename g (f_sib f)).

(** A store that holds the array [xs] at address 7 and whose next free
    address is 8. *)
Definition late_mem (xs : list Z) : mem :=
  Mem ∅ ∅ {[ 7%positive := xs ]} 8%positive [] [].

(** From [s] to [s'] every allocation request was served: the oracle lost
    a run of successes. *)
Definition all_served (s s' : mem) : Prop :=
  ∃ pre, oracle s = pre ++ oracle s' ∧ Forall (λ b, b = true) pre.

(** [c] returns only when all its allocation requests were served. *)
Definition served_run {A} (c : M A) : Prop :=
  ∀ s a s', c s = Ok a s' → all_served s s'.

(** [c] never returns. *)
Definition never_ok {A} (c : M A) : Prop := ∀ s a s', c s ≠ Ok a s'.

(** [c] makes no allocation request. *)
Definition keeps_oracle {A} (c : M A) : Prop :=
  ∀ s a s', c s = Ok a s' → oracle s' = oracle s.

(** * Proofs *)

(** ** Heights *)

Lemma pick_max a b : pick a b = Z.max a b.
Proof. unfold pick. destruct (Z.geb_spec a b); lia. Qed.

Lemma side_of_nonneg t : avl t → 0 ≤ side_of t.
Proof.
  induction t as [|l IHl a d h r IHr]; simpl; [lia|].
  intros (Hl & Hr & -> & Hb). rewrite pick_max.
  specialize (IHl Hl). lia.
Qed.

Lemma side_of_node_pos l a d h r : avl (Node l a d h r) → 1 ≤ side_of (Node l a d h r).
Proof.
  intros (Hl & Hr & -> & Hb). simpl. rewrite pick_max.
  apply side_of_nonneg in Hl. lia.
Qed.

Lemma avl_real_side t : avl t → side_of t = real_side t.
Proof.
  induction t as [|l IHl a d h r IHr]; simpl; [done|].
  intros (Hl & Hr & -> & _). rewrite pick_max, <- IHl, <- IHr; done.
Qed.

Lemma avl_spec_height t : avl t → t ≠ Leaf → side_of t = 1 + spec_height t.
Proof.
  induction t as [|l IHl a d h r IHr]; [done|].
  intros (Hl & Hr & -> & Hb) _.
  cbn [side_of]. rewrite pick_max. f_equal.
  pose proof (side_of_nonneg l Hl). pose proof (side_of_nonneg r Hr).
  destruct l as [|ll la ld lh lr], r as [|rl ra rd rh rr].
  - done.
  - rewrite (IHr Hr) by done.
    change (side_of Leaf) with 0. cbn [spec_height].
    pose proof (side_of_node_pos _ _ _ _ _ Hr).
    rewrite (IHr Hr) in H1 by done. cbn [spec_height] in H1. lia.
  - rewrite (IHl Hl) by done.
    change (side_of Leaf) with 0.
    pose proof (side_of_node_pos _ _ _ _ _ Hl).
    rewrite (IHl Hl) in H1 by done.
    change (spec_height (Node (Node ll la ld lh lr) a d _ Leaf))
      with (1 + spec_height (Node ll la ld lh lr)). lia.
  - rewrite (IHl Hl), (IHr Hr) by done.
    change (spec_height (Node (Node ll la ld lh lr) a d _ (Node rl ra rd rh rr)))
      with (1 + Z.max (spec_height (Node ll la ld lh lr)) (spec_height (Node rl ra rd rh rr))).
    lia.
Qed.

Lemma avl_side_bound t : avl t → 0 ≤ side_of t ≤ Z.of_nat (size t).
Proof.
  induction t as [|l IHl a d h r IHr]; [simpl; lia|].
  intros (Hl & Hr & -> & _). specialize (IHl Hl). specialize (IHr Hr).
  cbn [side_of size]. rewrite pick_max. lia.
Qed.

(** ** The tree a pointer leads to is determined by the store *)

Lemma repr_inj m t t' : root_ptr t = root_ptr t' → repr m t → repr m t' → t = t'.
Proof.
  revert t'. induction t as [|l IHl a d h r IHr]; intros [|l' a' d' h' r']; try done.
  intros [= <-] (Ha & Hl & Hr) (Ha' & Hl' & Hr').
  rewrite Ha in Ha'. injection Ha' as <- <- El Er.
  by rewrite (IHl l'), (IHr r').
Qed.

Lemma tree_at_unique m p t t' : tree_at m p t → tree_at m p t' → t = t'.
Proof.
  intros (E & R & _) (E' & R' & _). apply (repr_inj m); [congruence|done..].
Qed.

Lemma read_tree_repr m t : ∀ fuel,
  repr m t → (size t < fuel)%nat → read_tree fuel m (root_ptr t) = Some t.
Proof.
  induction t as [|l IHl a d h r IHr]; intros [|fuel] Hr Hf; try (simpl in Hf; lia).
  - done.
  - destruct Hr as (Ha & Hl & Hr). cbn [size] in Hf.
    cbn [read_tree root_ptr]. rewrite Ha. cbn [Avl.left Avl.right Avl.data Avl.height].
    rewrite IHl, IHr by (done || lia). done.
Qed.

(** ** The AVL invariant along the path *)

Lemma side_of_fill f c : side_of (fill f c) = 1 + f_height f.
Proof. unfold fill. by destruct (f_dir f =? RIGHT). Qed.

Lemma fill_not_leaf f c : fill f c ≠ Leaf.
Proof. unfold fill. by destruct (f_dir f =? RIGHT). Qed.

Lemma avl_fill f c :
  avl (fill f c) ↔
  avl c ∧ avl (f_sib f) ∧ f_height f = Z.max (side_of c) (side_of (f_sib f))
  ∧ -1 ≤ side_of c - side_of (f_sib f) ≤ 1.
Proof.
  unfold fill. destruct (f_dir f =? RIGHT); simpl; rewrite pick_max;
    split; intros (? & ? & ? & ?); repeat split; try done; lia.
Qed.

Lemma avl_plug ctx c : avl (plug ctx c) ↔ avl c ∧ ctx_ok ctx (side_of c).
Proof.
  revert c. induction ctx as [|f ctx IH]; intros c; simpl.
  - tauto.
  - rewrite IH, avl_fill, side_of_fill. tauto.
Qed.

Lemma avl_not_rotates t : avl t → rotates t = false.
Proof.
  destruct t as [|l a d h r]; [done|].
  intros (_ & _ & _ & Hb). unfold rotates, bf_of. simpl.
  destruct (Z.eqb_spec (side_of l - side_of r) (-2)),
    (Z.eqb_spec (side_of l - side_of r) 2); simpl; try done; lia.
Qed.

Lemma avl_rebalanced_id v t : avl t → rebalanced v t = t.
Proof.
  destruct t as [|l a d h r]; [done|].
  intros (_ & _ & -> & Hb). unfold rebalanced, bf_of. simpl.
  destruct (Z.eqb_spec (side_of l - side_of r) (-2)); [lia|].
  destruct (Z.eqb_spec (side_of l - side_of r) 2); [lia|]. done.
Qed.

Lemma avl_safe v t : avl t → t ≠ Leaf → safe v t.
Proof.
  destruct t as [|l a d h r]; [done|].
  intros (_ & _ & _ & Hb) _. unfold safe, bf_of. simpl. split; intros; lia.
Qed.

Lemma unwind_same v ctx c : avl (plug ctx c) → unwind v ctx c = plug ctx c.
Proof.
  revert c. induction ctx as [|f ctx IH]; intros c H; [done|].
  simpl in H. pose proof H as Ht. apply avl_plug in Ht as [Ht _].
  cbn [unwind plug]. rewrite (avl_not_rotates _ Ht), (avl_rebalanced_id _ _ Ht).
  by apply IH.
Qed.

Lemma unwind_safe_same v ctx c : avl (plug ctx c) → unwind_safe v ctx c.
Proof.
  revert c. induction ctx as [|f ctx IH]; intros c H; [done|].
  simpl in H. pose proof H as Ht. apply avl_plug in Ht as [Ht _].
  cbn [unwind_safe]. rewrite (avl_not_rotates _ Ht), (avl_rebalanced_id _ _ Ht).
  split; [apply avl_safe; [done|apply fill_not_leaf] | by apply IH].
Qed.

(** The rotation [rebalance] picks from the inserted value restores the
    height the subtree had before the insertion. *)
Lemma rebalanced_rotate v f c :
  avl c → avl (f_sib f) → lean v c → dir_ok v f →
  side_of c = side_of (f_sib f) + 2 →
  rotates (fill f c) = true ∧ safe v (fill f c)
  ∧ avl (rebalanced v (fill f c))
  ∧ side_of (rebalanced v (fill f c)) = side_of (f_sib f) + 2.
Proof.
  destruct f as [a d h dir sib]. unfold dir_ok. cbn [f_sib f_dir f_data].
  intros Hc Hsib Hlean Hdir Hs.
  destruct c as [|cl b e k cr]; [done|].
  destruct Hc as (Hcl & Hcr & -> & Hcb). cbn [lean] in Hlean.
  cbn [side_of] in Hs. rewrite pick_max in Hs.
  pose proof (side_of_nonneg _ Hsib) as Hsib0.
  pose proof (side_of_nonneg _ Hcl) as Hcl0.
  pose proof (side_of_nonneg _ Hcr) as Hcr0.
  unfold fill. cbn [f_dir f_sib f_addr f_data f_height].
  destruct (Z.ltb_spec v d) as [Hvd|Hvd]; subst dir.
  - (* the subtree hangs on the left: balance factor 2 *)
    change (LEFT =? RIGHT) with false. cbv iota.
    unfold rotates, rebalanced, safe, bf_of.
    cbn [left_of right_of side_of node_value]. rewrite !pick_max.
    destruct (Z.eqb_spec (1 + Z.max (side_of cl) (side_of cr) - side_of sib) (-2)); [lia|].
    destruct (Z.eqb_spec (1 + Z.max (side_of cl) (side_of cr) - side_of sib) 2); [|lia].
    destruct (Z.ltb_spec v e) as [Hve|Hve].
    + (* left-left *)
      split; [done|]. split; [split; intros; [lia|]; intros; lia|].
      cbn [rot_right join avl side_of]. rewrite !pick_max.
      repeat split; try done; lia.
    + (* left-right *)
      destruct cr as [|crl g x m crr].
      { cbn [side_of] in Hlean. lia. }
      destruct Hcr as (Hcrl & Hcrr & -> & Hcrb).
      cbn [side_of] in Hlean, Hs, Hcb. rewrite !pick_max in *.
      pose proof (side_of_nonneg _ Hcrl). pose proof (side_of_nonneg _ Hcrr).
      split; [done|]. split; [split; intros; [lia|done]|].
      cbn [left_right rot_left rot_right join avl side_of]. rewrite !pick_max.
      repeat split; try done; lia.
  - (* the subtree hangs on the right: balance factor -2 *)
    change (RIGHT =? RIGHT) with true. cbv iota.
    unfold rotates, rebalanced, safe, bf_of.
    cbn [left_of right_of side_of node_value]. rewrite !pick_max.
    destruct (Z.eqb_spec (side_of sib - (1 + Z.max (side_of cl) (side_of cr))) (-2)); [|lia].
    destruct (Z.ltb_spec v e) as [Hve|Hve].
    + (* right-left *)
      destruct (Z.geb_spec v e) as [?|_]; [lia|].
      destruct cl as [|cll g x m clr].
      { cbn [side_of] in Hlean. lia. }
      destruct Hcl as (Hcll & Hclr & -> & Hclb).
      cbn [side_of] in Hlean, Hs, Hcb. rewrite !pick_max in *.
      pose proof (side_of_nonneg _ Hcll). pose proof (side_of_nonneg _ Hclr).
      split; [done|]. split; [split; intros; [done|lia]|].
      cbn [right_left rot_left rot_right join avl side_of]. rewrite !pick_max.
      repeat split; try done; lia.
    + (* right-right *)
      destruct (Z.geb_spec v e) as [_|?]; [|lia].
      split; [done|]. split; [split; intros; [lia|]; intros; lia|].
      cbn [rot_left join avl side_of]. rewrite !pick_max.
      repeat split; try done; lia.
Qed.

(** The unwinding loop, started below a subtree that grew by one, ends
    with an AVL tree, and every rotation on the way finds the children it
    goes through. *)
Lemma unwind_grown v ctx : ∀ c s0,
  ctx_ok ctx s0 → avl c → side_of c = s0 + 1 → lean v c →
  Forall (dir_ok v) ctx →
  avl (unwind v ctx c) ∧ unwind_safe v ctx c.
Proof.
  induction ctx as [|f ctx IH]; intros c s0 Hctx Hc Hs Hlean Hdir; [done|].
  destruct Hctx as (Hsib & Hh & Hb & Hrest).
  apply Forall_cons in Hdir as [Hf Hdir].
  assert (s0 = side_of (f_sib f) - 1 ∨ s0 = side_of (f_sib f)
          ∨ s0 = side_of (f_sib f) + 1) as [Hcase|[Hcase|Hcase]] by lia.
  - (* the shorter side grew: nothing changes above *)
    assert (avl (plug (f :: ctx) c)) as Hall.
    { apply avl_plug. split; [done|]. cbn [ctx_ok].
      replace (Z.max s0 (side_of (f_sib f)))
        with (Z.max (side_of c) (side_of (f_sib f))) in Hh by lia.
      rewrite <- Hh. repeat split; try done; lia. }
    rewrite unwind_same by done. split; [done|by apply unwind_safe_same].
  - (* both sides were level: the node grows, no rotation *)
    assert (rotates (fill f c) = false ∧ safe v (fill f c)
            ∧ avl (rebalanced v (fill f c))
            ∧ side_of (rebalanced v (fill f c)) = (1 + f_height f) + 1
            ∧ lean v (rebalanced v (fill f c))) as (Hrot & Hsafe & Havl & Hside & Hl).
    { clear IH Hrest Hdir. destruct f as [a d h dir sib].
      unfold dir_ok in Hf. cbn [f_sib f_dir f_data f_height] in *.
      unfold fill. cbn [f_dir f_sib f_addr f_data f_height].
      destruct (Z.ltb_spec v d) as [Hvd|Hvd]; subst dir.
      - change (LEFT =? RIGHT) with false. cbv iota.
        unfold rotates, rebalanced, safe, bf_of, lean.
        cbn [left_of right_of side_of node_value].
        destruct (Z.eqb_spec (side_of c - side_of sib) (-2)); [lia|].
        destruct (Z.eqb_spec (side_of c - side_of sib) 2); [lia|].
        cbn [join avl side_of]. rewrite !pick_max.
        destruct (Z.ltb_spec v d); [|lia].
        repeat split; try done; lia.
      - change (RIGHT =? RIGHT) with true. cbv iota.
        unfold rotates, rebalanced, safe, bf_of, lean.
        cbn [left_of right_of side_of node_value].
        destruct (Z.eqb_spec (side_of sib - side_of c) (-2)); [lia|].
        destruct (Z.eqb_spec (side_of sib - side_of c) 2); [lia|].
        cbn [join avl side_of]. rewrite !pick_max.
        destruct (Z.ltb_spec v d); [lia|].
        repeat split; try done; lia. }
    cbn [unwind unwind_safe]. rewrite Hrot.
    destruct (IH (rebalanced v (fill f c)) (1 + f_height f)) as [H1 H2]; try done.
  - (* the taller side grew: one rotation, and nothing changes above *)
    destruct (rebalanced_rotate v f c) as (Hrot & Hsafe & Havl & Hside);
      try done; [lia|].
    assert (avl (plug ctx (rebalanced v (fill f c)))) as Hall.
    { apply avl_plug. split; [done|].
      replace (side_of (rebalanced v (fill f c))) with (1 + f_height f) by lia.
      done. }
    cbn [unwind unwind_safe]. rewrite Hrot.
    destruct ctx as [|f' ctx']; [done|].
    cbn [plug] in Hall. rewrite unwind_same by done.
    split; [done|]. split; [done|]. by apply unwind_safe_same.
Qed.

(** ** The descent *)

Lemma inorder_fill f c :
  inorder (fill f c) ≡ₚ inorder c ++ (f_addr f, f_data f) :: inorder (f_sib f).
Proof.
  unfold fill. destruct (f_dir f =? RIGHT); simpl; [|done].
  rewrite <- !Permutation_middle. by rewrite (comm (++)).
Qed.

Lemma inorder_plug ctx c : inorder (plug ctx c) ≡ₚ inorder c ++ ctx_inorder ctx.
Proof.
  revert c. induction ctx as [|f ctx IH]; intros c; simpl.
  - by rewrite app_nil_r.
  - rewrite IH, inorder_fill, <- app_assoc. reflexivity.
Qed.

Lemma descend_avl v new t : ∀ ctx,
  avl (plug ctx t) → t ≠ Leaf → Forall (dir_ok v) ctx →
  avl (unwind v (descend v new t ctx).1 (descend v new t ctx).2)
  ∧ unwind_safe v (descend v new t ctx).1 (descend v new t ctx).2.
Proof.
  induction t as [|l IHl a d h r IHr]; intros ctx Hall Hne Hdir; [done|].
  clear Hne. pose proof Hall as Hall'. apply avl_plug in Hall' as [Ht Hctx].
  pose proof Ht as (Hl & Hr & Hh & Hb).
  pose proof (side_of_nonneg _ Hl) as Hl0.
  pose proof (side_of_nonneg _ Hr) as Hr0.
  cbn [descend]. destruct (Z.ltb_spec v d) as [Hvd|Hvd].
  - destruct l as [|ll la ld lh lr].
    + cbn [fst snd]. change (side_of Leaf) with 0 in *.
      destruct r as [|rl ra rd rh rr].
      * (* the node was a leaf: it grows *)
        eapply unwind_grown; [exact Hctx| | | |exact Hdir].
        -- cbn [join avl side_of]. rewrite !pick_max. repeat split; try done; lia.
        -- cbn [join side_of] in *. subst h. rewrite !pick_max. lia.
        -- cbn [join lean side_of]. destruct (Z.ltb_spec v d); lia.
      * (* the node had a right child: same height *)
        assert (avl (plug ctx (join (Node Leaf new v 0 Leaf) a d (Node rl ra rd rh rr)))) as H.
        { apply avl_plug. pose proof (side_of_node_pos _ _ _ _ _ Hr).
          split.
          - cbn [join avl side_of] in *. rewrite !pick_max in *.
            intuition lia.
          - replace (side_of (join (Node Leaf new v 0 Leaf) a d (Node rl ra rd rh rr)))
              with (side_of (Node Leaf a d h (Node rl ra rd rh rr))); [done|].
            cbn [join side_of] in *. rewrite !pick_max in *. lia. }
        rewrite unwind_same by done. split; [done|by apply unwind_safe_same].
    + apply IHl; [done|done|].
      apply Forall_cons. split; [|done].
      unfold dir_ok. cbn [f_dir f_data]. destruct (Z.ltb_spec v d); [done|lia].
  - destruct r as [|rl ra rd rh rr].
    + cbn [fst snd]. change (side_of Leaf) with 0 in *.
      destruct l as [|ll la ld lh lr].
      * eapply unwind_grown; [exact Hctx| | | |exact Hdir].
        -- cbn [join avl side_of]. rewrite !pick_max. repeat split; try done; lia.
        -- cbn [join side_of] in *. subst h. rewrite !pick_max. lia.
        -- cbn [join lean side_of]. destruct (Z.ltb_spec v d); lia.
      * assert (avl (plug ctx (join (Node ll la ld lh lr) a d (Node Leaf new v 0 Leaf)))) as H.
        { apply avl_plug. pose proof (side_of_node_pos _ _ _ _ _ Hl).
          split.
          - cbn [join avl side_of] in *. rewrite !pick_max in *.
            intuition lia.
          - replace (side_of (join (Node ll la ld lh lr) a d (Node Leaf new v 0 Leaf)))
              with (side_of (Node (Node ll la ld lh lr) a d h Leaf)); [done|].
            cbn [join side_of] in *. rewrite !pick_max in *. lia. }
        rewrite unwind_same by done. split; [done|by apply unwind_safe_same].
    + apply IHr; [done|done|].
      apply Forall_cons. split; [|done].
      unfold dir_ok. cbn [f_dir f_data]. destruct (Z.ltb_spec v d); [lia|done].
Qed.

Lemma insert_avl v new t : avl t → t ≠ Leaf → avl (insert v new t).
Proof.
  intros Ht Hne. unfold insert.
  destruct (descend_avl v new t [] Ht Hne) as [H _]; [done|].
  by destruct (descend v new t []).
Qed.

(** ** Inorder sequences *)

Lemma inorder_rot_left t : inorder (rot_left t) = inorder t.
Proof.
  destruct t as [|l a d h [|rl b e k rr]]; try done.
  simpl. by rewrite <- app_assoc.
Qed.

Lemma inorder_rot_right t : inorder (rot_right t) = inorder t.
Proof.
  destruct t as [|[|ll b e k lr] a d h r]; try done.
  simpl. by rewrite <- app_assoc.
Qed.

Lemma inorder_left_right t : inorder (left_right t) = inorder t.
Proof.
  destruct t as [|l a d h r]; [done|].
  unfold left_right. rewrite inorder_rot_right. simpl.
  by rewrite inorder_rot_left.
Qed.

Lemma inorder_right_left t : inorder (right_left t) = inorder t.
Proof.
  destruct t as [|l a d h r]; [done|].
  unfold right_left. rewrite inorder_rot_left. simpl.
  by rewrite inorder_rot_right.
Qed.

Lemma inorder_rebalanced v t : inorder (rebalanced v t) = inorder t.
Proof.
  destruct t as [|l a d h r]; [done|]. unfold rebalanced.
  repeat case_match;
    rewrite ?inorder_rot_left, ?inorder_rot_right, ?inorder_left_right,
      ?inorder_right_left; done.
Qed.

Lemma inorder_plug_list ctx c : inorder (plug ctx c) = plug_list ctx (inorder c).
Proof.
  revert c. induction ctx as [|f ctx IH]; intros c; [done|].
  cbn [plug plug_list]. rewrite IH. unfold fill.
  by destruct (f_dir f =? RIGHT).
Qed.

Lemma inorder_unwind v ctx c : inorder (unwind v ctx c) = inorder (plug ctx c).
Proof.
  remember (length ctx) as n eqn:Hn. revert ctx c Hn.
  induction n as [n IH] using lt_wf_ind. intros ctx c ->.
  destruct ctx as [|f ctx]; [done|].
  cbn [unwind plug]. destruct (rotates (fill f c)).
  - destruct ctx as [|f' ctx].
    + by rewrite inorder_rebalanced.
    + rewrite (IH (length ctx)) by (simpl; lia || done).
      cbn [plug]. rewrite !inorder_plug_list. f_equal.
      unfold fill. destruct (f_dir f' =? RIGHT); simpl;
        by rewrite inorder_rebalanced.
  - rewrite (IH (length ctx)) by (simpl; lia || done).
    rewrite !inorder_plug_list. by rewrite inorder_rebalanced.
Qed.

Lemma ins_list_app_lt v new l a d r :
  v < d → ins_list v new (l ++ (a, d) :: r) = ins_list v new l ++ (a, d) :: r.
Proof.
  intros Hvd. induction l as [|[b e] l IH]; simpl.
  - by destruct (Z.ltb_spec v d); [|lia].
  - destruct (v <? e); [done|]. by rewrite IH.
Qed.

Lemma ins_list_app_ge v new l r :
  Forall (λ x, x.2 ≤ v) l → ins_list v new (l ++ r) = l ++ ins_list v new r.
Proof.
  induction 1 as [|[b e] l He Hl IH]; simpl; [done|].
  simpl in He. destruct (Z.ltb_spec v e); [lia|]. by rewrite IH.
Qed.

Lemma ins_list_perm v new l : ins_list v new l ≡ₚ (new, v) :: l.
Proof.
  induction l as [|[b e] l IH]; simpl; [done|].
  destruct (v <? e); [done|]. rewrite IH. apply perm_swap.
Qed.

Lemma ins_list_sorted v new l :
  StronglySorted by_value l → StronglySorted by_value (ins_list v new l).
Proof.
  induction 1 as [|[b e] l Hl IH He]; simpl.
  - by repeat constructor.
  - destruct (Z.ltb_spec v e).
    + constructor; [by constructor|].
      constructor; [unfold by_value; simpl; lia|].
      eapply Forall_impl; [done|]. unfold by_value. simpl. intros; lia.
    + constructor; [done|]. rewrite ins_list_perm.
      constructor; [unfold by_value; simpl; lia|done].
Qed.

Lemma descend_inorder v new t : ∀ ctx,
  StronglySorted by_value (inorder t) → t ≠ Leaf →
  inorder (plug (descend v new t ctx).1 (descend v new t ctx).2)
  = plug_list ctx (ins_list v new (inorder t)).
Proof.
  induction t as [|l IHl a d h r IHr]; intros ctx Hs Hne; [done|].
  clear Hne. cbn [inorder] in Hs.
  apply StronglySorted_app in Hs as (Hlr & Hsl & Hsr).
  apply StronglySorted_cons in Hsr as (Hdr & Hsr).
  cbn [descend]. destruct (Z.ltb_spec v d) as [Hvd|Hvd].
  - cbn [inorder]. rewrite ins_list_app_lt by done.
    destruct l as [|ll la ld lh lr].
    + cbn [fst snd]. by rewrite inorder_plug_list.
    + rewrite IHl by done. cbn [plug_list f_dir f_sib f_addr f_data].
      by change (LEFT =? RIGHT) with false.
  - cbn [inorder].
    rewrite ins_list_app_ge; last first.
    { apply Forall_forall. intros x Hx.
      specialize (Hlr x (a, d) Hx). unfold by_value in Hlr. simpl in Hlr.
      etrans; [apply Hlr; by left|done]. }
    cbn [ins_list]. destruct (Z.ltb_spec v d); [lia|].
    destruct r as [|rl ra rd rh rr].
    + cbn [fst snd]. rewrite inorder_plug_list. done.
    + rewrite IHr by done. cbn [plug_list f_dir f_sib f_addr f_data].
      by change (RIGHT =? RIGHT) with true.
Qed.

Lemma insert_inorder v new t :
  StronglySorted by_value (inorder t) → t ≠ Leaf →
  inorder (insert v new t) = ins_list v new (inorder t).
Proof.
  intros Hs Hne. unfold insert.
  pose proof (descend_inorder v new t [] Hs Hne) as H.
  destruct (descend v new t []) as [ctx c]. by rewrite inorder_unwind.
Qed.

Lemma insert_not_leaf v new t : t ≠ Leaf → insert v new t ≠ Leaf.
Proof.
  intros Hne.
  assert (∀ ctx c, c ≠ Leaf → unwind v ctx c ≠ Leaf) as Hu.
  { intros ctx. remember (length ctx) as n eqn:Hn. revert ctx Hn.
    induction n as [n IH] using lt_wf_ind. intros ctx -> c Hc.
    assert (∀ f c', rebalanced v (fill f c') ≠ Leaf) as Hreb.
    { intros f c'. intros H.
      assert (inorder (rebalanced v (fill f c')) = []) as H' by by rewrite H.
      rewrite inorder_rebalanced in H'. unfold fill in H'.
      destruct (f_dir f =? RIGHT); simpl in H'; by destruct (inorder _). }
    destruct ctx as [|f ctx]; [done|]. cbn [unwind].
    destruct (rotates (fill f c)).
    - destruct ctx as [|f' ctx]; [apply Hreb|].
      eapply IH; [|done|apply fill_not_leaf]. simpl; lia.
    - eapply IH; [|done|apply Hreb]. simpl; lia. }
  assert (∀ ctx, (descend v new t ctx).2 ≠ Leaf) as Hd.
  { induction t as [|l IHl a d h r IHr]; intros ctx; [done|].
    cbn [descend]. destruct (v <? d).
    - destruct l; [done|]. by apply IHl.
    - destruct r; [done|]. by apply IHr. }
  unfold insert. specialize (Hd []).
  destruct (descend v new t []) as [ctx c]. by apply Hu.
Qed.


(** ** Stepping through computations *)

Lemma bind_ok {A B} (c : M A) (k : A → M B) s a s1 r :
  c s = Ok a s1 → k a s1 = r → bind c k s = r.
Proof. unfold bind. by intros -> ->. Qed.

Lemma bind_eq {A B} (c : M A) (k : A → M B) s a s1 :
  c s = Ok a s1 → bind c k s = k a s1.
Proof. unfold bind. by intros ->. Qed.

Lemma with_nodes_id s : with_nodes (nodes s) s = s.
Proof. by destruct s. Qed.

Lemma load_ok s a n : nodes s !! a = Some n → load (Some a) s = Ok n s.
Proof. unfold load. by intros ->. Qed.

Lemma store_ok s a n f :
  nodes s !! a = Some n →
  store (Some a) f s = Ok tt (with_nodes (<[a := f n]> (nodes s)) s).
Proof. unfold store. by intros ->. Qed.

Lemma addrs_node l a d h r : addrs (Node l a d h r) = addrs l ++ a :: addrs r.
Proof. unfold addrs. simpl. by rewrite fmap_app. Qed.

Lemma repr_ext m m' t :
  (∀ x, x ∈ addrs t → m' !! x = m !! x) → repr m t → repr m' t.
Proof.
  induction t as [|l IHl a d h r IHr]; [done|].
  rewrite addrs_node. intros Hx (Ha & Hl & Hr). cbn [repr].
  split; [|split].
  - rewrite Hx; [done|]. apply elem_of_app. right. by left.
  - apply IHl; [|done]. intros x Hin. apply Hx, elem_of_app. by left.
  - apply IHr; [|done]. intros x Hin. apply Hx, elem_of_app. right. by right.
Qed.

Lemma repr_insert m t a n : a ∉ addrs t → repr m t → repr (<[a := n]> m) t.
Proof.
  intros Ha. apply repr_ext. intros x Hx.
  rewrite lookup_insert_ne; [done|]. by intros ->.
Qed.

Lemma side_ok s t : repr (nodes s) t → side (root_ptr t) s = Ok (side_of t) s.
Proof.
  destruct t as [|l a d h r]; [done|]. intros (Ha & _).
  unfold side. cbn [root_ptr]. eapply bind_ok; [by apply load_ok|]. done.
Qed.

Lemma height_ok s l a d h r :
  repr (nodes s) (Node l a d h r) →
  height (Some a) s = Ok (pick (side_of l) (side_of r)) s.
Proof.
  intros (Ha & Hl & Hr). unfold height.
  eapply bind_ok; [by apply load_ok|]. cbn [Avl.left Avl.right].
  eapply bind_ok; [by apply side_ok|].
  eapply bind_ok; [by apply side_ok|]. done.
Qed.

Lemma BalanceFactor_ok s l a d h r :
  repr (nodes s) (Node l a d h r) →
  BalanceFactor (Some a) s = Ok (bf_of (Node l a d h r)) s.
Proof.
  intros (Ha & Hl & Hr). unfold BalanceFactor.
  eapply bind_ok; [by apply load_ok|]. cbn [Avl.left Avl.right].
  eapply bind_ok; [by apply side_ok|].
  eapply bind_ok; [by apply side_ok|]. done.
Qed.

Lemma height_node_ok s a n l r :
  nodes s !! a = Some n → Avl.left n = root_ptr l → Avl.right n = root_ptr r →
  repr (nodes s) l → repr (nodes s) r →
  height (Some a) s = Ok (pick (side_of l) (side_of r)) s.
Proof.
  intros Ha El Er Hl Hr. unfold height.
  eapply bind_ok; [by apply load_ok|]. rewrite El, Er.
  eapply bind_ok; [by apply side_ok|].
  eapply bind_ok; [by apply side_ok|]. done.
Qed.

(** Looking a node up after a few writes. *)
Ltac lk :=
  cbn [nodes handles arrays next logs oracle
       set_nodes set_handles set_next set_oracle set_logs with_nodes served];
  repeat (rewrite lookup_insert_eq || rewrite lookup_insert_ne by done);
  first [eassumption | reflexivity].

Ltac fields :=
  cbn [Avl.left Avl.right Avl.data Avl.height
       Avl.with_data Avl.with_height Avl.with_left Avl.with_right].

Ltac step_load := eapply bind_ok; [apply load_ok; lk|]; fields.
Ltac step_store := eapply bind_ok; [apply store_ok; lk|]; fields.

Lemma NoDup_mid {A} (l r : list A) a :
  NoDup (l ++ a :: r) ↔
  NoDup l ∧ NoDup r ∧ (a ∉ l) ∧ (a ∉ r) ∧ (∀ x, x ∈ l → x ∉ r).
Proof.
  rewrite NoDup_app, NoDup_cons. split.
  - intros (Hl & Hd & Ha & Hr). repeat split; try done.
    + intros Hin. apply (Hd _ Hin). by left.
    + intros x Hx Hxr. apply (Hd _ Hx). by right.
  - intros (Hl & Hr & Hal & Har & Hd). repeat split; try done.
    intros x Hx [->|Hxr]%elem_of_cons; [done|]. by apply (Hd x).
Qed.

Lemma RotateLeft_ok s l a d h rl b e k rr :
  repr (nodes s) (Node l a d h (Node rl b e k rr)) →
  NoDup (addrs (Node l a d h (Node rl b e k rr))) →
  ∃ m', RotateLeft (Some a) s = Ok (Some b) (with_nodes m' s)
    ∧ repr m' (rot_left (Node l a d h (Node rl b e k rr)))
    ∧ (∀ x, x ∉ addrs (Node l a d h (Node rl b e k rr)) → m' !! x = nodes s !! x).
Proof.
  intros (Ha & Hl & (Hb & Hrl & Hrr)) Hnd.
  rewrite !addrs_node in *.
  assert (a ≠ b ∧ (a ∉ addrs l) ∧ (a ∉ addrs rl) ∧ (a ∉ addrs rr)
          ∧ (b ∉ addrs l) ∧ (b ∉ addrs rl) ∧ (b ∉ addrs rr)) as (Hab & ? & ? & ? & ? & ? & ?).
  { clear -Hnd. apply NoDup_mid in Hnd as (_ & Hnd & Hal & Ha & Hd).
    apply NoDup_mid in Hnd as (_ & _ & Hbl & Hbr & _).
    rewrite not_elem_of_app, not_elem_of_cons in Ha. destruct Ha as (? & ? & ?).
    repeat split; try done.
    intros Hin. apply (Hd _ Hin), elem_of_app. right. by left. }
  assert (b ≠ a) by done. cbn [root_ptr] in *.
  eexists. split; [|split].
  - unfold RotateLeft.
    step_load. step_load. step_store. step_store.
    eapply bind_ok.
    { eapply (height_node_ok _ a _ l rl); [lk|done|done|..];
        cbn [nodes set_nodes with_nodes]; by repeat apply repr_insert. }
    step_store.
    eapply bind_ok.
    { eapply (height_node_ok _ b _ (join l a d rl) rr); [lk|done|done|..];
        cbn [nodes set_nodes with_nodes].
      - cbn [join repr]. split; [lk|]. split; by repeat apply repr_insert.
      - by repeat apply repr_insert. }
    step_store. reflexivity.
  - cbn [rot_left join repr]. split; [lk|]. split; [split; [lk|split]|];
      by repeat apply repr_insert.
  - intros x Hx. assert (x ≠ a ∧ x ≠ b) as [? ?] by set_solver.
    cbn [nodes set_nodes with_nodes]. by rewrite !lookup_insert_ne by done.
Qed.

Lemma RotateRight_ok s ll b e k lr a d h r :
  repr (nodes s) (Node (Node ll b e k lr) a d h r) →
  NoDup (addrs (Node (Node ll b e k lr) a d h r)) →
  ∃ m', RotateRight (Some a) s = Ok (Some b) (with_nodes m' s)
    ∧ repr m' (rot_right (Node (Node ll b e k lr) a d h r))
    ∧ (∀ x, x ∉ addrs (Node (Node ll b e k lr) a d h r) → m' !! x = nodes s !! x).
Proof.
  intros (Ha & (Hb & Hll & Hlr) & Hr) Hnd.
  rewrite !addrs_node in *.
  assert (a ≠ b ∧ (a ∉ addrs ll) ∧ (a ∉ addrs lr) ∧ (a ∉ addrs r)
          ∧ (b ∉ addrs ll) ∧ (b ∉ addrs lr) ∧ (b ∉ addrs r)) as (Hab & ? & ? & ? & ? & ? & ?).
  { clear -Hnd. apply NoDup_mid in Hnd as (Hnd & _ & Ha & Har & Hd).
    apply NoDup_mid in Hnd as (_ & _ & Hb & Hbr & _).
    rewrite not_elem_of_app, not_elem_of_cons in Ha. destruct Ha as (? & ? & ?).
    repeat split; try done.
    apply Hd, elem_of_app. right. by left. }
  assert (b ≠ a) by done. cbn [root_ptr] in *.
  eexists. split; [|split].
  - unfold RotateRight.
    step_load. step_load. step_store. step_store.
    eapply bind_ok.
    { eapply (height_node_ok _ a _ lr r); [lk|done|done|..];
        cbn [nodes set_nodes with_nodes]; by repeat apply repr_insert. }
    step_store.
    eapply bind_ok.
    { eapply (height_node_ok _ b _ ll (join lr a d r)); [lk|done|done|..];
        cbn [nodes set_nodes with_nodes].
      - by repeat apply repr_insert.
      - cbn [join repr]. split; [lk|]. split; by repeat apply repr_insert. }
    step_store. reflexivity.
  - cbn [rot_right join repr]. split; [lk|]. split; [|split; [lk|split]];
      by repeat apply repr_insert.
  - intros x Hx. assert (x ≠ a ∧ x ≠ b) as [? ?] by set_solver.
    cbn [nodes set_nodes with_nodes]. by rewrite !lookup_insert_ne by done.
Qed.

Lemma addrs_rot_left t : addrs (rot_left t) = addrs t.
Proof. unfold addrs. by rewrite inorder_rot_left. Qed.

Lemma addrs_rot_right t : addrs (rot_right t) = addrs t.
Proof. unfold addrs. by rewrite inorder_rot_right. Qed.

Lemma LeftRight_ok s ll b e k lrl g x m lrr a d h r :
  let t := Node (Node ll b e k (Node lrl g x m lrr)) a d h r in
  repr (nodes s) t → NoDup (addrs t) →
  ∃ m', LeftRight (Some a) s = Ok (root_ptr (left_right t)) (with_nodes m' s)
    ∧ repr m' (left_right t)
    ∧ (∀ y, y ∉ addrs t → m' !! y = nodes s !! y).
Proof.
  intros t (Ha & Hl & Hr) Hnd. subst t.
  pose proof Hnd as Hnd'. rewrite addrs_node in Hnd'.
  apply NoDup_app in Hnd' as (HndL & Hdisj & Hnd').
  apply NoDup_cons in Hnd' as (Har & Hndr).
  assert (a ∉ addrs (Node ll b e k (Node lrl g x m lrr))) as HaL.
  { intros Hin. apply (Hdisj _ Hin). by left. }
  destruct (RotateLeft_ok s ll b e k lrl g x m lrr Hl HndL) as (m1 & E1 & R1 & F1).
  set (m2 := <[a := Avl.mk d h (Some g) (root_ptr r)]> m1).
  assert (repr m2 (Node (rot_left (Node ll b e k (Node lrl g x m lrr))) a d h r)) as R2.
  { cbn [repr]. split; [by subst m2; rewrite lookup_insert_eq|]. split.
    - apply repr_insert; [by rewrite addrs_rot_left|done].
    - apply repr_insert; [done|]. eapply repr_ext; [|exact Hr].
      intros y Hy. apply F1. intros Hin. apply (Hdisj _ Hin). by right. }
  assert (NoDup (addrs (Node (rot_left (Node ll b e k (Node lrl g x m lrr))) a d h r))) as N2.
  { by rewrite addrs_node, addrs_rot_left, <- (addrs_node _ a d h). }
  assert (addrs (Node (rot_left (Node ll b e k (Node lrl g x m lrr))) a d h r)
          = addrs (Node (Node ll b e k (Node lrl g x m lrr)) a d h r)) as EA.
  { by rewrite (addrs_node (rot_left _)), addrs_rot_left, <- (addrs_node _ a d h). }
  cbn [rot_left] in R2, N2, EA. unfold join in R2 at 1, N2 at 1, EA at 1.
  destruct (RotateRight_ok (with_nodes m2 s) (join ll b e lrl) g x
              (pick (side_of (join ll b e lrl)) (side_of lrr)) lrr a d h r R2 N2)
    as (m3 & E3 & R3 & F3).
  exists m3. split; [|split].
  - unfold LeftRight. step_load. cbn [root_ptr].
    eapply bind_ok; [exact E1|].
    eapply bind_ok.
    { apply store_ok. cbn [nodes set_nodes with_nodes]. rewrite F1 by done. exact Ha. }
    exact E3.
  - exact R3.
  - intros y Hy. rewrite F3.
    + cbn [nodes set_nodes with_nodes]. subst m2.
      rewrite lookup_insert_ne; [apply F1|].
      * intros Hin. apply Hy. rewrite addrs_node. apply elem_of_app. by left.
      * intros ->. apply Hy. rewrite addrs_node. apply elem_of_app. right. by left.
    + by rewrite EA.
Qed.

Lemma RightLeft_ok s l a d h rll g x m rlr b e k rr :
  let t := Node l a d h (Node (Node rll g x m rlr) b e k rr) in
  repr (nodes s) t → NoDup (addrs t) →
  ∃ m', RightLeft (Some a) s = Ok (root_ptr (right_left t)) (with_nodes m' s)
    ∧ repr m' (right_left t)
    ∧ (∀ y, y ∉ addrs t → m' !! y = nodes s !! y).
Proof.
  intros t (Ha & Hl & Hr) Hnd. subst t.
  pose proof Hnd as Hnd'. rewrite addrs_node in Hnd'.
  apply NoDup_app in Hnd' as (Hndl & Hdisj & Hnd').
  apply NoDup_cons in Hnd' as (HaR & HndR).
  assert (a ∉ addrs l) as Hal.
  { intros Hin. apply (Hdisj _ Hin). by left. }
  destruct (RotateRight_ok s rll g x m rlr b e k rr Hr HndR) as (m1 & E1 & R1 & F1).
  set (m2 := <[a := Avl.mk d h (root_ptr l) (Some g)]> m1).
  assert (repr m2 (Node l a d h (rot_right (Node (Node rll g x m rlr) b e k rr)))) as R2.
  { cbn [repr]. split; [by subst m2; rewrite lookup_insert_eq|]. split.
    - apply repr_insert; [done|]. eapply repr_ext; [|exact Hl].
      intros y Hy. apply F1. intros Hin. apply (Hdisj _ Hy). by right.
    - apply repr_insert; [by rewrite addrs_rot_right|done]. }
  assert (NoDup (addrs (Node l a d h (rot_right (Node (Node rll g x m rlr) b e k rr))))) as N2.
  { by rewrite addrs_node, addrs_rot_right, <- (addrs_node _ a d h). }
  assert (addrs (Node l a d h (rot_right (Node (Node rll g x m rlr) b e k rr)))
          = addrs (Node l a d h (Node (Node rll g x m rlr) b e k rr))) as EA.
  { by rewrite (addrs_node _ _ _ _ (rot_right _)), addrs_rot_right, <- (addrs_node _ a d h). }
  cbn [rot_right] in R2, N2, EA. unfold join in R2 at 1, N2 at 1, EA at 1.
  destruct (RotateLeft_ok (with_nodes m2 s) l a d h rll g x
              (pick (side_of rll) (side_of (join rlr b e rr))) (join rlr b e rr) R2 N2)
    as (m3 & E3 & R3 & F3).
  exists m3. split; [|split].
  - unfold RightLeft. step_load. cbn [root_ptr].
    eapply bind_ok; [exact E1|].
    eapply bind_ok.
    { apply store_ok. cbn [nodes set_nodes with_nodes]. rewrite F1 by done. exact Ha. }
    exact E3.
  - exact R3.
  - intros y Hy. rewrite F3.
    + cbn [nodes set_nodes with_nodes]. subst m2.
      rewrite lookup_insert_ne; [apply F1|].
      * intros Hin. apply Hy. rewrite addrs_node. apply elem_of_app. right. by right.
      * intros ->. apply Hy. rewrite addrs_node. apply elem_of_app. right. by left.
    + by rewrite EA.
Qed.

(** ** The path in the store *)

Lemma root_ptr_fill f c : root_ptr (fill f c) = Some (f_addr f).
Proof. unfold fill. by destruct (f_dir f =? RIGHT). Qed.

Lemma root_ptr_plug ctx c c' :
  root_ptr c = root_ptr c' → root_ptr (plug ctx c) = root_ptr (plug ctx c').
Proof.
  revert c c'. induction ctx as [|f ctx IH]; intros c c' H; [done|].
  apply IH. by rewrite !root_ptr_fill.
Qed.

Lemma repr_fill m f c :
  repr m (fill f c) ↔
  m !! f_addr f =
    Some (if f_dir f =? RIGHT
          then Avl.mk (f_data f) (f_height f) (root_ptr (f_sib f)) (root_ptr c)
          else Avl.mk (f_data f) (f_height f) (root_ptr c) (root_ptr (f_sib f)))
  ∧ repr m (f_sib f) ∧ repr m c.
Proof. unfold fill. destruct (f_dir f =? RIGHT); simpl; tauto. Qed.

Lemma repr_plug m ctx c : repr m (plug ctx c) ↔ repr m c ∧ repr_ctx m ctx (root_ptr c).
Proof.
  revert c. induction ctx as [|f ctx IH]; intros c; simpl; [tauto|].
  rewrite IH, repr_fill, root_ptr_fill. tauto.
Qed.

Lemma ctx_addrs_cons f ctx :
  ctx_addrs (f :: ctx) = f_addr f :: addrs (f_sib f) ++ ctx_addrs ctx.
Proof. unfold ctx_addrs, addrs. simpl. by rewrite fmap_app. Qed.

Lemma repr_ctx_ext m m' ctx p :
  (∀ x, x ∈ ctx_addrs ctx → m' !! x = m !! x) → repr_ctx m ctx p → repr_ctx m' ctx p.
Proof.
  revert p. induction ctx as [|f ctx IH]; intros p Hx; [done|].
  rewrite ctx_addrs_cons in Hx. intros (Ha & Hs & Hc). cbn [repr_ctx].
  split; [|split].
  - rewrite Hx; [done|]. by left.
  - eapply repr_ext; [|done]. intros x Hin. apply Hx. right.
    apply elem_of_app. by left.
  - apply IH; [|done]. intros x Hin. apply Hx. right.
    apply elem_of_app. by right.
Qed.

Lemma addrs_fill f c : addrs (fill f c) ≡ₚ addrs c ++ f_addr f :: addrs (f_sib f).
Proof. unfold addrs. rewrite inorder_fill, fmap_app. done. Qed.

Lemma addrs_plug ctx c : addrs (plug ctx c) ≡ₚ addrs c ++ ctx_addrs ctx.
Proof. unfold addrs, ctx_addrs. by rewrite inorder_plug, fmap_app. Qed.

Lemma addrs_rebalanced v t : addrs (rebalanced v t) = addrs t.
Proof. unfold addrs. by rewrite inorder_rebalanced. Qed.

Lemma set_nodes_id s m : nodes s = m → with_nodes m s = s.
Proof. intros <-. by destruct s. Qed.

(** The closing [tmp->height = height(tmp)] finds the height already in
    place when [tmp] was refreshed by the rotation. *)
Lemma refresh_id {B} s l a d r (k : unit → M B) :
  repr (nodes s) (join l a d r) →
  (h ← height (Some a); store (Some a) (Avl.with_height h);; k tt) s = k tt s.
Proof.
  intros H. pose proof H as (Ha & Hl & Hr).
  eapply bind_ok; [by eapply height_ok|].
  eapply bind_ok; [by apply store_ok|].
  cbn [Avl.with_height Avl.data Avl.left Avl.right].
  rewrite set_nodes_id; [done|]. symmetry. by apply insert_id.
Qed.

Lemma reattach_ok s s1 hd ctx t t' :
  repr (nodes s) (plug ctx t) → NoDup (addrs (plug ctx t)) →
  handles s !! hd = Some (root_ptr (plug ctx t)) →
  t ≠ Leaf → t' ≠ Leaf →
  addrs t' = addrs t →
  repr (nodes s1) t' →
  (∀ x, x ∉ addrs t → nodes s1 !! x = nodes s !! x) →
  handles s1 = handles s → same_rest s s1 →
  ∃ s2, reattach (pop (stack_of ctx)).1 (Some hd) (root_ptr t') s1 = Ok tt s2
    ∧ repr (nodes s2) (plug (reattached ctx t').1 (reattached ctx t').2)
    ∧ handles s2 !! hd = Some (root_ptr (plug (reattached ctx t').1 (reattached ctx t').2))
    ∧ repr (nodes s2) t'
    ∧ same_rest s s2
    ∧ untouched (addrs (plug ctx t)) hd s s2.
Proof.
  intros Hrepr Hnd Hhd Hne Hne' Haddr Hr1 Hframe Hh1 Hrest.
  apply repr_plug in Hrepr as (Hrt & Hctx).
  assert (∀ x, x ∉ addrs (plug ctx t) → (x ∉ addrs t) ∧ (x ∉ ctx_addrs ctx)) as Hout.
  { intros x. rewrite addrs_plug, not_elem_of_app. tauto. }
  rewrite addrs_plug in Hnd. apply NoDup_app in Hnd as (Hndt & Hdisj & Hndc).
  destruct ctx as [|f ctx].
  - cbn [stack_of map pop fst reattach reattached snd plug] in *.
    unfold store_handle. rewrite Hh1, Hhd. eexists. split; [done|].
    cbn [nodes handles set_handles]. split; [done|]. split; [|split; [done|split]].
    + by rewrite lookup_insert_eq.
    + destruct Hrest as (? & ? & ? & ?). by repeat split.
    + split; cbn [nodes handles set_handles].
      * intros x Hx. by apply Hframe.
      * intros x Hx. by rewrite lookup_insert_ne, Hh1.
  - cbn [stack_of map pop fst reattach reattached snd plug node direction] in *.
    destruct Hctx as (Hf & Hsib & Hctx).
    rewrite ctx_addrs_cons in Hdisj, Hndc.
    apply NoDup_cons in Hndc as (Hf1 & Hndc).
    apply NoDup_app in Hndc as (Hnds & Hdisj2 & Hndc).
    rewrite not_elem_of_app in Hf1. destruct Hf1 as (Hfs & Hfc).
    assert (f_addr f ∉ addrs t) as Hft.
    { intros Hin. apply (Hdisj _ Hin). by left. }
    assert (nodes s1 !! f_addr f = nodes s !! f_addr f) as E by by apply Hframe.
    assert (∀ m n, m = <[f_addr f := n]> (nodes s1) →
              n = (if f_dir f =? RIGHT
                   then Avl.mk (f_data f) (f_height f) (root_ptr (f_sib f)) (root_ptr t')
                   else Avl.mk (f_data f) (f_height f) (root_ptr t') (root_ptr (f_sib f))) →
              repr m (plug ctx (fill f t')) ∧ repr m t') as Hpost.
    { intros m n -> ->. split.
      - apply repr_plug. split.
        + apply repr_fill. split; [by rewrite lookup_insert_eq|]. split.
          * apply repr_insert; [done|]. eapply repr_ext; [|exact Hsib].
            intros x Hx. apply Hframe. intros Hin. apply (Hdisj _ Hin).
            right. apply elem_of_app. by left.
          * apply repr_insert; [by rewrite Haddr|done].
        + rewrite root_ptr_fill. eapply repr_ctx_ext; [|exact Hctx].
          intros x Hx. rewrite lookup_insert_ne.
          * apply Hframe. intros Hin. apply (Hdisj _ Hin).
            right. apply elem_of_app. by right.
          * by intros <-.
      - apply repr_insert; [by rewrite Haddr|done]. }
    assert (root_ptr (plug ctx (fill f t')) = root_ptr (plug ctx (fill f t))) as Hroot.
    { apply root_ptr_plug. by rewrite !root_ptr_fill. }
    rewrite Hroot.
    assert (∀ n, untouched (addrs (plug (f :: ctx) t)) hd s
                   (with_nodes (<[f_addr f := n]> (nodes s1)) s1)) as Hun.
    { intros n. split; cbn [nodes handles with_nodes set_nodes].
      - intros x Hx. apply Hout in Hx as [Hx1 Hx2].
        rewrite ctx_addrs_cons in Hx2. apply not_elem_of_cons in Hx2 as [Hx2 _].
        rewrite lookup_insert_ne by done. by apply Hframe.
      - intros x _. by rewrite Hh1. }
    destruct (f_dir f =? RIGHT) eqn:Hdir.
    + eexists. split; [apply store_ok; rewrite E; exact Hf|].
      cbn [nodes handles with_nodes set_nodes Avl.with_right Avl.data Avl.height Avl.left].
      destruct (Hpost _ _ eq_refl eq_refl) as [H1 H2].
      split; [done|]. split; [by rewrite Hh1|]. split; [done|].
      split; [|apply Hun].
      destruct Hrest as (? & ? & ? & ?). by repeat split.
    + eexists. split; [apply store_ok; rewrite E; exact Hf|].
      cbn [nodes handles with_nodes set_nodes Avl.with_left Avl.data Avl.height Avl.right].
      destruct (Hpost _ _ eq_refl eq_refl) as [H1 H2].
      split; [done|]. split; [by rewrite Hh1|]. split; [done|].
      split; [|apply Hun].
      destruct Hrest as (? & ? & ? & ?). by repeat split.
Qed.

Lemma pop_reattached ctx t :
  (pop (stack_of ctx)).2 = stack_of (reattached ctx t).1.
Proof. by destruct ctx. Qed.

Lemma same_rest_refl s : same_rest s s.
Proof. by repeat split. Qed.

Lemma same_rest_trans s1 s2 s3 : same_rest s1 s2 → same_rest s2 s3 → same_rest s1 s3.
Proof.
  intros (? & ? & ? & ?) (? & ? & ? & ?). repeat split; congruence.
Qed.

Lemma untouched_refl A hd s : untouched A hd s s.
Proof. by split. Qed.

Lemma untouched_trans A B C hd s1 s2 s3 :
  (∀ x, x ∈ A → x ∈ C) → (∀ x, x ∈ B → x ∈ C) →
  untouched A hd s1 s2 → untouched B hd s2 s3 → untouched C hd s1 s3.
Proof.
  intros HA HB [N1 H1] [N2 H2]. split.
  - intros x Hx. rewrite N2, N1; [done|..]; intros Hin; apply Hx; auto.
  - intros h Hh. by rewrite H2, H1.
Qed.

Lemma yields_bind {A B} (c : M A) (k : A → M B) s a s1 x Q :
  c s = Ok a s1 → yields (k a) s1 x Q → yields (bind c k) s x Q.
Proof. intros Hc (s' & Hk & HQ). exists s'. split; [|done]. by eapply bind_ok. Qed.

Lemma yields_ret {A} (x : A) s (Q : mem → Prop) : Q s → yields (ret x) s x Q.
Proof. intros HQ. by exists s. Qed.

Lemma yields_intro {A} (c : M A) s x (Q : mem → Prop) :
  yields c s x Q → ∃ s', c s = Ok x s' ∧ Q s'.
Proof. done. Qed.

Ltac ystep_load := eapply yields_bind; [apply load_ok; lk|]; fields.
Ltac ystep_store := eapply yields_bind; [apply store_ok; lk|]; fields.

(** After the rotation: the reattachment and the closing refresh. *)
Lemma rotated_ok s hd ctx t t' m1 (rot : M ptr) l' a d r' (st : list nodedata) :
  repr (nodes s) (plug ctx t) → NoDup (addrs (plug ctx t)) →
  handles s !! hd = Some (root_ptr (plug ctx t)) →
  t ≠ Leaf → t' ≠ Leaf → addrs t' = addrs t →
  rot s = Ok (root_ptr t') (with_nodes m1 s) →
  repr m1 t' →
  (∀ x, x ∉ addrs t → m1 !! x = nodes s !! x) →
  (∀ m, repr m t' → repr m (join l' a d r')) →
  ∃ s', ((new ← rot; reattach (pop (stack_of ctx)).1 (Some hd) new);;
         h ← height (Some a); store (Some a) (Avl.with_height h);; ret st) s
        = Ok st s'
    ∧ repr (nodes s') (plug (reattached ctx t').1 (reattached ctx t').2)
    ∧ handles s' !! hd = Some (root_ptr (plug (reattached ctx t').1 (reattached ctx t').2))
    ∧ same_rest s s'
    ∧ untouched (addrs (plug ctx t)) hd s s'.
Proof.
  intros Hrepr Hnd Hhd Hne Hne' Haddr Erot R1 F1 Hsub.
  destruct (reattach_ok s (with_nodes m1 s) hd ctx t t') as (s2 & E2 & R2 & H2 & R2' & S2);
    try done.
  exists s2. split; [|done].
  eapply bind_ok; [eapply bind_ok; [exact Erot|exact E2]|].
  cbv beta. by rewrite (refresh_id s2 l' a d r' (λ _, ret st)) by by apply Hsub.
Qed.

Lemma rebalance_node_ok s hd v ctx l a d h r :
  let t := Node l a d h r in
  repr (nodes s) (plug ctx t) → NoDup (addrs (plug ctx t)) →
  handles s !! hd = Some (root_ptr (plug ctx t)) →
  safe v t →
  ∃ s', rebalance (stack_of ctx) (Some hd) (Some a) v s
        = Ok (stack_of (unwind_step v ctx t).1) s'
    ∧ repr (nodes s') (plug (unwind_step v ctx t).1 (unwind_step v ctx t).2)
    ∧ handles s' !! hd
      = Some (root_ptr (plug (unwind_step v ctx t).1 (unwind_step v ctx t).2))
    ∧ same_rest s s'
    ∧ untouched (addrs (plug ctx t)) hd s s'.
Proof.
  intros t Hrepr Hnd Hhd [Hsafe1 Hsafe2].
  pose proof Hrepr as Hrepr'. apply repr_plug in Hrepr' as (Ht & Hctx).
  pose proof Hnd as Hnd'. rewrite addrs_plug in Hnd'.
  apply NoDup_app in Hnd' as (Hndt & Hdisj & Hndc).
  pose proof Ht as (Ha & Hl & Hr).
  apply yields_intro. unfold rebalance, unwind_step, rotates.
  eapply yields_bind; [by apply BalanceFactor_ok|]. fold t.
  destruct (Z.eqb_spec (bf_of t) (-2)) as [Hbf|Hbf].
  - (* right subtree longer *)
    cbn [orb]. specialize (Hsafe1 Hbf). clear Hsafe2.
    destruct r as [|rl b e k rr]; [done|].
    destruct (pop (stack_of ctx)) as [p st] eqn:Epop.
    replace p with (pop (stack_of ctx)).1 by by rewrite Epop.
    replace st with (pop (stack_of ctx)).2 by by rewrite Epop.
    ystep_load. cbn [root_ptr]. destruct Hr as (Hb & Hrl & Hrr). ystep_load.
    assert (rebalanced v t = if v >=? e then rot_left t else right_left t) as ->.
    { unfold rebalanced, t. cbv iota. fold t.
      by destruct (Z.eqb_spec (bf_of t) (-2)). }
    destruct (Z.geb_spec v e) as [Hve|Hve].
    + (* right-right *)
      destruct (RotateLeft_ok s l a d h rl b e k rr Ht Hndt) as (m1 & E1 & R1 & F1).
      rewrite (pop_reattached ctx (rot_left t)).
      eapply (rotated_ok s hd ctx t (rot_left t) m1 _ l a d rl); try done.
      * apply addrs_rot_left.
      * intros m (_ & H & _). exact H.
    + (* right-left *)
      destruct rl as [|rll g x m rlr]; [by specialize (Hsafe1 Hve)|].
      destruct (RightLeft_ok s l a d h rll g x m rlr b e k rr Ht Hndt)
        as (m1 & E1 & R1 & F1).
      rewrite (pop_reattached ctx (right_left t)).
      eapply (rotated_ok s hd ctx t (right_left t) m1 _ l a d rll); try done.
      * unfold addrs. by rewrite inorder_right_left.
      * intros m' (_ & H & _). exact H.
  - destruct (Z.eqb_spec (bf_of t) 2) as [Hbf2|Hbf2].
    + (* left subtree longer *)
      cbn [orb]. specialize (Hsafe2 Hbf2). clear Hsafe1.
      eapply yields_bind; [by apply BalanceFactor_ok|]. fold t.
      destruct (Z.eqb_spec (bf_of t) 2) as [_|?]; [|done].
      destruct l as [|ll b e k lr]; [done|].
      destruct (pop (stack_of ctx)) as [p st] eqn:Epop.
      replace p with (pop (stack_of ctx)).1 by by rewrite Epop.
      replace st with (pop (stack_of ctx)).2 by by rewrite Epop.
      ystep_load. cbn [root_ptr]. destruct Hl as (Hb & Hll & Hlr). ystep_load.
      assert (rebalanced v t = if v <? e then rot_right t else left_right t) as ->.
      { unfold rebalanced, t. cbv iota. fold t.
        destruct (Z.eqb_spec (bf_of t) (-2)); [done|].
        by destruct (Z.eqb_spec (bf_of t) 2). }
      destruct (Z.ltb_spec v e) as [Hve|Hve].
      * (* left-left *)
        destruct (RotateRight_ok s ll b e k lr a d h r Ht Hndt) as (m1 & E1 & R1 & F1).
        rewrite (pop_reattached ctx (rot_right t)).
        eapply (rotated_ok s hd ctx t (rot_right t) m1 _ lr a d r); try done.
        -- apply addrs_rot_right.
        -- intros m (_ & _ & H). exact H.
      * (* left-right *)
        destruct lr as [|lrl g x m lrr]; [by specialize (Hsafe2 Hve)|].
        destruct (LeftRight_ok s ll b e k lrl g x m lrr a d h r Ht Hndt)
          as (m1 & E1 & R1 & F1).
        rewrite (pop_reattached ctx (left_right t)).
        eapply (rotated_ok s hd ctx t (left_right t) m1 _ lrr a d r); try done.
        -- unfold addrs. by rewrite inorder_left_right.
        -- intros m' (_ & _ & H). exact H.
    + (* no rotation *)
      cbn [orb fst snd].
      eapply yields_bind; [by apply BalanceFactor_ok|]. fold t.
      destruct (Z.eqb_spec (bf_of t) 2) as [?|_]; [done|].
      eapply yields_bind; [by eapply height_ok|].
      eapply yields_bind; [by apply store_ok|].
      cbn [Avl.with_height Avl.data Avl.left Avl.right].
      apply yields_ret.
      assert ((a ∉ addrs l) ∧ (a ∉ addrs r)) as [Hal Har].
      { clear -Hndt. unfold t in Hndt. rewrite addrs_node in Hndt.
        apply NoDup_mid in Hndt. tauto. }
      assert (rebalanced v t = join l a d r) as ->.
      { unfold rebalanced, t. cbv iota. fold t.
        destruct (Z.eqb_spec (bf_of t) (-2)); [done|].
        by destruct (Z.eqb_spec (bf_of t) 2). }
      cbn [nodes handles with_nodes set_nodes].
      split; [|split; [|split; [by repeat split|]]].
      * apply repr_plug. split.
        -- cbn [join repr]. split; [by rewrite lookup_insert_eq|].
           split; by apply repr_insert.
        -- eapply repr_ctx_ext; [|exact Hctx]. intros x Hx.
           rewrite lookup_insert_ne; [done|]. intros <-.
           apply (Hdisj a); [|done]. unfold t. rewrite addrs_node.
           apply elem_of_app. right. by left.
      * rewrite Hhd. f_equal. by apply root_ptr_plug.
      * split; cbn [nodes handles with_nodes set_nodes]; [|done].
        intros x Hx. rewrite lookup_insert_ne; [done|]. intros <-.
        apply Hx. rewrite addrs_plug. apply elem_of_app. left.
        unfold t. rewrite addrs_node. apply elem_of_app. right. by left.
Qed.

(** ** One turn of the unwinding loop *)

Lemma unwind_cons v f ctx c :
  unwind v (f :: ctx) c
  = unwind v (unwind_step v ctx (fill f c)).1 (unwind_step v ctx (fill f c)).2.
Proof.
  cbn [unwind]. unfold unwind_step.
  destruct (rotates (fill f c)); [|done]. by destruct ctx.
Qed.

Lemma unwind_safe_cons v f ctx c :
  unwind_safe v (f :: ctx) c →
  safe v (fill f c)
  ∧ unwind_safe v (unwind_step v ctx (fill f c)).1 (unwind_step v ctx (fill f c)).2.
Proof.
  cbn [unwind_safe]. unfold unwind_step. intros [Hs H]. split; [done|].
  destruct (rotates (fill f c)); [|done]. by destruct ctx.
Qed.

Lemma unwind_step_length v ctx t : (length (unwind_step v ctx t).1 ≤ length ctx)%nat.
Proof.
  unfold unwind_step. destruct (rotates t); [|done].
  destruct ctx; simpl; lia.
Qed.

Lemma unwind_step_inorder v ctx t :
  inorder (plug (unwind_step v ctx t).1 (unwind_step v ctx t).2) = inorder (plug ctx t).
Proof.
  unfold unwind_step. destruct (rotates t).
  - destruct ctx as [|f ctx]; cbn [reattached fst snd plug].
    + apply inorder_rebalanced.
    + rewrite !inorder_plug_list. f_equal. unfold fill.
      destruct (f_dir f =? RIGHT); simpl; by rewrite inorder_rebalanced.
  - cbn [fst snd]. rewrite !inorder_plug_list. by rewrite inorder_rebalanced.
Qed.

Lemma fill_node f c :
  ∃ l r, fill f c = Node l (f_addr f) (f_data f) (f_height f) r.
Proof. unfold fill. destruct (f_dir f =? RIGHT); eauto. Qed.

Lemma read_int_ok s arr xs i v :
  arrays s !! arr = Some xs → 0 ≤ i → xs !! Z.to_nat i = Some v →
  read_int (Some arr) i s = Ok v s.
Proof.
  intros Ha Hi Hv. unfold read_int. rewrite Ha.
  destruct (Z.ltb_spec i 0); [lia|]. by rewrite Hv.
Qed.

Lemma request_ok s : oracle_ok s → request s = Ok true (served s).
Proof.
  unfold oracle_ok, request, served. intros Ho.
  destruct s as [m hs ar n o lg]. cbn [oracle] in *.
  destruct o as [|b o]; [done|]. by apply Forall_cons in Ho as [-> Ho].
Qed.

Lemma oracle_ok_served s : oracle_ok s → oracle_ok (served s).
Proof.
  unfold oracle_ok, served. cbn [oracle set_oracle].
  destruct (oracle s); [done|]. intros H. by apply Forall_cons in H as [_ H].
Qed.

Lemma calloc_avl_t_ok s :
  oracle_ok s →
  calloc_avl_t s
  = Ok (Some (next s))
       (set_next (Pos.succ (next s)) (set_nodes <[next s := Avl.zero]> (served s))).
Proof.
  intros Ho. unfold calloc_avl_t. eapply bind_ok; [by apply request_ok|]. done.
Qed.

Lemma malloc_nodedata_ok s nd dir :
  oracle_ok s → malloc_nodedata nd dir s = Ok (Nodedata nd dir) (served s).
Proof.
  intros Ho. unfold malloc_nodedata. eapply bind_ok; [by apply request_ok|]. done.
Qed.

Lemma load_handle_ok s hd p :
  handles s !! hd = Some p → load_handle (Some hd) s = Ok p s.
Proof. unfold load_handle. by intros ->. Qed.

(** The store after the new leaf [n] was hung below [a] and the height of
    [a] refreshed. *)
Lemma leaf_attached m m' ctx t c' a n :
  repr m (plug ctx t) → NoDup (addrs (plug ctx t)) → n ∉ addrs (plug ctx t) →
  root_ptr t = Some a → root_ptr c' = Some a →
  addrs c' ≡ₚ n :: addrs t →
  repr m' c' →
  (∀ x, x ≠ a → x ≠ n → m' !! x = m !! x) →
  repr m' (plug ctx c') ∧ NoDup (addrs (plug ctx c'))
  ∧ root_ptr (plug ctx c') = root_ptr (plug ctx t).
Proof.
  intros Hrepr Hnd Hn Hrt Hrc Haddr Hc' Hframe.
  apply repr_plug in Hrepr as (Ht & Hctx).
  rewrite addrs_plug in Hnd, Hn.
  apply not_elem_of_app in Hn as (Hnt & Hnc).
  pose proof Hnd as Hnd'. apply NoDup_app in Hnd' as (Hndt & Hdisj & Hndc).
  assert (a ∈ addrs t) as Hat.
  { destruct t as [|l a' d h r]; [done|]. injection Hrt as ->.
    rewrite addrs_node. apply elem_of_app. right. by left. }
  split; [|split].
  - apply repr_plug. split; [done|]. rewrite Hrc, <- Hrt.
    eapply repr_ctx_ext; [|exact Hctx]. intros x Hx. apply Hframe.
    + intros ->. by apply (Hdisj a).
    + by intros ->.
  - rewrite addrs_plug, Haddr. cbn [app]. apply NoDup_cons. split; [|done].
    apply not_elem_of_app. done.
  - apply root_ptr_plug. by rewrite Hrc, Hrt.
Qed.

(** ** The insertion of one value, in the store *)

Section insertion.

(** The handle, the array and the value [v = arr[i]] that is going in. *)
Context (hd arr : positive) (xs : list Z) (i v : Z).
Context (Hi : 0 ≤ i) (Hv : xs !! Z.to_nat i = Some v).

Lemma while_pop_ok : ∀ fuel ctx c s,
  (length ctx < fuel)%nat →
  arrays s !! arr = Some xs →
  repr (nodes s) (plug ctx c) → NoDup (addrs (plug ctx c)) →
  handles s !! hd = Some (root_ptr (plug ctx c)) →
  unwind_safe v ctx c →
  yields (while_pop fuel (stack_of ctx) (Some hd) (Some arr) i) s []
    (λ s', repr (nodes s') (unwind v ctx c)
           ∧ handles s' !! hd = Some (root_ptr (unwind v ctx c))
           ∧ same_rest s s'
           ∧ untouched (addrs (plug ctx c)) hd s s').
Proof.
  induction fuel as [|fuel IH]; intros ctx c s Hfuel Harr Hrepr Hnd Hhd Hsafe;
    [lia|].
  destruct ctx as [|f ctx].
  - cbn [while_pop stack_of map pop]. apply yields_ret.
    split; [done|]. split; [done|]. split; [apply same_rest_refl|apply untouched_refl].
  - cbn [while_pop stack_of map pop node]. fold (stack_of ctx).
    eapply yields_bind; [by eapply read_int_ok|].
    apply unwind_safe_cons in Hsafe as [Hsafe Hrest].
    rewrite unwind_cons. cbn [plug] in Hrepr, Hnd, Hhd.
    destruct (fill_node f c) as (l & r & Ef). rewrite Ef in *.
    destruct (rebalance_node_ok s hd v ctx l (f_addr f) (f_data f) (f_height f) r
                Hrepr Hnd Hhd Hsafe) as (s1 & E1 & R1 & H1 & S1 & U1).
    eapply yields_bind; [exact E1|].
    destruct S1 as (Sa & Sn & So & Sl).
    edestruct (IH (unwind_step v ctx (Node l (f_addr f) (f_data f) (f_height f) r)).1
                 (unwind_step v ctx (Node l (f_addr f) (f_data f) (f_height f) r)).2 s1)
      as (s2 & E2 & R2 & H2 & S2 & U2); try done.
    + pose proof (unwind_step_length v ctx (Node l (f_addr f) (f_data f) (f_height f) r)).
      simpl in Hfuel. lia.
    + by rewrite Sa.
    + unfold addrs. rewrite unwind_step_inorder. exact Hnd.
    + exists s2. split; [done|]. split; [done|]. split; [done|]. split.
      * eapply same_rest_trans; [|done]. by repeat split.
      * cbn [plug]. rewrite Ef.
        eapply untouched_trans; [| |exact U1|exact U2]; [done|].
        intros x. unfold addrs. by rewrite unwind_step_inorder.
Qed.

Lemma while_root_ok : ∀ fuel t ctx s,
  t ≠ Leaf → (2 * size t + length ctx ≤ fuel)%nat →
  arrays s !! arr = Some xs →
  oracle_ok s →
  repr (nodes s) (plug ctx t) → NoDup (addrs (plug ctx t)) →
  next s ∉ addrs (plug ctx t) →
  handles s !! hd = Some (root_ptr (plug ctx t)) →
  unwind_safe v (descend v (next s) t ctx).1 (descend v (next s) t ctx).2 →
  yields (while_root fuel (Some arr) i (Some hd) (root_ptr t) (stack_of ctx)) s
    (root_ptr (unwind v (descend v (next s) t ctx).1 (descend v (next s) t ctx).2), [])
    (λ s', repr (nodes s')
             (unwind v (descend v (next s) t ctx).1 (descend v (next s) t ctx).2)
           ∧ handles s' !! hd
             = Some (root_ptr (unwind v (descend v (next s) t ctx).1
                                 (descend v (next s) t ctx).2))
           ∧ arrays s' = arrays s ∧ next s' = Pos.succ (next s)
           ∧ logs s' = logs s ∧ oracle_ok s'
           ∧ untouched (next s :: addrs (plug ctx t)) hd s s').
Proof.
  induction fuel as [|fuel IH];
    intros t ctx s Hne Hfuel Harr Ho Hrepr Hnd Hfresh Hhd Hsafe.
  { destruct t; simpl in Hfuel; [done|lia]. }
  destruct t as [|l a d h r]; [done|]. clear Hne.
  pose proof Hrepr as Hrepr'. apply repr_plug in Hrepr' as (Ht & Hctx).
  pose proof Ht as (Ha & Hl & Hr).
  assert (a ≠ next s) as Han.
  { intros ->. apply Hfresh. rewrite addrs_plug, addrs_node.
    apply elem_of_app. left. apply elem_of_app. right. by left. }
  assert (next s ≠ a) as Hna by done.
  pose proof Hnd as Hndt. rewrite addrs_plug in Hndt.
  apply NoDup_app in Hndt as (Hndt & _ & _).
  rewrite addrs_node in Hndt. apply NoDup_mid in Hndt as (_ & _ & Hal & Har & _).
  assert ((next s ∉ addrs l) ∧ (next s ∉ addrs r)) as [Hnl Hnr].
  { rewrite addrs_plug, addrs_node, !not_elem_of_app, not_elem_of_cons in Hfresh.
    tauto. }
  cbn [while_root root_ptr].
  eapply yields_bind; [by eapply read_int_ok|].
  eapply yields_bind; [by apply load_ok|]. cbn [Avl.data Avl.left Avl.right].
  cbn [descend] in Hsafe |- *.
  destruct (Z.ltb_spec v d) as [Hvd|Hvd].
  - destruct l as [|ll la ld lh lr]; cbn [root_ptr].
    + (* the new leaf goes to the left of [a] *)
      cbn [fst snd] in Hsafe |- *.
      eapply yields_bind; [by apply calloc_avl_t_ok|].
      ystep_store.
      eapply yields_bind; [by eapply read_int_ok|].
      ystep_store.
      eapply yields_bind.
      { eapply (height_node_ok _ a _ (Node Leaf (next s) v 0 Leaf) r); [lk|done|done|..];
          cbn [nodes set_nodes with_nodes set_next served set_oracle].
        - cbn [repr]. split; [lk|done].
        - by repeat apply repr_insert. }
      ystep_store.
      match goal with |- yields _ ?s4 _ _ => set (s' := s4) end.
      destruct (leaf_attached (nodes s) (nodes s') ctx (Node Leaf a d h r)
                  (join (Node Leaf (next s) v 0 Leaf) a d r) a (next s)
                  Hrepr Hnd Hfresh eq_refl eq_refl)
        as (R' & N' & P').
      { unfold join. rewrite !addrs_node. reflexivity. }
      { subst s'. cbn [join repr]. split; [lk|]. split; [split; [lk|done]|].
        cbn [nodes set_nodes with_nodes set_next served set_oracle].
        by repeat apply repr_insert. }
      { intros x Hxa Hxn. subst s'.
        cbn [nodes set_nodes with_nodes set_next served set_oracle].
        by rewrite !lookup_insert_ne by done. }
      destruct (while_pop_ok fuel ctx
                  (join (Node Leaf (next s) v 0 Leaf) a d r) s')
        as (s2 & E2 & R2 & H2 & (SA & SN & SO & SL) & U2); try done.
      { simpl in Hfuel. lia. }
      { by rewrite P'. }
      eapply yields_bind; [exact E2|].
      eapply yields_bind; [by apply load_handle_ok|].
      apply yields_ret. split; [done|]. split; [done|].
      rewrite SA, SN, SL. unfold oracle_ok. rewrite SO.
      repeat split; try done; [by apply oracle_ok_served|..].
      { intros x Hx. apply not_elem_of_cons in Hx as [Hxn Hx].
        destruct U2 as [U2 _]. rewrite U2.
        - subst s'. cbn [nodes set_nodes with_nodes set_next served set_oracle].
          assert (a ≠ x) as Hxa.
          { intros <-. apply Hx. rewrite addrs_plug, addrs_node.
            apply elem_of_app. left. apply elem_of_app. right. by left. }
          by rewrite !lookup_insert_ne by done.
        - clear -Hx Hxn. rewrite addrs_plug in Hx |- *. unfold join.
          rewrite !addrs_node in Hx |- *.
          change (addrs (Node Leaf (next s) v 0 Leaf)) with [next s].
          change (addrs Leaf) with (@nil positive) in *.
          repeat (rewrite not_elem_of_app in Hx || rewrite not_elem_of_cons in Hx).
          repeat (rewrite not_elem_of_app || rewrite not_elem_of_cons).
          intuition (auto using not_elem_of_nil). }
      { intros x Hx. destruct U2 as [_ U2]. by rewrite U2. }
    + (* further left *)
      eapply yields_bind; [by apply malloc_nodedata_ok|].
      eapply yields_bind; [by apply load_ok|]. cbn [Avl.left].
      destruct (IH (Node ll la ld lh lr) (Frame a d h LEFT r :: ctx) (served s))
        as (s2 & E2 & R2 & H2 & SA & SN & SL & SO & U2); try done.
      { simpl in Hfuel |- *. lia. }
      { by apply oracle_ok_served. }
      by exists s2.
  - destruct r as [|rl ra rd rh rr]; cbn [root_ptr].
    + (* the new leaf goes to the right of [a] *)
      cbn [fst snd] in Hsafe |- *.
      eapply yields_bind; [by apply calloc_avl_t_ok|].
      ystep_store.
      eapply yields_bind; [by eapply read_int_ok|].
      ystep_store.
      eapply yields_bind.
      { eapply (height_node_ok _ a _ l (Node Leaf (next s) v 0 Leaf)); [lk|done|done|..];
          cbn [nodes set_nodes with_nodes set_next served set_oracle].
        - by repeat apply repr_insert.
        - cbn [repr]. split; [lk|done]. }
      ystep_store.
      match goal with |- yields _ ?s4 _ _ => set (s' := s4) end.
      destruct (leaf_attached (nodes s) (nodes s') ctx (Node l a d h Leaf)
                  (join l a d (Node Leaf (next s) v 0 Leaf)) a (next s)
                  Hrepr Hnd Hfresh eq_refl eq_refl)
        as (R' & N' & P').
      { unfold join. rewrite !addrs_node.
        change (addrs Leaf) with (@nil positive). cbn [app].
        replace (addrs l ++ [a; next s]) with ((addrs l ++ [a]) ++ [next s])
          by (by rewrite <- app_assoc).
        apply (Permutation_app_comm (addrs l ++ [a]) [next s]). }
      { subst s'. cbn [join repr]. split; [lk|]. split; [|split; [lk|done]].
        cbn [nodes set_nodes with_nodes set_next served set_oracle].
        by repeat apply repr_insert. }
      { intros x Hxa Hxn. subst s'.
        cbn [nodes set_nodes with_nodes set_next served set_oracle].
        by rewrite !lookup_insert_ne by done. }
      destruct (while_pop_ok fuel ctx
                  (join l a d (Node Leaf (next s) v 0 Leaf)) s')
        as (s2 & E2 & R2 & H2 & (SA & SN & SO & SL) & U2); try done.
      { simpl in Hfuel. lia. }
      { by rewrite P'. }
      eapply yields_bind; [exact E2|].
      eapply yields_bind; [by apply load_handle_ok|].
      apply yields_ret. split; [done|]. split; [done|].
      rewrite SA, SN, SL. unfold oracle_ok. rewrite SO.
      repeat split; try done; [by apply oracle_ok_served|..].
      { intros x Hx. apply not_elem_of_cons in Hx as [Hxn Hx].
        destruct U2 as [U2 _]. rewrite U2.
        - subst s'. cbn [nodes set_nodes with_nodes set_next served set_oracle].
          assert (a ≠ x) as Hxa.
          { intros <-. apply Hx. rewrite addrs_plug, addrs_node.
            apply elem_of_app. left. apply elem_of_app. right. by left. }
          by rewrite !lookup_insert_ne by done.
        - clear -Hx Hxn. rewrite addrs_plug in Hx |- *. unfold join.
          rewrite !addrs_node in Hx |- *.
          change (addrs (Node Leaf (next s) v 0 Leaf)) with [next s].
          change (addrs Leaf) with (@nil positive) in *.
          repeat (rewrite not_elem_of_app in Hx || rewrite not_elem_of_cons in Hx).
          repeat (rewrite not_elem_of_app || rewrite not_elem_of_cons).
          intuition (auto using not_elem_of_nil). }
      { intros x Hx. destruct U2 as [_ U2]. by rewrite U2. }
    + (* further right *)
      eapply yields_bind; [by apply malloc_nodedata_ok|].
      eapply yields_bind; [by apply load_ok|]. cbn [Avl.right].
      destruct (IH (Node rl ra rd rh rr) (Frame a d h RIGHT l :: ctx) (served s))
        as (s2 & E2 & R2 & H2 & SA & SN & SL & SO & U2); try done.
      { simpl in Hfuel |- *. lia. }
      { by apply oracle_ok_served. }
      by exists s2.
Qed.

End insertion.

(** ** The loop over the array *)

Lemma size_inorder t : size t = length (inorder t).
Proof.
  induction t as [|l IHl a d h r IHr]; [done|].
  simpl. rewrite length_app. simpl. lia.
Qed.

Lemma insert_good v n t : good t → good (insert v n t).
Proof.
  intros (Hne & Havl & Hs). split; [by apply insert_not_leaf|].
  split; [by apply insert_avl|].
  rewrite insert_inorder by done. by apply ins_list_sorted.
Qed.

Lemma insert_addrs v n t : good t → addrs (insert v n t) ≡ₚ n :: addrs t.
Proof.
  intros (Hne & Havl & Hs). unfold addrs.
  rewrite insert_inorder by done. by rewrite ins_list_perm.
Qed.

Lemma insert_size v n t : good t → size (insert v n t) = S (size t).
Proof.
  intros (Hne & Havl & Hs). rewrite !size_inorder, insert_inorder by done.
  by rewrite ins_list_perm.
Qed.

Lemma insert_unfold v n t :
  unwind v (descend v n t []).1 (descend v n t []).2 = insert v n t.
Proof. unfold insert. by destruct (descend v n t []). Qed.

Lemma build_from_addrs vs : ∀ n t x,
  good t → x ∈ addrs t → x ∈ addrs (build_from vs n t).
Proof.
  induction vs as [|v vs IH]; intros n t x Hg Hx; [done|].
  cbn [build_from]. apply IH; [by apply insert_good|].
  rewrite insert_addrs by done. by right.
Qed.

(** The loop run up to a bound [k + n] below [len]: where it ends, and
    that the loop up to [len] goes on from there. *)
Lemma for_i_ok hd arr xs len : ∀ n fuel k s t,
  Z.of_nat (k + n) ≤ len → (k + n ≤ length xs)%nat →
  (3 * n + 2 * size t + 1 ≤ fuel)%nat →
  good t → held s hd t →
  arrays s !! arr = Some xs → oracle_ok s →
  ∃ s', for_i fuel (Some arr) (Z.of_nat (k + n)) (Some hd) (Z.of_nat k) (root_ptr t) [] s
        = Ok (root_ptr (build_from (take n (drop k xs)) (next s) t), []) s'
    ∧ held s' hd (build_from (take n (drop k xs)) (next s) t)
    ∧ arrays s' = arrays s ∧ logs s' = logs s ∧ oracle_ok s'
    ∧ for_i fuel (Some arr) len (Some hd) (Z.of_nat k) (root_ptr t) [] s
      = for_i (fuel - n) (Some arr) len (Some hd) (Z.of_nat (k + n))
          (root_ptr (build_from (take n (drop k xs)) (next s) t)) [] s'
    ∧ untouched (addrs (build_from (take n (drop k xs)) (next s) t)) hd s s'
    ∧ Z.pos (next s') = Z.pos (next s) + Z.of_nat n.
Proof.
  induction n as [|n IH]; intros fuel k s t Hlen Hk Hfuel Hgood Hheld Harr Ho.
  - destruct fuel as [|fuel]; [lia|]. rewrite Nat.add_0_r, Nat.sub_0_r.
    cbn [for_i take build_from].
    destruct (Z.ltb_spec (Z.of_nat k) (Z.of_nat k)); [lia|].
    exists s. split; [done|]. split; [done|].
    repeat split; try done; lia.
  - destruct fuel as [|fuel]; [lia|]. cbn [for_i].
    destruct (Z.ltb_spec (Z.of_nat k) (Z.of_nat (k + S n))); [|lia].
    destruct (Z.ltb_spec (Z.of_nat k) len); [|lia].
    destruct (lookup_lt_is_Some_2 xs k) as [v Hv]; [lia|].
    rewrite (drop_S _ _ _ Hv). cbn [take build_from].
    destruct Hheld as (Hrepr & Hnd & Hlt & Hhd).
    pose proof Hgood as (Hne & Havl & Hsorted).
    assert (next s ∉ addrs t) as Hfresh.
    { intros Hin. rewrite Forall_forall in Hlt. specialize (Hlt _ Hin). lia. }
    destruct (descend_avl v (next s) t [] Havl Hne) as [_ Hsafe]; [done|].
    destruct (while_root_ok hd arr xs (Z.of_nat k) v ltac:(lia)
                ltac:(by rewrite Nat2Z.id) fuel t [] s)
      as (s1 & E1 & R1 & H1 & A1 & X1 & L1 & O1 & U1); try done.
    { simpl. lia. }
    rewrite insert_unfold in E1, R1, H1. cbn [plug] in U1.
    do 2 rewrite (bind_eq _ _ _ _ _ E1). cbv beta iota.
    replace (Z.of_nat k + 1) with (Z.of_nat (S k)) by lia.
    replace (k + S n)%nat with (S k + n)%nat by lia.
    destruct (IH fuel (S k) s1 (insert v (next s) t))
      as (s2 & E2 & R2 & A2 & L2 & O2 & C2 & U2 & N2); try done.
    + lia.
    + lia.
    + rewrite insert_size by done. lia.
    + by apply insert_good.
    + split; [done|]. split; [|split; [|done]].
      * rewrite insert_addrs by done. apply NoDup_cons. done.
      * rewrite insert_addrs by done. rewrite X1. apply Forall_cons. split; [lia|].
        eapply Forall_impl; [exact Hlt|]. intros; simpl in *; lia.
    + by rewrite A1.
    + rewrite X1 in *. exists s2. split; [done|]. split; [done|].
      split; [congruence|]. split; [congruence|]. split; [done|].
      split; [by replace (S fuel - S n)%nat with (fuel - n)%nat by lia|].
      split; [|lia].
      eapply untouched_trans; [| |exact U1|exact U2]; [|done].
      intros x Hx. apply build_from_addrs; [by apply insert_good|].
      by rewrite insert_addrs.
Qed.

Lemma calloc_avl_p_ok s :
  oracle_ok s →
  calloc_avl_p s
  = Ok (Some (next s))
       (set_next (Pos.succ (next s)) (set_handles <[next s := None]> (served s))).
Proof.
  intros Ho. unfold calloc_avl_p. eapply bind_ok; [by apply request_ok|]. done.
Qed.

Lemma store_handle_ok s hd p v :
  handles s !! hd = Some p →
  store_handle (Some hd) v s = Ok tt (set_handles <[hd := v]> s).
Proof. unfold store_handle. by intros ->. Qed.

Lemma generate_avl_unfold fuel arr x xs len s :
  arrays s !! arr = Some (x :: xs) → len ≠ 0 → oracle_ok s →
  generate_avl fuel (Some arr) len s
  = match for_i fuel (Some arr) len (Some (Pos.succ (next s))) 1 (Some (next s)) []
            (started s x) with
    | Ok _ s' => Ok (Some (Pos.succ (next s))) s'
    | Fault f => Fault f
    end.
Proof.
  intros Harr Hlen Ho. unfold generate_avl.
  destruct (Z.eqb_spec len 0); [done|]. cbn [orb].
  eapply bind_ok; [by apply calloc_avl_t_ok|]. cbv beta iota.
  eapply bind_ok; [by eapply read_int_ok|].
  eapply bind_ok; [apply store_ok; lk|].
  eapply bind_ok.
  { apply calloc_avl_p_ok. cbn [oracle with_nodes set_nodes set_next].
    by apply oracle_ok_served. }
  eapply bind_ok; [eapply store_handle_ok; lk|].
  unfold bind, started, served, with_nodes.
  cbn [nodes handles arrays next logs oracle
       set_nodes set_handles set_next set_oracle set_logs Avl.with_data Avl.zero
       Avl.height Avl.left Avl.right].
  rewrite insert_insert_eq.
  match goal with |- match ?c with _ => _ end = match ?c' with _ => _ end =>
    replace c' with c; [destruct c as [[? ?] ?|]; reflexivity|] end.
  reflexivity.
Qed.

Lemma build_from_good vs : ∀ n t, good t → good (build_from vs n t).
Proof.
  induction vs as [|v vs IH]; intros n t Hg; [done|].
  cbn [build_from]. by apply IH, insert_good.
Qed.

Lemma started_ok s arr x xs :
  arrays s !! arr = Some (x :: xs) → oracle_ok s →
  good (Node Leaf (next s) x 0 Leaf)
  ∧ held (started s x) (Pos.succ (next s)) (Node Leaf (next s) x 0 Leaf)
  ∧ arrays (started s x) = arrays s ∧ logs (started s x) = logs s
  ∧ next (started s x) = Pos.succ (Pos.succ (next s))
  ∧ oracle_ok (started s x).
Proof.
  intros Harr Ho. split; [|split; [|split; [done|split; [done|split; [done|]]]]].
  - split; [done|]. split.
    + cbn [avl side_of]. rewrite pick_max. repeat split; try done; lia.
    + cbn [inorder app]. repeat constructor.
  - unfold held, started.
    cbn [nodes handles next set_nodes set_handles set_next with_nodes served set_oracle
         repr root_ptr].
    split; [by rewrite lookup_insert_eq|]. split; [|split].
    + unfold addrs. cbn [inorder app fmap list_fmap fst]. apply NoDup_singleton.
    + unfold addrs. cbn [inorder app fmap list_fmap fst].
      apply Forall_singleton. lia.
    + by rewrite lookup_insert_eq.
  - unfold started, oracle_ok.
    cbn [oracle set_nodes set_handles set_next with_nodes].
    by do 2 apply oracle_ok_served.
Qed.

(** The run of [generate_avl] on the first [k] values, and the run on the
    first [len] values as its continuation. *)
(** The run of [generate_avl] up to a bound [k] below [len], for any
    bound [len]: the state it is in, what it left alone on the way, and that
    the run up to [len] goes on from there. *)
Lemma generate_avl_trace fuel arr x xs k len s :
  arrays s !! arr = Some (x :: xs) →
  (1 ≤ k)%nat → Z.of_nat k ≤ len → (k ≤ S (length xs))%nat → (3 * k ≤ fuel)%nat →
  oracle_ok s →
  ∃ sk,
    generate_avl fuel (Some arr) (Z.of_nat k) s = Ok (Some (Pos.succ (next s))) sk
    ∧ good (built (take k (x :: xs)) (next s))
    ∧ held sk (Pos.succ (next s)) (built (take k (x :: xs)) (next s))
    ∧ arrays sk = arrays s ∧ logs sk = logs s ∧ oracle_ok sk
    ∧ generate_avl fuel (Some arr) len s
      = match for_i (fuel - (k - 1)) (Some arr) len (Some (Pos.succ (next s)))
                (Z.of_nat k) (root_ptr (built (take k (x :: xs)) (next s))) [] sk with
        | Ok _ s' => Ok (Some (Pos.succ (next s))) s'
        | Fault f => Fault f
        end
    ∧ untouched (addrs (built (take k (x :: xs)) (next s))) (Pos.succ (next s)) s sk
    ∧ Z.pos (next sk) = Z.pos (next s) + Z.of_nat k + 1.
Proof.
  intros Harr Hk Hkl Hlen Hfuel Ho.
  destruct (started_ok s arr x xs Harr Ho) as (Hgood & Hheld & HA & HL & HN & HO).
  destruct (for_i_ok (Pos.succ (next s)) arr (x :: xs) len (k - 1) fuel 1
              (started s x) (Node Leaf (next s) x 0 Leaf))
    as (sk & E & Hh & A & L & O & C & U & N); try done.
  { lia. }
  { simpl. lia. }
  { simpl. lia. }
  replace (1 + (k - 1))%nat with k in * by lia.
  assert (build_from (take (k - 1) (drop 1 (x :: xs))) (next (started s x))
            (Node Leaf (next s) x 0 Leaf) = built (take k (x :: xs)) (next s)) as EB.
  { rewrite HN. destruct k as [|k]; [lia|].
    replace (S k - 1)%nat with k by lia. cbn [take built drop].
    by rewrite drop_0. }
  rewrite EB in *.
  exists sk. split; [|split; [|split; [done|split; [congruence|split; [congruence|split; [done|split; [|split]]]]]]].
  - rewrite (generate_avl_unfold fuel arr x xs) by (done || lia).
    change (Z.of_nat 1) with 1 in E.
    change (root_ptr (Node Leaf (next s) x 0 Leaf)) with (Some (next s)) in E.
    by rewrite E.
  - rewrite <- EB. by apply build_from_good.
  - rewrite (generate_avl_unfold fuel arr x xs) by (done || lia).
    change (Z.of_nat 1) with 1 in C.
    change (root_ptr (Node Leaf (next s) x 0 Leaf)) with (Some (next s)) in C.
    by rewrite C.
  - assert (next s ∈ addrs (built (take k (x :: xs)) (next s))) as Hroot.
    { rewrite <- EB. apply build_from_addrs; [done|]. by left. }
    destruct U as [U1 U2]. split.
    + intros y Hy. rewrite U1 by done. unfold started.
      cbn [nodes set_nodes set_handles set_next with_nodes served set_oracle].
      rewrite lookup_insert_ne; [done|]. by intros <-.
    + intros h Hh'. rewrite U2 by done. unfold started.
      cbn [handles set_nodes set_handles set_next with_nodes served set_oracle].
      by rewrite !lookup_insert_ne by done.
  - rewrite N, HN. lia.
Qed.

Lemma generate_avl_run fuel arr xs k len s :
  arrays s !! arr = Some xs →
  (1 ≤ k)%nat → (k ≤ len)%nat → (len ≤ length xs)%nat → (3 * len ≤ fuel)%nat →
  oracle_ok s →
  ∃ sk,
    generate_avl fuel (Some arr) (Z.of_nat k) s = Ok (Some (Pos.succ (next s))) sk
    ∧ good (built (take k xs) (next s))
    ∧ held sk (Pos.succ (next s)) (built (take k xs) (next s))
    ∧ arrays sk = arrays s ∧ logs sk = logs s ∧ oracle_ok sk
    ∧ generate_avl fuel (Some arr) (Z.of_nat len) s
      = match for_i (fuel - (k - 1)) (Some arr) (Z.of_nat len) (Some (Pos.succ (next s)))
                (Z.of_nat k) (root_ptr (built (take k xs) (next s))) [] sk with
        | Ok _ s' => Ok (Some (Pos.succ (next s))) s'
        | Fault f => Fault f
        end.
Proof.
  intros Harr Hk Hkl Hlen Hfuel Ho.
  destruct xs as [|x xs]; [simpl in Hlen; lia|].
  destruct (generate_avl_trace fuel arr x xs k (Z.of_nat len) s)
    as (sk & E & G & Hh & A & L & O & C & _); try done; [lia|simpl in Hlen; lia|lia|].
  by exists sk.
Qed.


(** ** The order of the nodes *)

Lemma node_of_1 n0 : node_of n0 1 = Pos.succ (Pos.succ n0).
Proof. unfold node_of. simpl. lia. Qed.

Lemma node_of_succ n0 k : node_of n0 (S (S k)) = Pos.succ (node_of n0 (S k)).
Proof. unfold node_of. rewrite !SuccNat2Pos.inj_succ. lia. Qed.

Lemma ins_list_fmap xs n0 k p :
  ins_list (xs !!! k) (node_of n0 k) ((λ i, (node_of n0 i, xs !!! i)) <$> p)
  = (λ i, (node_of n0 i, xs !!! i)) <$> ins_idx xs k p.
Proof.
  induction p as [|j p IH]; [done|].
  cbn [fmap list_fmap ins_list ins_idx].
  destruct (xs !!! k <? xs !!! j); [done|].
  cbn [fmap list_fmap]. f_equal. exact IH.
Qed.

Lemma build_from_inorder xs n0 : ∀ m k t,
  (1 ≤ k)%nat → (k + m ≤ length xs)%nat → good t →
  inorder t = (λ i, (node_of n0 i, xs !!! i)) <$> sort_idx xs k →
  inorder (build_from (take m (drop k xs)) (node_of n0 k) t)
  = (λ i, (node_of n0 i, xs !!! i)) <$> sort_idx xs (k + m).
Proof.
  induction m as [|m IH]; intros k t Hk Hlen Hg Ht.
  - by rewrite Nat.add_0_r.
  - destruct (lookup_lt_is_Some_2 xs k) as [v Hv]; [lia|].
    rewrite (drop_S _ _ _ Hv). cbn [take build_from].
    destruct k as [|k]; [lia|]. rewrite <- node_of_succ.
    replace (S k + S m)%nat with (S (S k) + m)%nat by lia.
    apply IH; [lia|lia|by apply insert_good|].
    destruct Hg as (Hne & Havl & Hs). rewrite insert_inorder by done.
    rewrite Ht. apply list_lookup_total_correct in Hv as <-.
    by rewrite ins_list_fmap.
Qed.

Lemma built_inorder xs n0 :
  xs ≠ [] →
  inorder (built xs n0) = (λ i, (node_of n0 i, xs !!! i)) <$> sort_idx xs (length xs).
Proof.
  destruct xs as [|x xs]; [done|]. intros _. unfold built.
  rewrite <- node_of_1.
  pose proof (build_from_inorder (x :: xs) n0 (length xs) 1 (Node Leaf n0 x 0 Leaf)) as H.
  cbn [drop] in H. rewrite drop_0, firstn_all in H. apply H; [lia|simpl; lia| |done].
  split; [done|]. split.
  - cbn [avl side_of]. rewrite pick_max. repeat split; try done; lia.
  - cbn [inorder app]. repeat constructor.
Qed.

Lemma ins_idx_perm xs k p : ins_idx xs k p ≡ₚ k :: p.
Proof.
  induction p as [|j p IH]; [done|]. cbn [ins_idx].
  destruct (xs !!! k <? xs !!! j); [done|]. rewrite IH. apply perm_swap.
Qed.

Lemma sort_idx_perm xs n : sort_idx xs n ≡ₚ seq 0 n.
Proof.
  induction n as [|n IH]; [done|]. cbn [sort_idx].
  rewrite ins_idx_perm, IH, seq_S. cbn [plus].
  by rewrite (Permutation_app_comm (seq 0 n) [n]).
Qed.

Lemma ins_idx_sorted xs k p :
  Forall (λ j, (j < k)%nat) p →
  StronglySorted (idx_lt xs) p → StronglySorted (idx_lt xs) (ins_idx xs k p).
Proof.
  intros Hlt Hs. induction Hs as [|j p Hs IH Hj]; cbn [ins_idx].
  - repeat constructor.
  - apply Forall_cons in Hlt as [Hjk Hlt].
    destruct (Z.ltb_spec (xs !!! k) (xs !!! j)) as [Hv|Hv].
    + constructor; [by constructor|].
      constructor; [by left|].
      eapply Forall_impl; [exact Hj|]. intros i [Hi|[Hi _]]; left; lia.
    + constructor; [by apply IH|]. rewrite ins_idx_perm.
      constructor; [|done]. unfold idx_lt. lia.
Qed.

Lemma sort_idx_sorted xs n : StronglySorted (idx_lt xs) (sort_idx xs n).
Proof.
  induction n as [|n IH]; [constructor|]. cbn [sort_idx].
  apply ins_idx_sorted; [|done]. rewrite sort_idx_perm.
  apply Forall_forall. intros j Hj%elem_of_seq. lia.
Qed.

Lemma fmap_lookup_total_seq (xs : list Z) :
  (λ i, xs !!! i) <$> seq 0 (length xs) = xs.
Proof.
  apply list_eq. intros i. rewrite list_lookup_fmap.
  destruct (decide (i < length xs)%nat) as [Hi|Hi].
  - rewrite lookup_seq_lt by done. cbn [fmap option_fmap option_map plus].
    destruct (lookup_lt_is_Some_2 xs i Hi) as [v Hv]. rewrite Hv. f_equal.
    by apply list_lookup_total_correct.
  - rewrite lookup_seq_ge by lia. symmetry. apply lookup_ge_None. lia.
Qed.

Lemma values_sorted t :
  StronglySorted by_value (inorder t) → StronglySorted Z.le (values t).
Proof.
  unfold values. intros H. induction H as [|x l Hl IH Hx]; [constructor|].
  cbn [fmap list_fmap]. constructor; [done|].
  apply Forall_fmap. eapply Forall_impl; [exact Hx|]. done.
Qed.

Lemma built_values xs n0 : xs ≠ [] → values (built xs n0) ≡ₚ xs.
Proof.
  intros Hne. unfold values. rewrite built_inorder by done.
  rewrite <- list_fmap_compose. unfold compose. cbn [snd].
  rewrite sort_idx_perm. by rewrite fmap_lookup_total_seq.
Qed.

Lemma built_size xs n0 : xs ≠ [] → size (built xs n0) = length xs.
Proof.
  intros Hne. rewrite size_inorder, built_inorder by done.
  by rewrite length_fmap, sort_idx_perm, length_seq.
Qed.

(** ** From the invariant to the properties of the specification *)

Lemma all_nodes_impl (P Q : tree → Prop) t :
  (∀ t', P t' → Q t') → all_nodes P t → all_nodes Q t.
Proof.
  intros HPQ. induction t as [|l IHl a d h r IHr]; [done|].
  intros (H & Hl & Hr). split; [by apply HPQ|]. split; [by apply IHl|by apply IHr].
Qed.

Lemma avl_balanced t : avl t → all_nodes balanced_node t.
Proof.
  induction t as [|l IHl a d h r IHr]; [done|].
  intros (Hl & Hr & Hh & Hb). cbn [all_nodes]. split; [|split; auto].
  unfold balanced_node. cbn [balance_factor].
  by rewrite <- !avl_real_side.
Qed.

Lemma avl_height_cached t : avl t → all_nodes height_cached t.
Proof.
  induction t as [|l IHl a d h r IHr]; [done|].
  intros Ht. pose proof Ht as (Hl & Hr & Hh & Hb).
  cbn [all_nodes]. split; [|split; auto].
  unfold height_cached. pose proof (avl_spec_height _ Ht) as H.
  cbn [side_of stored_height] in *. specialize (H ltac:(done)). lia.
Qed.

Lemma sorted_bst (R : relation Z) t :
  StronglySorted (λ x y, R x.2 y.2) (inorder t) →
  all_nodes (λ t', Forall (λ v, R v (node_value t')) (values (left_of t'))
                   ∧ Forall (λ v, R (node_value t') v) (values (right_of t'))) t.
Proof.
  induction t as [|l IHl a d h r IHr]; [done|].
  cbn [inorder]. intros (Hlr & Hl & Hr)%StronglySorted_app.
  apply StronglySorted_cons in Hr as (Hdr & Hr).
  cbn [all_nodes left_of right_of node_value].
  split; [|split; auto]. unfold values. split; apply Forall_fmap, Forall_forall.
  - intros x Hx. apply (Hlr x (a, d)); [done|by left].
  - intros x Hx. rewrite Forall_forall in Hdr. by apply (Hdr x).
Qed.

Lemma sorted_bst_weak t :
  StronglySorted by_value (inorder t) → all_nodes bst_weak_node t.
Proof. apply (sorted_bst Z.le). Qed.

Lemma sorted_strict (l : list (positive * Z)) :
  StronglySorted by_value l → NoDup l.*2 →
  StronglySorted (λ x y, x.2 < y.2) l.
Proof.
  induction 1 as [|x l Hl IH Hx]; [constructor|].
  cbn [fmap list_fmap]. intros (Hnotin & Hnd)%NoDup_cons.
  constructor; [by apply IH|]. apply Forall_forall. intros y Hy.
  rewrite Forall_forall in Hx. specialize (Hx y Hy). unfold by_value in Hx.
  assert (x.2 ≠ y.2); [|lia].
  intros Heq. apply Hnotin. rewrite Heq. by apply list_elem_of_fmap_2.
Qed.

Lemma sorted_bst_strict t :
  StronglySorted by_value (inorder t) → NoDup (values t) →
  all_nodes bst_strict_node t.
Proof.
  intros Hs Hnd. eapply all_nodes_impl; [|apply (sorted_bst Z.lt)].
  - intros t' [H1 H2]. split; [done|].
    eapply Forall_impl; [exact H2|]. intros; simpl in *; lia.
  - by apply sorted_strict.
Qed.

Lemma repr_subtree m t a :
  repr m t → avl t → a ∈ addrs t →
  ∃ l d h r, repr m (Node l a d h r) ∧ avl (Node l a d h r).
Proof.
  induction t as [|l IHl b d h r IHr]; [by intros _ _ ?%elem_of_nil|].
  intros Hr Ha. rewrite addrs_node.
  intros [Hin|[->|Hin]%elem_of_cons]%elem_of_app.
  - destruct Hr as (_ & Hl & _), Ha as (Hal & _). by apply IHl.
  - by exists l, d, h, r.
  - destruct Hr as (_ & _ & Hr'), Ha as (_ & Har & _). by apply IHr.
Qed.

Lemma BalanceFactor_all s t :
  repr (nodes s) t → avl t →
  ∀ a, a ∈ addrs t → ∃ bf, BalanceFactor (Some a) s = Ok bf s ∧ -1 ≤ bf ≤ 1.
Proof.
  intros Hr Ha a Hin.
  destruct (repr_subtree _ _ _ Hr Ha Hin) as (l & d & h & r & Hr' & Ha').
  exists (bf_of (Node l a d h r)). split; [by apply BalanceFactor_ok|].
  destruct Ha' as (_ & _ & _ & Hb). exact Hb.
Qed.

(** * The properties of the specification *)

(** C1: for every non-empty array [xs] (allocation requests being served,
    fuel for the loops) [generate_avl] returns a handle to a tree whose
    inorder traversal is [xs] in ascending order, and stably so: the
    inorder sequence of nodes is the sequence of the nodes made for
    [arr[i]], [i] running through a permutation of the indices that is
    ordered by value and, for equal values, by position in [arr]. *)
Theorem generate_avl_inorder_sorted fuel arr xs s :
  arrays s !! arr = Some xs → xs ≠ [] → (3 * length xs ≤ fuel)%nat → oracle_ok s →
  ∃ hd s' root t perm,
    generate_avl fuel (Some arr) (Z.of_nat (length xs)) s = Ok (Some hd) s'
    ∧ handles s' !! hd = Some root ∧ tree_at (nodes s') root t
    ∧ values t ≡ₚ xs ∧ StronglySorted Z.le (values t)
    ∧ perm ≡ₚ seq 0 (length xs) ∧ StronglySorted (idx_lt xs) perm
    ∧ inorder t = (λ i, (node_of (next s) i, xs !!! i)) <$> perm.
Proof.
  intros Harr Hne Hfuel Ho.
  assert (1 ≤ length xs)%nat as Hlen by (destruct xs; [done|simpl; lia]).
  destruct (generate_avl_run fuel arr xs (length xs) (length xs) s)
    as (s' & E & (_ & _ & Hs) & (Hr & Hnd & _ & Hh) & _); try done.
  rewrite firstn_all in *.
  exists (Pos.succ (next s)), s', (root_ptr (built xs (next s))), (built xs (next s)),
    (sort_idx xs (length xs)).
  split; [done|]. split; [done|]. split; [done|].
  split; [by apply built_values|]. split; [by apply values_sorted|].
  split; [apply sort_idx_perm|]. split; [apply sort_idx_sorted|].
  by apply built_inorder.
Qed.

Lemma generate_avl_inorder_sorted_witness :
  ∃ hd s' root t perm,
    generate_avl 9 (Some 1%positive) 3 (init_mem [10; 20; 30]) = Ok (Some hd) s'
    ∧ handles s' !! hd = Some root ∧ tree_at (nodes s') root t
    ∧ values t ≡ₚ [10; 20; 30] ∧ StronglySorted Z.le (values t)
    ∧ perm ≡ₚ seq 0 3 ∧ StronglySorted (idx_lt [10; 20; 30]) perm
    ∧ inorder t = (λ i, (node_of 2 i, [10; 20; 30] !!! i)) <$> perm.
Proof.
  apply (generate_avl_inorder_sorted 9 1%positive [10; 20; 30] (init_mem [10; 20; 30]));
    [reflexivity | discriminate | simpl; lia | constructor].
Defined.

(** C2: after the insertion of each value (rebalancing included) every
    node of the tree has a balance factor of -1, 0 or 1, by the heights of
    its subtrees and as [BalanceFactor] computes it; [k = length xs] is the
    finished tree. *)
Theorem generate_avl_balanced fuel arr xs s k :
  arrays s !! arr = Some xs → (1 ≤ k)%nat → (k ≤ length xs)%nat →
  (3 * length xs ≤ fuel)%nat → oracle_ok s →
  ∃ hd sk root t,
    reached fuel (Some arr) (Z.of_nat (length xs)) s k hd sk
    ∧ handles sk !! hd = Some root ∧ tree_at (nodes sk) root t
    ∧ size t = k
    ∧ all_nodes balanced_node t
    ∧ ∀ a, a ∈ addrs t → ∃ bf, BalanceFactor (Some a) sk = Ok bf sk ∧ -1 ≤ bf ≤ 1.
Proof.
  intros Harr Hk Hkl Hfuel Ho.
  destruct (generate_avl_run fuel arr xs k (length xs) s)
    as (sk & E & (Hne & Havl & Hs) & (Hr & Hnd & _ & Hh) & _ & _ & _ & C); try done.
  exists (Pos.succ (next s)), sk, (root_ptr (built (take k xs) (next s))),
    (built (take k xs) (next s)).
  split; [split; [done|eauto]|]. split; [done|]. split; [done|].
  split.
  { rewrite built_size; [rewrite length_take; lia|].
    destruct xs; [simpl in Hkl; lia|]. by destruct k; [lia|]. }
  split; [by apply avl_balanced|]. by apply BalanceFactor_all.
Qed.

Lemma generate_avl_balanced_witness :
  ∃ hd sk root t,
    reached 9 (Some 1%positive) 3 (init_mem [10; 20; 30]) 2 hd sk
    ∧ handles sk !! hd = Some root ∧ tree_at (nodes sk) root t
    ∧ size t = 2%nat
    ∧ all_nodes balanced_node t
    ∧ ∀ a, a ∈ addrs t → ∃ bf, BalanceFactor (Some a) sk = Ok bf sk ∧ -1 ≤ bf ≤ 1.
Proof.
  apply (generate_avl_balanced 9 1%positive [10; 20; 30] (init_mem [10; 20; 30]) 2);
    [reflexivity | lia | simpl; lia | simpl; lia | constructor].
Defined.

(** C3, as stated, fails: built from [10; 10; 10], the tree has the value
    10 at its root and the value 10 in the left subtree of the root. *)
Lemma generate_avl_strict_order_counterexample :
  ∃ hd s' root t,
    generate_avl 9 (Some 1%positive) 3 (init_mem [10; 10; 10]) = Ok (Some hd) s'
    ∧ handles s' !! hd = Some root ∧ tree_at (nodes s') root t
    ∧ ¬ all_nodes bst_strict_node t.
Proof.
  eexists _, _, _,
    (Node (Node Leaf 2 10 0 Leaf) 4 10 1 (Node Leaf 5 10 0 Leaf)).
  split; [vm_compute; reflexivity|]. split; [vm_compute; reflexivity|].
  split.
  - split; [reflexivity|]. split.
    + cbn [repr root_ptr]. repeat split; vm_compute; reflexivity.
    + apply (bool_decide_unpack _). vm_compute. exact I.
  - intros ([H _] & _). cbn in H. apply Forall_cons in H as [H _]. lia.
Qed.

(** C3, amended: after the insertion of each value, for every node the
    values in its left subtree are less than or equal to the value of the
    node and the values in its right subtree greater than or equal to it;
    the left subtree is strictly smaller when the values inserted so far
    are pairwise distinct. *)
Theorem generate_avl_ordered fuel arr xs s k :
  arrays s !! arr = Some xs → (1 ≤ k)%nat → (k ≤ length xs)%nat →
  (3 * length xs ≤ fuel)%nat → oracle_ok s →
  ∃ hd sk root t,
    reached fuel (Some arr) (Z.of_nat (length xs)) s k hd sk
    ∧ handles sk !! hd = Some root ∧ tree_at (nodes sk) root t
    ∧ values t ≡ₚ take k xs
    ∧ all_nodes bst_weak_node t
    ∧ (NoDup (take k xs) → all_nodes bst_strict_node t).
Proof.
  intros Harr Hk Hkl Hfuel Ho.
  destruct (generate_avl_run fuel arr xs k (length xs) s)
    as (sk & E & (Hne & Havl & Hs) & (Hr & Hnd & _ & Hh) & _ & _ & _ & C); try done.
  assert (take k xs ≠ []) as Hne'.
  { destruct xs; [simpl in Hkl; lia|]. by destruct k; [lia|]. }
  exists (Pos.succ (next s)), sk, (root_ptr (built (take k xs) (next s))),
    (built (take k xs) (next s)).
  split; [split; [done|eauto]|]. split; [done|]. split; [done|].
  split; [by apply built_values|].
  split; [by apply sorted_bst_weak|].
  intros Hnd'. apply sorted_bst_strict; [done|]. by rewrite built_values.
Qed.

Lemma generate_avl_ordered_witness :
  ∃ hd sk root t,
    reached 9 (Some 1%positive) 3 (init_mem [10; 10; 10]) 3 hd sk
    ∧ handles sk !! hd = Some root ∧ tree_at (nodes sk) root t
    ∧ values t ≡ₚ take 3 [10; 10; 10]
    ∧ all_nodes bst_weak_node t
    ∧ (NoDup (take 3 [10; 10; 10]) → all_nodes bst_strict_node t).
Proof.
  apply (generate_avl_ordered 9 1%positive [10; 10; 10] (init_mem [10; 10; 10]) 3);
    [reflexivity | lia | simpl; lia | simpl; lia | constructor].
Defined.

(** C4: when [generate_avl] returns, the height stored in every node is
    the height of its subtree: 0 for a node without children, one more
    than the maximum over the children otherwise. *)
Theorem generate_avl_heights_cached fuel arr xs s :
  arrays s !! arr = Some xs → xs ≠ [] → (3 * length xs ≤ fuel)%nat → oracle_ok s →
  ∃ hd s' root t,
    generate_avl fuel (Some arr) (Z.of_nat (length xs)) s = Ok (Some hd) s'
    ∧ handles s' !! hd = Some root ∧ tree_at (nodes s') root t
    ∧ size t = length xs
    ∧ all_nodes height_cached t.
Proof.
  intros Harr Hne Hfuel Ho.
  assert (1 ≤ length xs)%nat as Hlen by (destruct xs; [done|simpl; lia]).
  destruct (generate_avl_run fuel arr xs (length xs) (length xs) s)
    as (s' & E & (_ & Havl & _) & (Hr & Hnd & _ & Hh) & _); try done.
  rewrite firstn_all in *.
  exists (Pos.succ (next s)), s', (root_ptr (built xs (next s))), (built xs (next s)).
  split; [done|]. split; [done|]. split; [done|].
  split; [by apply built_size|]. by apply avl_height_cached.
Qed.

Lemma generate_avl_heights_cached_witness :
  ∃ hd s' root t,
    generate_avl 9 (Some 1%positive) 3 (init_mem [30; 10; 20]) = Ok (Some hd) s'
    ∧ handles s' !! hd = Some root ∧ tree_at (nodes s') root t
    ∧ size t = 3%nat
    ∧ all_nodes height_cached t.
Proof.
  apply (generate_avl_heights_cached 9 1%positive [30; 10; 20] (init_mem [30; 10; 20]));
    [reflexivity | discriminate | simpl; lia | constructor].
Defined.

(** C5: from [10; 20; 30] and from [30; 10; 20] the build gives the same
    tree: 20 at the root with height 1, 10 on the left and 30 on the
    right, both with height 0 and without children. *)
Theorem generate_avl_examples fuel arr xs s :
  arrays s !! arr = Some xs → xs = [10; 20; 30] ∨ xs = [30; 10; 20] →
  (9 ≤ fuel)%nat → oracle_ok s →
  ∃ hd s' root t,
    generate_avl fuel (Some arr) 3 s = Ok (Some hd) s'
    ∧ handles s' !! hd = Some root ∧ tree_at (nodes s') root t
    ∧ shape_of t = SNode (SNode SLeaf 10 0 SLeaf) 20 1 (SNode SLeaf 30 0 SLeaf).
Proof.
  intros Harr Hxs Hfuel Ho.
  assert (length xs = 3%nat) as Hl by (by destruct Hxs as [-> | ->]).
  destruct (generate_avl_run fuel arr xs 3 3 s)
    as (s' & E & _ & (Hr & Hnd & _ & Hh) & _); [done|lia..|done|].
  exists (Pos.succ (next s)), s', (root_ptr (built (take 3 xs) (next s))),
    (built (take 3 xs) (next s)).
  split; [done|]. split; [done|]. split; [done|].
  destruct Hxs as [-> | ->]; vm_compute; reflexivity.
Qed.

Lemma generate_avl_examples_witness :
  ∃ hd s' root t,
    generate_avl 9 (Some 1%positive) 3 (init_mem [30; 10; 20]) = Ok (Some hd) s'
    ∧ handles s' !! hd = Some root ∧ tree_at (nodes s') root t
    ∧ shape_of t = SNode (SNode SLeaf 10 0 SLeaf) 20 1 (SNode SLeaf 30 0 SLeaf).
Proof.
  apply (generate_avl_examples 9 1%positive [30; 10; 20] (init_mem [30; 10; 20]));
    [reflexivity | by right | lia | constructor].
Defined.

(** C6: with a NULL array or a length of 0, [generate_avl] logs the error,
    returns NULL and leaves the store as it was: nothing allocated, no node
    and no handle written. *)
Theorem generate_avl_invalid_input fuel s :
  (∀ len, generate_avl fuel None len s
          = Ok None (set_logs (logs s ++ [Log ERROR "Invalid array." []]) s))
  ∧ (∀ arr, generate_avl fuel arr 0 s
            = Ok None (set_logs (logs s ++ [Log ERROR "Invalid array." []]) s)).
Proof.
  split.
  - intros len. reflexivity.
  - intros [a|]; reflexivity.
Qed.

(** ** Deleting *)

Lemma delete_avl_ok : ∀ fuel t s,
  t ≠ Leaf → (size t ≤ fuel)%nat → repr (nodes s) t → NoDup (addrs t) →
  ∃ m', delete_avl fuel (root_ptr t) s = Ok (Z.of_nat (size t)) (with_nodes m' s)
    ∧ (∀ x, x ∈ addrs t → m' !! x = None)
    ∧ (∀ x, x ∉ addrs t → m' !! x = nodes s !! x).
Proof.
  induction fuel as [|fuel IH]; intros t s Hne Hfuel Hrepr Hnd.
  { destruct t; [done|simpl in Hfuel; lia]. }
  destruct t as [|l a d h r]; [done|]. clear Hne.
  destruct Hrepr as (Ha & Hl & Hr).
  rewrite addrs_node in Hnd. apply NoDup_mid in Hnd as (Hndl & Hndr & Hal & Har & Hdisj).
  cbn [size] in Hfuel.
  (* a child: deleted when it is there *)
  assert (∀ c s0 count, (size c ≤ fuel)%nat → repr (nodes s0) c → NoDup (addrs c) →
            ∃ m', match root_ptr c with
                  | Some _ => bind (delete_avl fuel (root_ptr c)) (λ n, ret (count + n))
                  | None => ret count
                  end s0 = Ok (count + Z.of_nat (size c)) (with_nodes m' s0)
              ∧ (∀ x, x ∈ addrs c → m' !! x = None)
              ∧ (∀ x, x ∉ addrs c → m' !! x = nodes s0 !! x)) as Hchild.
  { intros c s0 count Hc Hrc Hndc. destruct c as [|cl ca cd ch cr].
    - exists (nodes s0). cbn [root_ptr size]. rewrite with_nodes_id, Z.add_0_r.
      split; [done|]. split; [by intros x ?%elem_of_nil|done].
    - destruct (IH (Node cl ca cd ch cr) s0) as (m' & E & H1 & H2); try done.
      exists m'. split; [|done]. cbn [root_ptr] in *.
      eapply bind_ok; [exact E|]. done. }
  destruct (Hchild l s 0) as (m1 & E1 & D1 & F1); [lia|done|done|].
  destruct (Hchild r (with_nodes m1 s) (0 + Z.of_nat (size l)))
    as (m2 & E2 & D2 & F2); [lia| |done|].
  { eapply repr_ext; [|exact Hr]. intros x Hx. apply F1.
    intros Hin. by apply (Hdisj x). }
  cbn [nodes with_nodes set_nodes] in F2.
  exists (delete a m2). split; [|split].
  - cbn [delete_avl root_ptr].
    eapply bind_ok; [by apply load_ok|]. cbn [Avl.left].
    eapply bind_ok; [exact E1|].
    eapply bind_ok; [apply load_ok; cbn [nodes with_nodes set_nodes]; by rewrite F1|].
    cbn [Avl.right].
    eapply bind_ok; [exact E2|].
    eapply bind_ok.
    { unfold free_avl_t. cbn [nodes with_nodes set_nodes].
      rewrite F2, F1, Ha by done. reflexivity. }
    unfold ret. f_equal. cbn [size]. lia.
  - intros x. rewrite addrs_node. intros [Hx|[->|Hx]%elem_of_cons]%elem_of_app.
    + rewrite lookup_delete_ne by (by intros ->).
      rewrite F2; [by apply D1|]. intros Hin. by apply (Hdisj x).
    + apply lookup_delete_eq.
    + rewrite lookup_delete_ne by (by intros ->). by apply D2.
  - intros x Hx. rewrite addrs_node, not_elem_of_app, not_elem_of_cons in Hx.
    destruct Hx as (Hxl & Hxa & Hxr).
    rewrite lookup_delete_ne by done. rewrite F2 by done. by apply F1.
Qed.

(** C7: [delete_avl] on the root of a tree of [n] nodes frees every node
    of the tree, touches nothing else and returns [n]; on NULL it logs the
    error, returns -1 and frees nothing; on the tree [generate_avl] built
    from an array of [n] values it returns [n]. *)
Theorem delete_avl_counts :
  (∀ fuel t root s,
     tree_at (nodes s) root t → t ≠ Leaf → (size t ≤ fuel)%nat →
     ∃ s', delete_avl fuel root s = Ok (Z.of_nat (size t)) s'
       ∧ (∀ x, x ∈ addrs t → nodes s' !! x = None)
       ∧ (∀ x, x ∉ addrs t → nodes s' !! x = nodes s !! x)
       ∧ s' = with_nodes (nodes s') s)
  ∧ (∀ fuel s,
       delete_avl (S fuel) None s
       = Ok (-1) (set_logs (logs s ++ [Log ERROR "root invalid." []]) s))
  ∧ (∀ fuel arr xs s,
       arrays s !! arr = Some xs → xs ≠ [] → (3 * length xs ≤ fuel)%nat →
       oracle_ok s →
       ∃ hd s1 root s2,
         generate_avl fuel (Some arr) (Z.of_nat (length xs)) s = Ok (Some hd) s1
         ∧ handles s1 !! hd = Some root
         ∧ delete_avl fuel root s1 = Ok (Z.of_nat (length xs)) s2).
Proof.
  split; [|split].
  - intros fuel t root s (<- & Hr & Hnd) Hne Hfuel.
    destruct (delete_avl_ok fuel t s Hne Hfuel Hr Hnd) as (m' & E & D & F).
    exists (with_nodes m' s). by repeat split.
  - reflexivity.
  - intros fuel arr xs s Harr Hne Hfuel Ho.
    assert (1 ≤ length xs)%nat as Hlen by (destruct xs; [done|simpl; lia]).
    destruct (generate_avl_run fuel arr xs (length xs) (length xs) s)
      as (s1 & E & (Hne' & _ & _) & (Hr & Hnd & _ & Hh) & _); try done.
    rewrite firstn_all in *.
    destruct (delete_avl_ok fuel (built xs (next s)) s1) as (m' & E' & _); try done.
    { rewrite built_size by done. lia. }
    rewrite built_size in E' by done.
    by exists (Pos.succ (next s)), s1, (root_ptr (built xs (next s))), (with_nodes m' s1).
Qed.

Lemma delete_avl_counts_witness :
  (∃ s', delete_avl 1 (Some 3%positive) one_node
         = Ok (Z.of_nat (size (Node Leaf 3 7 0 Leaf))) s'
     ∧ (∀ x, x ∈ addrs (Node Leaf 3 7 0 Leaf) → nodes s' !! x = None)
     ∧ (∀ x, x ∉ addrs (Node Leaf 3 7 0 Leaf) → nodes s' !! x = nodes one_node !! x)
     ∧ s' = with_nodes (nodes s') one_node)
  ∧ ∃ hd s1 root s2,
      generate_avl 9 (Some 1%positive) 3 (init_mem [10; 20; 30]) = Ok (Some hd) s1
      ∧ handles s1 !! hd = Some root
      ∧ delete_avl 9 root s1 = Ok 3 s2.
Proof.
  split.
  - apply (proj1 delete_avl_counts 1%nat (Node Leaf 3 7 0 Leaf) (Some 3%positive)
             one_node);
      [split; [reflexivity|split; [split; [reflexivity|done]|]]
      | discriminate | simpl; lia].
    apply (bool_decide_unpack _). vm_compute. exact I.
  - apply (proj2 (proj2 delete_avl_counts) 9%nat 1%positive [10; 20; 30]
             (init_mem [10; 20; 30]));
      [reflexivity | discriminate | simpl; lia | constructor].
Defined.

(** ** Allocation failures *)

(** The build of [10; 20; 30] read back from the store. *)
Example generate_avl_read_back :
  match generate_avl 9 (Some 1%positive) 3 (init_mem [10; 20; 30]) with
  | Ok (Some hd) s' =>
      match handles s' !! hd with
      | Some root => read_tree 4 (nodes s') root
      | None => None
      end
  | _ => None
  end = Some (Node (Node Leaf 2 10 0 Leaf) 4 20 1 (Node Leaf 5 30 0 Leaf)).
Proof. vm_compute. reflexivity. Qed.

(** The checked allocation: when the request for the root fails, the
    failure is logged and NULL returned. *)
Lemma generate_avl_root_failure fuel arr len s o :
  len ≠ 0 → oracle s = false :: o →
  generate_avl fuel (Some arr) len s
  = Ok None (set_logs (logs s ++ [Log ERROR "calloc failed." []]) (set_oracle o s)).
Proof.
  intros Hlen Ho. unfold generate_avl.
  destruct (Z.eqb_spec len 0); [done|]. cbn [orb].
  unfold calloc_avl_t, request, bind. rewrite Ho. reflexivity.
Qed.

(** The unchecked allocation of the handle: when the request fails,
    [*head = root] writes through NULL, whatever the array holds. *)
Lemma generate_avl_handle_failure fuel arr x xs len s o :
  arrays s !! arr = Some (x :: xs) → len ≠ 0 → oracle s = true :: false :: o →
  generate_avl fuel (Some arr) len s = Fault NullDeref.
Proof.
  intros Harr Hlen Ho. unfold generate_avl.
  destruct (Z.eqb_spec len 0); [done|]. cbn [orb].
  erewrite bind_eq; last first.
  { unfold calloc_avl_t.
    erewrite bind_eq by (unfold request; rewrite Ho; reflexivity). reflexivity. }
  cbv beta iota.
  erewrite bind_eq; [|by eapply read_int_ok].
  erewrite bind_eq; [|apply store_ok; lk].
  erewrite bind_eq; last first.
  { unfold calloc_avl_p.
    erewrite bind_eq by (unfold request; reflexivity). reflexivity. }
  reflexivity.
Qed.

(** C8: only the allocation of the root is checked.  When it fails, the
    build logs the failure and returns NULL.  When the allocation of the
    handle fails, or the allocation of a leaf, the next statement writes
    through the NULL pointer: no error is returned. *)
Theorem generate_avl_allocation_failure :
  generate_avl 9 (Some 1%positive) 2 (oracle_mem [10; 20] [false])
  = Ok None (set_logs [Log ERROR "calloc failed." []] (oracle_mem [10; 20] []))
  ∧ generate_avl 9 (Some 1%positive) 2 (oracle_mem [10; 20] [true; false])
    = Fault NullDeref
  ∧ generate_avl 9 (Some 1%positive) 2 (oracle_mem [10; 20] [true; true; false])
    = Fault NullDeref.
Proof. repeat split; vm_compute; reflexivity. Qed.

(** ** Printing *)

Lemma print_lines_info t pv : Forall (λ l, log_level l = INFO) (print_lines t pv).
Proof.
  revert pv. induction t as [|l IHl a d h r IHr]; intros pv; [constructor|].
  cbn [print_lines]. constructor; [done|]. apply Forall_app. split.
  - destruct l; [constructor|]. constructor; [done|apply IHl].
  - destruct r; [constructor|]. constructor; [done|apply IHr].
Qed.

Lemma print_avl_ok : ∀ fuel t s pa pn,
  t ≠ Leaf → (size t ≤ fuel)%nat → repr (nodes s) t → nodes s !! pa = Some pn →
  print_avl fuel (root_ptr t) (Some pa) s
  = Ok (Z.of_nat (size t)) (set_logs (logs s ++ print_lines t (Avl.data pn)) s).
Proof.
  induction fuel as [|fuel IH]; intros t s pa pn Hne Hfuel Hrepr Hpa.
  { destruct t; [done|simpl in Hfuel; lia]. }
  destruct t as [|l a d h r]; [done|]. clear Hne.
  destruct Hrepr as (Ha & Hl & Hr). cbn [size] in Hfuel.
  cbn [print_avl root_ptr].
  eapply bind_ok; [by apply load_ok|].
  eapply bind_ok; [by apply load_ok|]. cbn [Avl.data].
  eapply bind_ok; [reflexivity|].
  eapply bind_ok; [by apply load_ok|]. cbn [Avl.left].
  set (s1 := set_logs (logs s ++ [Log INFO "data: %6d,  parent: %6d" [d; Avl.data pn]]) s).
  assert (∃ s2 n2,
    match root_ptr l with
    | Some _ => bind (log INFO "LEFT." [])
                  (λ _, bind (print_avl fuel (root_ptr l) (Some a)) (λ c, ret (0 + 1 + c)))
    | None => ret (0 + 1)
    end s1 = Ok n2 s2
    ∧ n2 = 1 + Z.of_nat (size l) ∧ nodes s2 = nodes s
    ∧ s2 = set_logs (logs s1 ++ match l with
                                | Leaf => []
                                | Node _ _ _ _ _ => Log INFO "LEFT." [] :: print_lines l d
                                end) s) as (s2 & n2 & E2 & -> & N2 & L2).
  { destruct l as [|ll la ld lh lr].
    - exists s1, 1. cbn [root_ptr size]. split; [done|]. split; [done|].
      split; [done|]. subst s1. cbn [logs set_logs]. by rewrite app_nil_r.
    - eexists _, _. cbn [root_ptr]. split.
      { eapply bind_ok; [reflexivity|].
        eapply bind_ok; [|reflexivity].
        apply (IH (Node ll la ld lh lr) _ a (Avl.mk d h (Some la) (root_ptr r)));
          [done|lia|done|exact Ha]. }
      split; [lia|]. split; [done|]. subst s1.
      cbn [logs set_logs Avl.data]. unfold set_logs. cbn [nodes handles arrays next oracle logs].
      by rewrite <- !app_assoc. }
  eapply bind_ok; [exact E2|].
  eapply bind_ok; [apply load_ok; rewrite N2; exact Ha|]. cbn [Avl.right].
  assert (∃ s3 n3,
    match root_ptr r with
    | Some _ => bind (log INFO "RIGHT." [])
                  (λ _, bind (print_avl fuel (root_ptr r) (Some a))
                          (λ c, ret (1 + Z.of_nat (size l) + c)))
    | None => ret (1 + Z.of_nat (size l))
    end s2 = Ok n3 s3
    ∧ n3 = 1 + Z.of_nat (size l) + Z.of_nat (size r)
    ∧ s3 = set_logs (logs s2 ++ match r with
                                | Leaf => []
                                | Node _ _ _ _ _ => Log INFO "RIGHT." [] :: print_lines r d
                                end) s) as (s3 & n3 & E3 & -> & L3).
  { destruct r as [|rl ra rd rh rr].
    - exists s2, (1 + Z.of_nat (size l)). cbn [root_ptr size]. split; [done|].
      split; [lia|]. rewrite app_nil_r. rewrite L2 at 2. by rewrite L2.
    - eexists _, _. cbn [root_ptr]. split.
      { eapply bind_ok; [reflexivity|].
        eapply bind_ok; [|reflexivity].
        apply (IH (Node rl ra rd rh rr) _ a (Avl.mk d h (root_ptr l) (Some ra)));
          [done|lia| |].
        - cbn [nodes set_logs]. by rewrite N2.
        - cbn [nodes set_logs]. by rewrite N2. }
      split; [lia|]. rewrite L2.
      cbn [logs set_logs Avl.data]. unfold set_logs. cbn [nodes handles arrays next oracle logs].
      by rewrite <- !app_assoc. }
  eapply bind_ok; [exact E3|]. unfold ret. f_equal.
  - cbn [size]. lia.
  - rewrite L3, L2. subst s1. cbn [logs set_logs print_lines].
    unfold set_logs. cbn [nodes handles arrays next oracle logs].
    by rewrite <- !app_assoc.
Qed.

(** C9: [print_avl] reads [parent->data] at every node it visits, the
    root of the call included: with a root that is there and a NULL parent
    the call is a read through NULL; with a parent that is there, a tree
    of [n] nodes is printed in preorder, [n] is returned and the error
    branch is not taken (nothing is logged at level ERROR). *)
Theorem print_avl_parent :
  (∀ fuel a n s,
     nodes s !! a = Some n → print_avl (S fuel) (Some a) None s = Fault NullDeref)
  ∧ (∀ fuel t root pa pn s,
       tree_at (nodes s) root t → t ≠ Leaf → (size t ≤ fuel)%nat →
       nodes s !! pa = Some pn →
       print_avl fuel root (Some pa) s
       = Ok (Z.of_nat (size t)) (set_logs (logs s ++ print_lines t (Avl.data pn)) s)
       ∧ Forall (λ l, log_level l = INFO) (print_lines t (Avl.data pn))
       ∧ Z.of_nat (size t) ≠ -1).
Proof.
  split.
  - intros fuel a n s Ha. cbn [print_avl].
    eapply bind_ok; [by apply load_ok|]. reflexivity.
  - intros fuel t root pa pn s (<- & Hr & _) Hne Hfuel Hpa.
    split; [by apply print_avl_ok|]. split; [apply print_lines_info|lia].
Qed.

Lemma print_avl_parent_witness :
  (print_avl 1 (Some 3%positive) (Some 3%positive) one_node
   = Ok (Z.of_nat (size (Node Leaf 3 7 0 Leaf)))
       (set_logs (logs one_node ++ print_lines (Node Leaf 3 7 0 Leaf) 7) one_node)
   ∧ Forall (λ l, log_level l = INFO) (print_lines (Node Leaf 3 7 0 Leaf) 7)
   ∧ Z.of_nat (size (Node Leaf 3 7 0 Leaf)) ≠ -1)
  ∧ print_avl 1 (Some 3%positive) None one_node = Fault NullDeref.
Proof.
  split.
  - apply (proj2 print_avl_parent 1%nat (Node Leaf 3 7 0 Leaf) (Some 3%positive)
             3%positive (Avl.mk 7 0 None None) one_node);
      [split; [reflexivity|split; [split; [reflexivity|done]|]]
      | discriminate | simpl; lia | reflexivity].
    apply (bool_decide_unpack _). vm_compute. exact I.
  - apply (proj1 print_avl_parent 0%nat 3%positive (Avl.mk 7 0 None None)). reflexivity.
Defined.

(** ** The array is only read *)

Lemma keeps_ret {A} (a : A) : keeps_arrays (ret a).
Proof. intros s a' s' [= _ <-]. done. Qed.

Lemma keeps_fail {A} f : keeps_arrays (@fail A f).
Proof. by intros s a s'. Qed.

Lemma keeps_bind {A B} (c : M A) (k : A → M B) :
  keeps_arrays c → (∀ a, keeps_arrays (k a)) → keeps_arrays (bind c k).
Proof.
  intros Hc Hk s b s'. unfold bind. destruct (c s) as [a s1|f] eqn:E; [|done].
  intros H. rewrite (Hk a _ _ _ H). by apply (Hc s a).
Qed.

Lemma keeps_load p : keeps_arrays (load p).
Proof.
  intros s a s'. unfold load. destruct p; [|done].
  destruct (nodes s !! p); [|done]. by intros [= _ <-].
Qed.

Lemma keeps_store p f : keeps_arrays (store p f).
Proof.
  intros s a s'. unfold store. destruct p; [|done].
  destruct (nodes s !! p); [|done]. by intros [= _ <-].
Qed.

Lemma keeps_load_handle p : keeps_arrays (load_handle p).
Proof.
  intros s a s'. unfold load_handle. destruct p; [|done].
  destruct (handles s !! p); [|done]. by intros [= _ <-].
Qed.

Lemma keeps_store_handle p v : keeps_arrays (store_handle p v).
Proof.
  intros s a s'. unfold store_handle. destruct p; [|done].
  destruct (handles s !! p); [|done]. by intros [= _ <-].
Qed.

Lemma keeps_read_int p i : keeps_arrays (read_int p i).
Proof.
  intros s a s'. unfold read_int. destruct p; [|done].
  destruct (arrays s !! p); [|done]. destruct (i <? 0); [done|].
  destruct (_ !! _); [|done]. by intros [= _ <-].
Qed.

Lemma keeps_request : keeps_arrays request.
Proof.
  intros s a s'. unfold request. destruct (oracle s); by intros [= _ <-].
Qed.

Lemma keeps_log l fmt args : keeps_arrays (log l fmt args).
Proof. intros s a s'. unfold log. by intros [= _ <-]. Qed.

Lemma keeps_alloc {A} (f : mem → A) (g : mem → mem) :
  (∀ s, arrays (g s) = arrays s) → keeps_arrays (λ s, Ok (f s) (g s)).
Proof. intros Hg s a s' [= _ <-]. apply Hg. Qed.

Create HintDb keeps.
#[local] Hint Resolve keeps_ret keeps_fail keeps_load keeps_store keeps_load_handle
  keeps_store_handle keeps_read_int keeps_request keeps_log : keeps.

(** Through the binds and the case distinctions of a function body. *)
Ltac keeps :=
  repeat first
    [ solve [auto with keeps nocore]
    | apply keeps_alloc; done
    | apply keeps_bind; [|intros ?]
    | match goal with
      | |- keeps_arrays (match ?x with _ => _ end) => destruct x
      end ].

Lemma keeps_side p : keeps_arrays (side p).
Proof. unfold side. keeps. Qed.
#[local] Hint Resolve keeps_side : keeps.

Lemma keeps_height p : keeps_arrays (height p).
Proof. unfold height. keeps. Qed.

Lemma keeps_BalanceFactor p : keeps_arrays (BalanceFactor p).
Proof. unfold BalanceFactor. keeps. Qed.
#[local] Hint Resolve keeps_height keeps_BalanceFactor : keeps.

Lemma keeps_RotateRight p : keeps_arrays (RotateRight p).
Proof. unfold RotateRight. keeps. Qed.

Lemma keeps_RotateLeft p : keeps_arrays (RotateLeft p).
Proof. unfold RotateLeft. keeps. Qed.
#[local] Hint Resolve keeps_RotateRight keeps_RotateLeft : keeps.

Lemma keeps_LeftRight p : keeps_arrays (LeftRight p).
Proof. unfold LeftRight. keeps. Qed.

Lemma keeps_RightLeft p : keeps_arrays (RightLeft p).
Proof. unfold RightLeft. keeps. Qed.

Lemma keeps_reattach p head new : keeps_arrays (reattach p head new).
Proof. unfold reattach. keeps. Qed.
#[local] Hint Resolve keeps_LeftRight keeps_RightLeft keeps_reattach : keeps.

Lemma keeps_rebalance stack head tmp data : keeps_arrays (rebalance stack head tmp data).
Proof. unfold rebalance, RightRight, LeftLeft. keeps. Qed.
#[local] Hint Resolve keeps_rebalance : keeps.

Lemma keeps_while_pop fuel : ∀ stack head arr i,
  keeps_arrays (while_pop fuel stack head arr i).
Proof.
  induction fuel as [|fuel IH]; intros stack head arr i; cbn [while_pop]; keeps.
Qed.

Lemma keeps_calloc_avl_t : keeps_arrays calloc_avl_t.
Proof. unfold calloc_avl_t. keeps. Qed.

Lemma keeps_calloc_avl_p : keeps_arrays calloc_avl_p.
Proof. unfold calloc_avl_p. keeps. Qed.

Lemma keeps_malloc_nodedata nd dir : keeps_arrays (malloc_nodedata nd dir).
Proof. unfold malloc_nodedata. keeps. Qed.
#[local] Hint Resolve keeps_while_pop keeps_calloc_avl_t keeps_calloc_avl_p
  keeps_malloc_nodedata : keeps.

Lemma keeps_while_root fuel : ∀ arr i head root stack,
  keeps_arrays (while_root fuel arr i head root stack).
Proof.
  induction fuel as [|fuel IH]; intros arr i head root stack; cbn [while_root]; keeps.
Qed.
#[local] Hint Resolve keeps_while_root : keeps.

Lemma keeps_for_i fuel : ∀ arr len head i root stack,
  keeps_arrays (for_i fuel arr len head i root stack).
Proof.
  induction fuel as [|fuel IH]; intros arr len head i root stack; cbn [for_i]; keeps.
Qed.
#[local] Hint Resolve keeps_for_i : keeps.

(** C10: whenever [generate_avl] returns, with a tree or with NULL, the
    integer arrays of the store, the input array among them, are as they
    were before the call. *)
Theorem generate_avl_keeps_input fuel arr len s r s' :
  generate_avl fuel arr len s = Ok r s' → arrays s' = arrays s.
Proof.
  revert s r s'. change (keeps_arrays (generate_avl fuel arr len)).
  unfold generate_avl, destroy_stack. keeps.
Qed.

Lemma generate_avl_keeps_input_witness :
  ∃ r s',
    generate_avl 9 (Some 1%positive) 3 (init_mem [30; 10; 20]) = Ok r s'
    ∧ arrays s' = arrays (init_mem [30; 10; 20])
    ∧ arrays s' !! 1%positive = Some [30; 10; 20].
Proof.
  eexists _, _. split; [vm_compute; reflexivity|].
  split; [|vm_compute; reflexivity].
  eapply (generate_avl_keeps_input 9 (Some 1%positive) 3 (init_mem [30; 10; 20])).
  vm_compute. reflexivity.
Defined.

(** * Further properties of the code *)

(** ** The rotations *)

Lemma repr_agree m m' t :
  repr m t → repr m' t → ∀ x, x ∈ addrs t → m' !! x = m !! x.
Proof.
  induction t as [|l IHl a d h r IHr]; [by intros _ _ x Hx; apply elem_of_nil in Hx|].
  intros (Ha & Hl & Hr) (Ha' & Hl' & Hr') x Hx.
  rewrite addrs_node in Hx. apply elem_of_app in Hx as [Hx|Hx]; [by apply IHl|].
  apply elem_of_cons in Hx as [->|Hx]; [congruence|by apply IHr].
Qed.

Lemma with_nodes_same s : with_nodes (nodes s) s = s.
Proof. by destruct s. Qed.

Lemma with_nodes_twice m m' s : with_nodes m (with_nodes m' s) = with_nodes m s.
Proof. by destruct s. Qed.









Lemma nodes_eq_mem m s : (∀ x, m !! x = nodes s !! x) → with_nodes m s = s.
Proof.
  intros H. assert (m = nodes s) as -> by by apply map_eq.
  apply with_nodes_same.
Qed.



(** X6: the rotations take the child they lift for granted.  On a node
    without a right child [RotateLeft] (and so [RightRight]) reads through
    NULL, on a node without a left child [RotateRight] (and so [LeftLeft])
    does; [LeftRight] does when the left child or its right child is
    missing, [RightLeft] when the right child or its left child is. *)
Theorem rotation_missing_child s l a d h r :
  tree_at (nodes s) (Some a) (Node l a d h r) →
  (r = Leaf →
   RotateLeft (Some a) s = Fault NullDeref ∧ RightRight (Some a) s = Fault NullDeref)
  ∧ (l = Leaf →
     RotateRight (Some a) s = Fault NullDeref ∧ LeftLeft (Some a) s = Fault NullDeref)
  ∧ (l = Leaf ∨ right_of l = Leaf → LeftRight (Some a) s = Fault NullDeref)
  ∧ (r = Leaf ∨ left_of r = Leaf → RightLeft (Some a) s = Fault NullDeref).
Proof.
  intros (_ & (Ha & Hl & Hr) & _).
  assert (∀ p : ptr, p = None → ∀ k : avl_t → M ptr, bind (load p) k s = Fault NullDeref)
    as Hnull by (by intros p ->).
  split; [|split; [|split]].
  - intros ->. unfold RightRight, RotateLeft.
    by rewrite (bind_eq _ _ _ _ _ (load_ok _ _ _ Ha)), Hnull.
  - intros ->. unfold LeftLeft, RotateRight.
    by rewrite (bind_eq _ _ _ _ _ (load_ok _ _ _ Ha)), Hnull.
  - intros Hmiss. unfold LeftRight.
    rewrite (bind_eq _ _ _ _ _ (load_ok _ _ _ Ha)). cbn [Avl.left].
    destruct l as [|ll b e k lr].
    + reflexivity.
    + destruct Hmiss as [?|Hlr]; [done|]. cbn [right_of] in Hlr. subst lr.
      destruct Hl as (Hb & _). unfold RotateLeft. cbn [root_ptr].
      unfold bind at 1. by rewrite (bind_eq _ _ _ _ _ (load_ok _ _ _ Hb)), Hnull.
  - intros Hmiss. unfold RightLeft.
    rewrite (bind_eq _ _ _ _ _ (load_ok _ _ _ Ha)). cbn [Avl.right].
    destruct r as [|rl b e k rr].
    + reflexivity.
    + destruct Hmiss as [?|Hrl]; [done|]. cbn [left_of] in Hrl. subst rl.
      destruct Hr as (Hb & _). unfold RotateRight. cbn [root_ptr].
      unfold bind at 1. by rewrite (bind_eq _ _ _ _ _ (load_ok _ _ _ Hb)), Hnull.
Qed.

Lemma rotation_missing_child_witness :
  (RotateLeft (Some 3%positive) one_node = Fault NullDeref
   ∧ RightRight (Some 3%positive) one_node = Fault NullDeref)
  ∧ (RotateRight (Some 3%positive) one_node = Fault NullDeref
     ∧ LeftLeft (Some 3%positive) one_node = Fault NullDeref)
  ∧ LeftRight (Some 3%positive) one_node = Fault NullDeref
  ∧ RightLeft (Some 3%positive) one_node = Fault NullDeref.
Proof.
  assert (tree_at (nodes one_node) (Some 3%positive) (Node Leaf 3 7 0 Leaf)) as H.
  { split; [reflexivity|]. split; [by vm_compute|].
    apply (bool_decide_unpack _). vm_compute. exact I. }
  destruct (rotation_missing_child one_node Leaf 3%positive 7 0 Leaf H)
    as (H1 & H2 & H3 & H4).
  split; [exact (H1 eq_refl)|]. split; [exact (H2 eq_refl)|].
  split; [exact (H3 (or_introl eq_refl))|exact (H4 (or_introl eq_refl))].
Defined.

(** ** Rebalancing one node *)

Lemma plug_reattached ctx t :
  plug (reattached ctx t).1 (reattached ctx t).2 = plug ctx t.
Proof. by destruct ctx. Qed.

Lemma stack_of_reattached ctx t : stack_of (reattached ctx t).1 = tail (stack_of ctx).
Proof. by destruct ctx. Qed.

(** X7: [rebalance] on a node that is two levels higher on the side the
    new value [v] went to, both subtrees being AVL trees and the higher one
    having grown towards [v]: the node is rotated, the entry of its parent
    is popped from the stack, and the rotated subtree is hung where the
    node was, on the recorded side of the parent or in [*head] when the
    stack was empty.  Afterwards the subtree is an AVL tree as high as its
    higher subtree was, and the whole tree has the same inorder sequence
    and the same nodes. *)
Theorem rebalance_restores_balance s hd v ctx f c :
  tree_at (nodes s) (root_ptr (plug ctx (fill f c))) (plug ctx (fill f c)) →
  handles s !! hd = Some (root_ptr (plug ctx (fill f c))) →
  avl c → avl (f_sib f) → lean v c → dir_ok v f →
  side_of c = side_of (f_sib f) + 2 →
  ∃ s' t',
    rebalance (stack_of ctx) (Some hd) (Some (f_addr f)) v s
    = Ok (tail (stack_of ctx)) s'
    ∧ tree_at (nodes s') (root_ptr (plug ctx t')) (plug ctx t')
    ∧ handles s' !! hd = Some (root_ptr (plug ctx t'))
    ∧ avl t' ∧ side_of t' = side_of c
    ∧ inorder (plug ctx t') = inorder (plug ctx (fill f c)).
Proof.
  intros (_ & Hr & Hnd) Hhd Hc Hsib Hlean Hdir Hside.
  destruct (rebalanced_rotate v f c Hc Hsib Hlean Hdir Hside)
    as (Hrot & Hsafe & Havl & Hs').
  destruct (fill_node f c) as (l & r & Ef). rewrite Ef in *.
  destruct (rebalance_node_ok s hd v ctx l (f_addr f) (f_data f) (f_height f) r
              Hr Hnd Hhd Hsafe) as (s' & E & R & H & _).
  unfold unwind_step in E, R, H. rewrite Hrot in E, R, H.
  rewrite plug_reattached in R, H. rewrite stack_of_reattached in E.
  exists s', (rebalanced v (Node l (f_addr f) (f_data f) (f_height f) r)).
  split; [done|].
  assert (inorder (plug ctx (rebalanced v (Node l (f_addr f) (f_data f) (f_height f) r)))
          = inorder (plug ctx (Node l (f_addr f) (f_data f) (f_height f) r))) as Hin.
  { by rewrite !inorder_plug_list, inorder_rebalanced. }
  split; [|split; [done|split; [done|split; [lia|done]]]].
  split; [done|]. split; [done|]. unfold addrs. by rewrite Hin.
Qed.

Lemma rebalance_restores_balance_witness :
  ∃ s' t',
    rebalance (stack_of []) (Some 2%positive) (Some 3%positive) 30 chain_mem
    = Ok (tail (stack_of [])) s'
    ∧ tree_at (nodes s') (root_ptr (plug [] t')) (plug [] t')
    ∧ handles s' !! 2%positive = Some (root_ptr (plug [] t'))
    ∧ avl t' ∧ side_of t' = side_of (Node Leaf 4 20 1 (Node Leaf 5 30 0 Leaf))
    ∧ inorder (plug [] t')
      = inorder (plug [] (fill (Frame 3 10 1 RIGHT Leaf)
                            (Node Leaf 4 20 1 (Node Leaf 5 30 0 Leaf)))).
Proof.
  apply (rebalance_restores_balance chain_mem 2%positive 30 []
           (Frame 3 10 1 RIGHT Leaf) (Node Leaf 4 20 1 (Node Leaf 5 30 0 Leaf))).
  - split; [reflexivity|]. split; [by vm_compute|].
    apply (bool_decide_unpack _). vm_compute. exact I.
  - reflexivity.
  - by vm_compute.
  - exact I.
  - reflexivity.
  - reflexivity.
  - reflexivity.
Defined.



(** ** The unwinding loop ends *)

Lemma in_time_ret {A} (a : A) : in_time (ret a).
Proof. by intros s. Qed.

Lemma in_time_bind {A B} (c : M A) (k : A → M B) :
  in_time c → (∀ a, in_time (k a)) → in_time (bind c k).
Proof.
  intros Hc Hk s. unfold bind. specialize (Hc s).
  destruct (c s) as [a s1|f]; [apply Hk|congruence].
Qed.

Lemma in_time_load p : in_time (load p).
Proof. intros s. unfold load. by repeat case_match. Qed.

Lemma in_time_store p f : in_time (store p f).
Proof. intros s. unfold store. by repeat case_match. Qed.

Lemma in_time_load_handle p : in_time (load_handle p).
Proof. intros s. unfold load_handle. by repeat case_match. Qed.

Lemma in_time_store_handle p v : in_time (store_handle p v).
Proof. intros s. unfold store_handle. by repeat case_match. Qed.

Lemma in_time_read_int p i : in_time (read_int p i).
Proof. intros s. unfold read_int. by repeat case_match. Qed.

Create HintDb in_time.
#[local] Hint Resolve in_time_ret in_time_load in_time_store in_time_load_handle
  in_time_store_handle in_time_read_int : in_time.

(** Through the binds and the case distinctions of a function body. *)
Ltac in_time :=
  repeat first
    [ solve [auto with in_time nocore]
    | apply in_time_bind; [|intros ?]
    | match goal with
      | |- in_time (match ?x with _ => _ end) => destruct x
      end ].

Lemma in_time_side p : in_time (side p).
Proof. unfold side. in_time. Qed.
#[local] Hint Resolve in_time_side : in_time.

Lemma in_time_height p : in_time (height p).
Proof. unfold height. in_time. Qed.

Lemma in_time_BalanceFactor p : in_time (BalanceFactor p).
Proof. unfold BalanceFactor. in_time. Qed.
#[local] Hint Resolve in_time_height in_time_BalanceFactor : in_time.

Lemma in_time_RotateRight p : in_time (RotateRight p).
Proof. unfold RotateRight. in_time. Qed.

Lemma in_time_RotateLeft p : in_time (RotateLeft p).
Proof. unfold RotateLeft. in_time. Qed.
#[local] Hint Resolve in_time_RotateRight in_time_RotateLeft : in_time.

Lemma in_time_LeftRight p : in_time (LeftRight p).
Proof. unfold LeftRight. in_time. Qed.

Lemma in_time_RightLeft p : in_time (RightLeft p).
Proof. unfold RightLeft. in_time. Qed.

Lemma in_time_reattach p head new : in_time (reattach p head new).
Proof. unfold reattach. in_time. Qed.
#[local] Hint Resolve in_time_LeftRight in_time_RightLeft in_time_reattach : in_time.

Lemma in_time_rebalance stack head tmp data : in_time (rebalance stack head tmp data).
Proof. unfold rebalance, RightRight, LeftLeft. in_time. Qed.

Lemma returns_ret {A} (P : A → Prop) (a : A) : P a → returns P (ret a).
Proof. by intros H s a' s' [= <- _]. Qed.

Lemma returns_bind {A B} (P : B → Prop) (c : M A) (k : A → M B) :
  (∀ a, returns P (k a)) → returns P (bind c k).
Proof.
  intros Hk s b s'. unfold bind. destruct (c s) as [a s1|f]; [apply Hk|done].
Qed.

Lemma bind_cases {A B} (c : M A) (k : A → M B) s (P : outcome B → Prop) :
  (∀ a s1, c s = Ok a s1 → P (k a s1)) → (∀ f, c s = Fault f → P (Fault f)) →
  P (bind c k s).
Proof. intros H1 H2. unfold bind. destruct (c s); auto. Qed.

(** [rebalance] never pushes: the stack it leaves is the one it was given,
    or that one without its top entry. *)
Lemma rebalance_stack stack head tmp data :
  returns (λ st, st = stack ∨ st = (pop stack).2) (rebalance stack head tmp data).
Proof.
  unfold rebalance. apply returns_bind. intros bf.
  destruct (bf =? -2).
  - destruct (pop stack) as [p st] eqn:E.
    repeat (apply returns_bind; intros ?). apply returns_ret. by right.
  - apply returns_bind. intros bf'. destruct (bf' =? 2).
    + destruct (pop stack) as [p st] eqn:E.
      repeat (apply returns_bind; intros ?). apply returns_ret. by right.
    + repeat (apply returns_bind; intros ?). apply returns_ret. by left.
Qed.

Lemma pop_length (stack : list nodedata) : (length (pop stack).2 ≤ length stack)%nat.
Proof. destruct stack; simpl; lia. Qed.



(** ** Lengths that do not fit the array *)

(** X10: a negative length is not refused.  [generate_avl] tests [len]
    against 0 only, so with [len < 0] and an array that holds a value at
    index 0 it allocates root and handle, skips the loop and returns the
    handle of a tree of one node, which holds [arr[0]]; nothing is
    logged. *)
Theorem generate_avl_negative_len fuel arr x xs len s :
  arrays s !! arr = Some (x :: xs) → len < 0 → (1 ≤ fuel)%nat → oracle_ok s →
  ∃ hd s' root,
    generate_avl fuel (Some arr) len s = Ok (Some hd) s'
    ∧ handles s' !! hd = Some (Some root)
    ∧ tree_at (nodes s') (Some root) (Node Leaf root x 0 Leaf)
    ∧ logs s' = logs s ∧ arrays s' = arrays s.
Proof.
  intros Harr Hlen Hfuel Ho.
  destruct (started_ok s arr x xs Harr Ho) as (_ & (Hr & Hnd & _ & Hh) & HA & HL & _).
  exists (Pos.succ (next s)), (started s x), (next s).
  rewrite (generate_avl_unfold fuel arr x xs) by (done || lia).
  destruct fuel as [|fuel]; [lia|]. cbn [for_i].
  destruct (Z.ltb_spec 1 len); [lia|].
  split; [done|]. split; [exact Hh|]. split; [by split|by split].
Qed.

Lemma generate_avl_negative_len_witness :
  ∃ hd s' root,
    generate_avl 1 (Some 1%positive) (-3) (init_mem [10; 20; 30]) = Ok (Some hd) s'
    ∧ handles s' !! hd = Some (Some root)
    ∧ tree_at (nodes s') (Some root) (Node Leaf root 10 0 Leaf)
    ∧ logs s' = logs (init_mem [10; 20; 30])
    ∧ arrays s' = arrays (init_mem [10; 20; 30]).
Proof.
  apply (generate_avl_negative_len 1 1%positive 10 [20; 30] (-3) (init_mem [10; 20; 30]));
    [reflexivity | lia | lia | constructor].
Defined.

(** X11: a length beyond the end of the array is not noticed either.
    With [len] greater than the number of values the array holds,
    [generate_avl] inserts the values there are and then reads [arr[i]]
    past the end; with an array of no values it reads [arr[0]] past the
    end right after the allocation of the root. *)
Theorem generate_avl_reads_past_end fuel arr xs len s :
  arrays s !! arr = Some xs → Z.of_nat (length xs) < len →
  (3 * length xs + 2 ≤ fuel)%nat → oracle_ok s →
  generate_avl fuel (Some arr) len s = Fault BadAccess.
Proof.
  intros Harr Hlen Hfuel Ho.
  destruct xs as [|x xs].
  - unfold generate_avl. cbn [orb]. destruct (Z.eqb_spec len 0); [simpl in Hlen; lia|].
    rewrite (bind_eq _ _ _ _ _ (calloc_avl_t_ok s Ho)).
    unfold bind, read_int. cbn [arrays set_next set_nodes served set_oracle].
    by rewrite Harr.
  - destruct (generate_avl_trace fuel arr x xs (S (length xs)) len s)
      as (sk & _ & (Hne & _) & Hheld & HA & _ & _ & -> & _); try done.
    { lia. }
    { simpl in Hlen. lia. }
    { simpl in Hfuel. lia. }
    change (S (length xs)) with (length (x :: xs)) in *. rewrite firstn_all in *.
    destruct (built (x :: xs) (next s)) as [|l a d h r] eqn:Eb; [done|].
    destruct Hheld as ((Ha & _) & _).
    replace (fuel - (length (x :: xs) - 1))%nat with (S (S (fuel - length xs - 2)))
      by (simpl in Hfuel |- *; lia).
    cbn [for_i while_root root_ptr].
    destruct (Z.ltb_spec (Z.of_nat (length (x :: xs))) len); [|lia].
    unfold bind at 1. unfold bind at 1. unfold read_int at 1.
    rewrite HA, Harr.
    destruct (Z.ltb_spec (Z.of_nat (length (x :: xs))) 0); [lia|].
    rewrite Nat2Z.id. by rewrite lookup_ge_None_2.
Qed.

Lemma generate_avl_reads_past_end_witness :
  generate_avl 11 (Some 1%positive) 4 (init_mem [10; 20; 30]) = Fault BadAccess.
Proof.
  apply (generate_avl_reads_past_end 11 1%positive [10; 20; 30] 4 (init_mem [10; 20; 30]));
    [reflexivity | simpl; lia | simpl; lia | constructor].
Defined.

(** ** What a build leaves alone *)

Lemma node_of_ge n0 i : (n0 ≤ node_of n0 i)%positive.
Proof. unfold node_of. destruct i; lia. Qed.

Lemma built_addrs xs n0 :
  xs ≠ [] → addrs (built xs n0) = node_of n0 <$> sort_idx xs (length xs).
Proof.
  intros Hne. unfold addrs. rewrite built_inorder by done.
  by rewrite <- list_fmap_compose.
Qed.

Lemma built_addrs_ge xs n0 x : xs ≠ [] → x ∈ addrs (built xs n0) → (n0 ≤ x)%positive.
Proof.
  intros Hne. rewrite built_addrs by done.
  intros (i & -> & _)%list_elem_of_fmap_1. apply node_of_ge.
Qed.

(** The run of [generate_avl] on the first [k] values of an array, with
    what it left alone. *)
Lemma generate_avl_first fuel arr xs k s :
  arrays s !! arr = Some xs → (1 ≤ k)%nat → (k ≤ length xs)%nat →
  (3 * k ≤ fuel)%nat → oracle_ok s →
  ∃ s',
    generate_avl fuel (Some arr) (Z.of_nat k) s = Ok (Some (Pos.succ (next s))) s'
    ∧ good (built (take k xs) (next s))
    ∧ held s' (Pos.succ (next s)) (built (take k xs) (next s))
    ∧ arrays s' = arrays s ∧ logs s' = logs s ∧ oracle_ok s'
    ∧ untouched (addrs (built (take k xs) (next s))) (Pos.succ (next s)) s s'
    ∧ Z.pos (next s') = Z.pos (next s) + Z.of_nat k + 1.
Proof.
  intros Harr Hk Hkl Hfuel Ho. destruct xs as [|x xs]; [simpl in Hkl; lia|].
  destruct (generate_avl_trace fuel arr x xs k (Z.of_nat k) s)
    as (s' & E & G & H & A & L & O & _ & U & N); try done;
    try (simpl in Hkl; lia).
  by exists s'.
Qed.

(** The whole run of [generate_avl] on an array of values. *)
Lemma generate_avl_all fuel arr xs s :
  arrays s !! arr = Some xs → xs ≠ [] → (3 * length xs ≤ fuel)%nat → oracle_ok s →
  ∃ s',
    generate_avl fuel (Some arr) (Z.of_nat (length xs)) s = Ok (Some (Pos.succ (next s))) s'
    ∧ good (built xs (next s))
    ∧ held s' (Pos.succ (next s)) (built xs (next s))
    ∧ arrays s' = arrays s ∧ logs s' = logs s ∧ oracle_ok s'
    ∧ untouched (addrs (built xs (next s))) (Pos.succ (next s)) s s'
    ∧ Z.pos (next s') = Z.pos (next s) + Z.of_nat (length xs) + 1.
Proof.
  intros Harr Hne Hfuel Ho.
  assert (1 ≤ length xs)%nat as Hlen by (destruct xs; [done|simpl; lia]).
  destruct (generate_avl_first fuel arr xs (length xs) s) as (s' & H); try done.
  rewrite firstn_all in H. by exists s'.
Qed.

(** X12: a build writes to the cells it allocates and to nothing else.
    From an array of [n] values [generate_avl] takes [n + 1] fresh cells,
    the [n] nodes of the tree and the handle; every node and every handle
    the store held before is left as it was, and nothing is logged. *)
Theorem generate_avl_frame fuel arr xs s :
  arrays s !! arr = Some xs → xs ≠ [] → (3 * length xs ≤ fuel)%nat → oracle_ok s →
  ∃ hd s' root t,
    generate_avl fuel (Some arr) (Z.of_nat (length xs)) s = Ok (Some hd) s'
    ∧ handles s' !! hd = Some root ∧ tree_at (nodes s') root t
    ∧ size t = length xs
    ∧ (∀ x, x ∈ addrs t → (next s ≤ x < next s')%positive)
    ∧ (next s ≤ hd < next s')%positive
    ∧ (∀ x, x ∉ addrs t → nodes s' !! x = nodes s !! x)
    ∧ (∀ h, h ≠ hd → handles s' !! h = handles s !! h)
    ∧ logs s' = logs s
    ∧ Z.pos (next s') = Z.pos (next s) + Z.of_nat (length xs) + 1.
Proof.
  intros Harr Hne Hfuel Ho.
  destruct (generate_avl_all fuel arr xs s Harr Hne Hfuel Ho)
    as (s' & E & G & (Hr & Hnd & Hlt & Hh) & A & L & O & (U1 & U2) & N).
  exists (Pos.succ (next s)), s', (root_ptr (built xs (next s))), (built xs (next s)).
  split; [done|]. split; [done|]. split; [done|].
  split; [by apply built_size|].
  assert (1 ≤ length xs)%nat by (destruct xs; [done|simpl; lia]).
  split; [|split; [lia|done]].
  intros x Hx. split; [by eapply built_addrs_ge|].
  rewrite Forall_forall in Hlt. by apply Hlt.
Qed.

Lemma generate_avl_frame_witness :
  ∃ hd s' root t,
    generate_avl 9 (Some 1%positive) (Z.of_nat (length [10; 20; 30])) (init_mem [10; 20; 30])
    = Ok (Some hd) s'
    ∧ handles s' !! hd = Some root ∧ tree_at (nodes s') root t
    ∧ size t = length [10; 20; 30]
    ∧ (∀ x, x ∈ addrs t → (next (init_mem [10; 20; 30]%Z) ≤ x < next s')%positive)
    ∧ (next (init_mem [10; 20; 30]%Z) ≤ hd < next s')%positive
    ∧ (∀ x, x ∉ addrs t → nodes s' !! x = nodes (init_mem [10; 20; 30]) !! x)
    ∧ (∀ h, h ≠ hd → handles s' !! h = handles (init_mem [10; 20; 30]) !! h)
    ∧ logs s' = logs (init_mem [10; 20; 30])
    ∧ Z.pos (next s')
      = Z.pos (next (init_mem [10; 20; 30])) + Z.of_nat (length [10; 20; 30]) + 1.
Proof.
  apply (generate_avl_frame 9 1%positive [10; 20; 30] (init_mem [10; 20; 30]));
    [reflexivity | discriminate | simpl; lia | constructor].
Defined.

(** X13: two builds, one after the other, give two trees that share no
    node and have different handles, and the second build leaves the first
    tree as it was: both handles lead to their tree in the final store, each
    tree with the values of its array. *)
Theorem generate_avl_twice fuel arr1 arr2 xs1 xs2 s :
  arrays s !! arr1 = Some xs1 → arrays s !! arr2 = Some xs2 →
  xs1 ≠ [] → xs2 ≠ [] →
  (3 * length xs1 ≤ fuel)%nat → (3 * length xs2 ≤ fuel)%nat → oracle_ok s →
  ∃ hd1 s1 hd2 s2 root1 root2 t1 t2,
    generate_avl fuel (Some arr1) (Z.of_nat (length xs1)) s = Ok (Some hd1) s1
    ∧ generate_avl fuel (Some arr2) (Z.of_nat (length xs2)) s1 = Ok (Some hd2) s2
    ∧ hd1 ≠ hd2
    ∧ handles s1 !! hd1 = Some root1 ∧ tree_at (nodes s1) root1 t1
    ∧ handles s2 !! hd1 = Some root1 ∧ tree_at (nodes s2) root1 t1
    ∧ handles s2 !! hd2 = Some root2 ∧ tree_at (nodes s2) root2 t2
    ∧ values t1 ≡ₚ xs1 ∧ values t2 ≡ₚ xs2
    ∧ (∀ x, x ∈ addrs t1 → x ∉ addrs t2).
Proof.
  intros Harr1 Harr2 Hne1 Hne2 Hfuel1 Hfuel2 Ho.
  destruct (generate_avl_all fuel arr1 xs1 s Harr1 Hne1 Hfuel1 Ho)
    as (s1 & E1 & G1 & (Hr1 & Hnd1 & Hlt1 & Hh1) & A1 & _ & O1 & _ & N1).
  rewrite <- A1 in Harr2.
  destruct (generate_avl_all fuel arr2 xs2 s1 Harr2 Hne2 Hfuel2 O1)
    as (s2 & E2 & G2 & (Hr2 & Hnd2 & Hlt2 & Hh2) & _ & _ & _ & (U1 & U2) & _).
  rewrite Forall_forall in Hlt1.
  assert (∀ x, x ∈ addrs (built xs1 (next s)) → x ∉ addrs (built xs2 (next s1)))
    as Hdisj.
  { intros x Hx1 Hx2. apply Hlt1 in Hx1. apply built_addrs_ge in Hx2; [lia|done]. }
  assert (1 ≤ length xs1)%nat by (destruct xs1; [done|simpl; lia]).
  assert (Pos.succ (next s) ≠ Pos.succ (next s1)) as Hhd by lia.
  exists (Pos.succ (next s)), s1, (Pos.succ (next s1)), s2,
    (root_ptr (built xs1 (next s))), (root_ptr (built xs2 (next s1))),
    (built xs1 (next s)), (built xs2 (next s1)).
  split; [done|]. split; [done|]. split; [done|]. split; [done|].
  split; [done|]. split; [by rewrite U2|].
  split; [|split; [done|split; [done|split; [by apply built_values|
                                             split; [by apply built_values|done]]]]].
  split; [done|]. split; [|done].
  eapply repr_ext; [|exact Hr1]. intros x Hx. apply U1. by apply Hdisj.
Qed.

Lemma generate_avl_twice_witness :
  ∃ hd1 s1 hd2 s2 root1 root2 t1 t2,
    generate_avl 9 (Some 1%positive) (Z.of_nat (length [30; 10; 20])) two_arrays
    = Ok (Some hd1) s1
    ∧ generate_avl 9 (Some 2%positive) (Z.of_nat (length [5; 5])) s1 = Ok (Some hd2) s2
    ∧ hd1 ≠ hd2
    ∧ handles s1 !! hd1 = Some root1 ∧ tree_at (nodes s1) root1 t1
    ∧ handles s2 !! hd1 = Some root1 ∧ tree_at (nodes s2) root1 t1
    ∧ handles s2 !! hd2 = Some root2 ∧ tree_at (nodes s2) root2 t2
    ∧ values t1 ≡ₚ [30; 10; 20] ∧ values t2 ≡ₚ [5; 5]
    ∧ (∀ x, x ∈ addrs t1 → x ∉ addrs t2).
Proof.
  apply (generate_avl_twice 9 1%positive 2%positive [30; 10; 20] [5; 5] two_arrays);
    [reflexivity | reflexivity | discriminate | discriminate
    | simpl; lia | simpl; lia | constructor].
Defined.

(** ** Building and deleting *)

(** X14: a build followed by [delete_avl] on the root gives back every
    node: in a store that holds no node at or behind the next free address,
    the nodes afterwards are exactly the nodes before the build.  The
    handle is not given back: its cell stays allocated and still holds the
    address of the root, where no node is any more. *)
Theorem generate_then_delete fuel arr xs s :
  arrays s !! arr = Some xs → xs ≠ [] → (3 * length xs ≤ fuel)%nat → oracle_ok s →
  (∀ x, (next s ≤ x)%positive → nodes s !! x = None) →
  ∃ hd s1 r s2,
    generate_avl fuel (Some arr) (Z.of_nat (length xs)) s = Ok (Some hd) s1
    ∧ handles s1 !! hd = Some (Some r)
    ∧ delete_avl fuel (Some r) s1 = Ok (Z.of_nat (length xs)) s2
    ∧ nodes s2 = nodes s
    ∧ handles s2 = <[hd := Some r]> (handles s)
    ∧ nodes s2 !! r = None.
Proof.
  intros Harr Hne Hfuel Ho Hfree.
  destruct (generate_avl_all fuel arr xs s Harr Hne Hfuel Ho)
    as (s1 & E & (Hnl & _) & (Hr & Hnd & Hlt & Hh) & A & L & O & (U1 & U2) & N).
  destruct (delete_avl_ok fuel (built xs (next s)) s1) as (m' & E' & D & F); try done.
  { rewrite built_size by done. lia. }
  rewrite built_size in E' by done.
  destruct (built xs (next s)) as [|l a d h r] eqn:Eb; [done|].
  cbn [root_ptr] in *.
  exists (Pos.succ (next s)), s1, a, (with_nodes m' s1).
  split; [done|]. split; [done|]. split; [done|].
  change (nodes (with_nodes m' s1)) with m'.
  change (handles (with_nodes m' s1)) with (handles s1).
  assert (a ∈ addrs (Node l a d h r)) as Ha.
  { rewrite addrs_node. apply elem_of_app. right. by left. }
  split; [|split; [|by apply D]].
  - apply map_eq. intros x.
    destruct (decide (x ∈ addrs (Node l a d h r))) as [Hx|Hx].
    + rewrite (D x Hx). symmetry. apply Hfree.
      rewrite <- Eb in Hx. by apply built_addrs_ge in Hx.
    + by rewrite F, U1.
  - apply map_eq. intros h'. destruct (decide (h' = Pos.succ (next s))) as [->|Hh'].
    + by rewrite lookup_insert_eq.
    + by rewrite lookup_insert_ne, U2.
Qed.

Lemma generate_then_delete_witness :
  ∃ hd s1 r s2,
    generate_avl 9 (Some 1%positive) (Z.of_nat (length [10; 20; 30])) (init_mem [10; 20; 30])
    = Ok (Some hd) s1
    ∧ handles s1 !! hd = Some (Some r)
    ∧ delete_avl 9 (Some r) s1 = Ok (Z.of_nat (length [10; 20; 30])) s2
    ∧ nodes s2 = nodes (init_mem [10; 20; 30])
    ∧ handles s2 = <[hd := Some r]> (handles (init_mem [10; 20; 30]))
    ∧ nodes s2 !! r = None.
Proof.
  apply (generate_then_delete 9 1%positive [10; 20; 30] (init_mem [10; 20; 30]));
    [reflexivity | discriminate | simpl; lia | constructor | reflexivity].
Defined.

(** X15: after [delete_avl] the root pointer is dangling.  A second
    [delete_avl] on it, or a [print_avl] (with a parent node that is still
    there), reads the freed root. *)
Theorem delete_avl_twice fuel fuel' t root pa pn s :
  tree_at (nodes s) root t → t ≠ Leaf → (size t ≤ fuel)%nat →
  nodes s !! pa = Some pn → pa ∉ addrs t →
  ∃ s', delete_avl fuel root s = Ok (Z.of_nat (size t)) s'
    ∧ nodes s' !! pa = Some pn
    ∧ delete_avl (S fuel') root s' = Fault BadAccess
    ∧ print_avl (S fuel') root (Some pa) s' = Fault BadAccess.
Proof.
  intros (<- & Hr & Hnd) Hne Hfuel Hpa Hout.
  destruct (delete_avl_ok fuel t s Hne Hfuel Hr Hnd) as (m' & E & D & F).
  exists (with_nodes m' s). split; [done|].
  change (nodes (with_nodes m' s)) with m'.
  split; [by rewrite F|].
  destruct t as [|l a d h r]; [done|].
  assert (m' !! a = None) as Ha.
  { apply D. rewrite addrs_node. apply elem_of_app. right. by left. }
  cbn [delete_avl print_avl root_ptr]. unfold bind, load.
  change (nodes (with_nodes m' s)) with m'. by rewrite Ha.
Qed.

Lemma delete_avl_twice_witness :
  ∃ s', delete_avl 2 (Some 4%positive) left_right_mem
        = Ok (Z.of_nat (size (Node Leaf 4 10 1 (Node Leaf 5 20 0 Leaf)))) s'
    ∧ nodes s' !! 3%positive = Some (Avl.mk 30 2 (Some 4%positive) None)
    ∧ delete_avl 1 (Some 4%positive) s' = Fault BadAccess
    ∧ print_avl 1 (Some 4%positive) (Some 3%positive) s' = Fault BadAccess.
Proof.
  apply (delete_avl_twice 2 0 (Node Leaf 4 10 1 (Node Leaf 5 20 0 Leaf))
           (Some 4%positive) 3%positive (Avl.mk 30 2 (Some 4%positive) None)
           left_right_mem);
    [|discriminate|simpl; lia|reflexivity|].
  - split; [reflexivity|]. split; [by vm_compute|].
    apply (bool_decide_unpack _). vm_compute. exact I.
  - apply (bool_decide_unpack _). vm_compute. exact I.
Defined.

(** ** The counts *)

Lemma bind_inv {A B} (c : M A) (k : A → M B) s b s' :
  bind c k s = Ok b s' → ∃ a s1, c s = Ok a s1 ∧ k a s1 = Ok b s'.
Proof. unfold bind. destruct (c s) as [a s1|f]; [eauto|done]. Qed.

Lemma ret_inv {A} (a b : A) s s' : ret a s = Ok b s' → a = b ∧ s = s'.
Proof. by intros [= -> ->]. Qed.

Lemma delete_avl_positive : ∀ fuel a s n s',
  delete_avl fuel (Some a) s = Ok n s' → 1 ≤ n.
Proof.
  induction fuel as [|fuel IH]; intros a s n s'; [done|]. cbn [delete_avl].
  intros (r1 & s1 & _ & H)%bind_inv.
  apply bind_inv in H as (c1 & s2 & H1 & H).
  apply bind_inv in H as (r2 & s3 & _ & H).
  apply bind_inv in H as (c2 & s4 & H2 & H).
  apply bind_inv in H as ([] & s5 & _ & H).
  apply ret_inv in H as [<- _].
  assert (0 ≤ c1) as Hc1.
  { destruct (Avl.left r1) as [al|].
    - apply bind_inv in H1 as (c & s6 & Hc & H1). apply ret_inv in H1 as [<- _].
      apply IH in Hc. lia.
    - apply ret_inv in H1 as [<- _]. lia. }
  destruct (Avl.right r2) as [ar|].
  - apply bind_inv in H2 as (c & s6 & Hc & H2). apply ret_inv in H2 as [<- _].
    apply IH in Hc. lia.
  - apply ret_inv in H2 as [<- _]. lia.
Qed.

Lemma print_avl_positive : ∀ fuel a parent s n s',
  print_avl fuel (Some a) parent s = Ok n s' → 1 ≤ n.
Proof.
  induction fuel as [|fuel IH]; intros a parent s n s'; [done|]. cbn [print_avl].
  intros (r0 & s0 & _ & H)%bind_inv.
  apply bind_inv in H as (pa & s1 & _ & H).
  apply bind_inv in H as ([] & s2 & _ & H).
  apply bind_inv in H as (r1 & s3 & _ & H).
  apply bind_inv in H as (c1 & s4 & H1 & H).
  apply bind_inv in H as (r2 & s5 & _ & H).
  apply bind_inv in H as (c2 & s6 & H2 & H).
  apply ret_inv in H as [<- _].
  assert (1 ≤ c1) as Hc1.
  { destruct (Avl.left r1) as [al|].
    - apply bind_inv in H1 as ([] & s7 & _ & H1).
      apply bind_inv in H1 as (c & s8 & Hc & H1). apply ret_inv in H1 as [<- _].
      apply IH in Hc. lia.
    - apply ret_inv in H1 as [<- _]. lia. }
  destruct (Avl.right r2) as [ar|].
  - apply bind_inv in H2 as ([] & s7 & _ & H2).
    apply bind_inv in H2 as (c & s8 & Hc & H2). apply ret_inv in H2 as [<- _].
    apply IH in Hc. lia.
  - apply ret_inv in H2 as [<- _]. lia.
Qed.



(** ** The height of a built tree *)

Lemma fib_step n : fib (S (S n)) = (fib (S n) + fib n)%nat.
Proof. done. Qed.

Lemma fib_mono n : (fib n ≤ fib (S n))%nat.
Proof.
  destruct n as [|n]; [simpl; lia|]. rewrite fib_step. lia.
Qed.

Lemma fib_le n m : (n ≤ m)%nat → (fib n ≤ fib m)%nat.
Proof.
  induction 1 as [|m _ IH]; [done|]. pose proof (fib_mono m). lia.
Qed.

(** An AVL tree of [k] levels has at least [fib (k + 2) - 1] nodes. *)
Lemma avl_fib t : avl t → (fib (Z.to_nat (side_of t) + 2) ≤ size t + 1)%nat.
Proof.
  induction t as [|l IHl a d h r IHr]; [simpl; lia|].
  intros (Hl & Hr & Hh & Hbf). specialize (IHl Hl). specialize (IHr Hr).
  pose proof (side_of_nonneg l Hl) as Hl0. pose proof (side_of_nonneg r Hr) as Hr0.
  cbn [side_of size]. subst h. unfold pick.
  destruct (Z.geb_spec (side_of l) (side_of r)) as [Hge|Hlt].
  - replace (Z.to_nat (1 + side_of l) + 2)%nat with (S (S (S (Z.to_nat (side_of l)))))
      by lia.
    rewrite fib_step.
    replace (S (S (Z.to_nat (side_of l)))) with (Z.to_nat (side_of l) + 2)%nat by lia.
    assert (fib (S (Z.to_nat (side_of l))) ≤ fib (Z.to_nat (side_of r) + 2))%nat
      by (apply fib_le; lia).
    lia.
  - replace (Z.to_nat (1 + side_of r) + 2)%nat with (S (S (S (Z.to_nat (side_of r)))))
      by lia.
    rewrite fib_step.
    replace (S (S (Z.to_nat (side_of r)))) with (Z.to_nat (side_of r) + 2)%nat by lia.
    assert (fib (S (Z.to_nat (side_of r))) ≤ fib (Z.to_nat (side_of l) + 2))%nat
      by (apply fib_le; lia).
    lia.
Qed.

(** X17: the tree [generate_avl] builds is of logarithmic height.  With
    [k] the number of levels of the tree built from [n] values, counted
    along the links (1 for a single node), the Fibonacci number
    [fib (k + 2)] is at most [n + 1]: 3 values give at most 2 levels, 7
    values at most 4, 1000 values at most 14. *)
Theorem generate_avl_height_bound fuel arr xs s :
  arrays s !! arr = Some xs → xs ≠ [] → (3 * length xs ≤ fuel)%nat → oracle_ok s →
  ∃ hd s' root t,
    generate_avl fuel (Some arr) (Z.of_nat (length xs)) s = Ok (Some hd) s'
    ∧ handles s' !! hd = Some root ∧ tree_at (nodes s') root t
    ∧ (fib (Z.to_nat (real_side t) + 2) ≤ length xs + 1)%nat.
Proof.
  intros Harr Hne Hfuel Ho.
  destruct (generate_avl_all fuel arr xs s Harr Hne Hfuel Ho)
    as (s' & E & (_ & Havl & _) & (Hr & Hnd & _ & Hh) & _).
  exists (Pos.succ (next s)), s', (root_ptr (built xs (next s))), (built xs (next s)).
  split; [done|]. split; [done|]. split; [done|].
  rewrite <- (avl_real_side _ Havl), <- (built_size xs (next s)) by done.
  by apply avl_fib.
Qed.

Lemma generate_avl_height_bound_witness :
  ∃ hd s' root t,
    generate_avl 9 (Some 1%positive) (Z.of_nat (length [10; 20; 30])) (init_mem [10; 20; 30])
    = Ok (Some hd) s'
    ∧ handles s' !! hd = Some root ∧ tree_at (nodes s') root t
    ∧ (fib (Z.to_nat (real_side t) + 2) ≤ length [10; 20; 30]%Z + 1)%nat.
Proof.
  apply (generate_avl_height_bound 9 1%positive [10; 20; 30] (init_mem [10; 20; 30]));
    [reflexivity | discriminate | simpl; lia | constructor].
Defined.

(** ** Allocation failures, for every array *)

Lemma request_false s o : oracle s = false :: o → request s = Ok false (set_oracle o s).
Proof. unfold request. by intros ->. Qed.

Lemma request_true s o : oracle s = true :: o → request s = Ok true (set_oracle o s).
Proof. unfold request. by intros ->. Qed.

Lemma bind_fault {A B} (c : M A) (k : A → M B) s f :
  c s = Fault f → bind c k s = Fault f.
Proof. unfold bind. by intros ->. Qed.

(** The unchecked allocation of the first leaf: when the request fails,
    [root->left->data = arr[1]] (or the same on the right) writes through
    NULL. *)
Lemma generate_avl_leaf_failure fuel arr x y xs len s o :
  arrays s !! arr = Some (x :: y :: xs) → 1 < len → (2 ≤ fuel)%nat →
  oracle s = true :: true :: false :: o →
  generate_avl fuel (Some arr) len s = Fault NullDeref.
Proof.
  intros Harr Hlen Hfuel Ho. unfold generate_avl.
  destruct (Z.eqb_spec len 0); [lia|]. cbn [orb].
  erewrite bind_eq; last first.
  { unfold calloc_avl_t. erewrite bind_eq by (by apply request_true). reflexivity. }
  cbv beta iota.
  erewrite bind_eq; [|by eapply read_int_ok].
  erewrite bind_eq; [|apply store_ok; lk].
  erewrite bind_eq; last first.
  { unfold calloc_avl_p. erewrite bind_eq by (by apply request_true). reflexivity. }
  erewrite bind_eq; [|eapply store_handle_ok; lk].
  apply bind_fault.
  destruct fuel as [|[|fuel]]; [lia|lia|]. cbn [for_i].
  destruct (Z.ltb_spec 1 len); [|lia].
  apply bind_fault. cbn [while_root].
  erewrite bind_eq; [|by eapply read_int_ok].
  erewrite bind_eq; [|apply load_ok; lk]. unfold Avl.zero. fields.
  destruct (y <? x).
  - erewrite bind_eq; last first.
    { unfold calloc_avl_t. erewrite bind_eq by (by apply request_false). reflexivity. }
    erewrite bind_eq; [|apply store_ok; lk].
    erewrite bind_eq; [|by eapply read_int_ok].
    reflexivity.
  - erewrite bind_eq; last first.
    { unfold calloc_avl_t. erewrite bind_eq by (by apply request_false). reflexivity. }
    erewrite bind_eq; [|apply store_ok; lk].
    erewrite bind_eq; [|by eapply read_int_ok].
    reflexivity.
Qed.

(** X18: of the allocations of a build only the first is checked, and
    this for every array of two values or more.  When the request for the
    root fails, [generate_avl] logs the failure and returns NULL; when the
    request for the handle fails, or the one for the first leaf, it writes
    through the NULL pointer it got. *)
Theorem generate_avl_unchecked_allocations fuel arr x y xs len s o :
  arrays s !! arr = Some (x :: y :: xs) → 1 < len → (2 ≤ fuel)%nat →
  (oracle s = false :: o →
   generate_avl fuel (Some arr) len s
   = Ok None (set_logs (logs s ++ [Log ERROR "calloc failed." []]) (set_oracle o s)))
  ∧ (oracle s = true :: false :: o →
     generate_avl fuel (Some arr) len s = Fault NullDeref)
  ∧ (oracle s = true :: true :: false :: o →
     generate_avl fuel (Some arr) len s = Fault NullDeref).
Proof.
  intros Harr Hlen Hfuel. split; [|split]; intros Ho.
  - apply generate_avl_root_failure; [lia|done].
  - eapply generate_avl_handle_failure; [done|lia|done].
  - by eapply generate_avl_leaf_failure.
Qed.

Lemma generate_avl_unchecked_allocations_witness :
  generate_avl 2 (Some 1%positive) 3 (oracle_mem [30; 10; 20] [false])
  = Ok None (set_logs (logs (oracle_mem [30; 10; 20] [false])
                       ++ [Log ERROR "calloc failed." []])
               (set_oracle [] (oracle_mem [30; 10; 20] [false])))
  ∧ generate_avl 2 (Some 1%positive) 3 (oracle_mem [30; 10; 20] [true; false])
    = Fault NullDeref
  ∧ generate_avl 2 (Some 1%positive) 3 (oracle_mem [30; 10; 20] [true; true; false])
    = Fault NullDeref.
Proof.
  split; [|split].
  - apply (proj1 (generate_avl_unchecked_allocations 2 1%positive 30 10 [20] 3
                    (oracle_mem [30; 10; 20] [false]) []
                    eq_refl ltac:(lia) ltac:(lia))).
    reflexivity.
  - apply (proj1 (proj2 (generate_avl_unchecked_allocations 2 1%positive 30 10 [20] 3
                           (oracle_mem [30; 10; 20] [true; false]) []
                           eq_refl ltac:(lia) ltac:(lia)))).
    reflexivity.
  - apply (proj2 (proj2 (generate_avl_unchecked_allocations 2 1%positive 30 10 [20] 3
                           (oracle_mem [30; 10; 20] [true; true; false]) []
                           eq_refl ltac:(lia) ltac:(lia)))).
    reflexivity.
Defined.

(** ** The tree depends on the values only *)

Section renaming.

Context (g : positive → positive).

Lemma side_of_rename t : side_of (rename g t) = side_of t.
Proof. by destruct t. Qed.

Lemma bf_of_rename t : bf_of (rename g t) = bf_of t.
Proof. destruct t; [done|]. unfold bf_of. simpl. by rewrite !side_of_rename. Qed.

Lemma rotates_rename t : rotates (rename g t) = rotates t.
Proof. unfold rotates. by rewrite bf_of_rename. Qed.

Lemma node_value_rename t : node_value (rename g t) = node_value t.
Proof. by destruct t. Qed.

Lemma rename_join l a d r :
  rename g (join l a d r) = join (rename g l) (g a) d (rename g r).
Proof. unfold join. simpl. by rewrite !side_of_rename. Qed.

Lemma rename_rot_left t : rename g (rot_left t) = rot_left (rename g t).
Proof.
  destruct t as [|l a d h [|rl b e k rr]]; try done.
  cbn [rot_left rename]. by rewrite !rename_join.
Qed.

Lemma rename_rot_right t : rename g (rot_right t) = rot_right (rename g t).
Proof.
  destruct t as [|[|ll b e k lr] a d h r]; try done.
  cbn [rot_right rename]. by rewrite !rename_join.
Qed.

Lemma rename_left_right t : rename g (left_right t) = left_right (rename g t).
Proof.
  destruct t as [|l a d h r]; [done|].
  unfold left_right. cbn [rename]. by rewrite rename_rot_right, <- rename_rot_left.
Qed.

Lemma rename_right_left t : rename g (right_left t) = right_left (rename g t).
Proof.
  destruct t as [|l a d h r]; [done|].
  unfold right_left. cbn [rename]. by rewrite rename_rot_left, <- rename_rot_right.
Qed.

Lemma rename_rebalanced v t : rename g (rebalanced v t) = rebalanced v (rename g t).
Proof.
  destruct t as [|l a d h r]; [done|].
  unfold rebalanced.
  change (rename g (Node l a d h r)) with (Node (rename g l) (g a) d h (rename g r)).
  cbv iota.
  change (Node (rename g l) (g a) d h (rename g r)) with (rename g (Node l a d h r)).
  rewrite bf_of_rename, !node_value_rename.
  destruct (bf_of (Node l a d h r) =? -2).
  { destruct (v >=? node_value r); [apply rename_rot_left|apply rename_right_left]. }
  destruct (bf_of (Node l a d h r) =? 2).
  { destruct (v <? node_value l); [apply rename_rot_right|apply rename_left_right]. }
  apply rename_join.
Qed.

Lemma rename_fill f c : rename g (fill f c) = fill (rename_frame g f) (rename g c).
Proof. unfold fill. cbn [rename_frame f_dir]. by destruct (f_dir f =? RIGHT). Qed.

Lemma rename_unwind v : ∀ n ctx c,
  (length ctx ≤ n)%nat →
  rename g (unwind v ctx c) = unwind v (rename_frame g <$> ctx) (rename g c).
Proof.
  induction n as [|n IH]; intros ctx c Hn.
  { destruct ctx; [done|simpl in Hn; lia]. }
  destruct ctx as [|f ctx]; [done|].
  cbn [unwind fmap list_fmap]. rewrite <- rename_fill, rotates_rename.
  destruct (rotates (fill f c)).
  - destruct ctx as [|f' ctx]; cbn [fmap list_fmap].
    + apply rename_rebalanced.
    + rewrite <- rename_rebalanced, <- rename_fill. apply IH. simpl in Hn. lia.
  - rewrite <- rename_rebalanced. apply IH. simpl in Hn. lia.
Qed.

Lemma rename_descend v n : ∀ t ctx,
  descend v (g n) (rename g t) (rename_frame g <$> ctx)
  = (rename_frame g <$> (descend v n t ctx).1, rename g (descend v n t ctx).2).
Proof.
  induction t as [|l IHl a d h r IHr]; intros ctx; [done|].
  cbn [descend rename]. destruct (v <? d).
  - destruct l as [|ll la ld lh lr].
    + cbn [rename fst snd]. by rewrite rename_join.
    + change (rename g (Node ll la ld lh lr))
        with (Node (rename g ll) (g la) ld lh (rename g lr)).
      cbv iota.
      change (Node (rename g ll) (g la) ld lh (rename g lr))
        with (rename g (Node ll la ld lh lr)).
      apply (IHl (Frame a d h LEFT r :: ctx)).
  - destruct r as [|rl ra rd rh rr].
    + cbn [rename fst snd]. by rewrite rename_join.
    + change (rename g (Node rl ra rd rh rr))
        with (Node (rename g rl) (g ra) rd rh (rename g rr)).
      cbv iota.
      change (Node (rename g rl) (g ra) rd rh (rename g rr))
        with (rename g (Node rl ra rd rh rr)).
      apply (IHr (Frame a d h RIGHT l :: ctx)).
Qed.

Lemma rename_insert v n t : rename g (insert v n t) = insert v (g n) (rename g t).
Proof.
  rewrite <- !insert_unfold.
  pose proof (rename_descend v n t []) as H. cbn [fmap list_fmap] in H.
  rewrite H. cbn [fst snd]. by apply (rename_unwind v (length (descend v n t []).1)).
Qed.

Lemma shape_of_rename t : shape_of (rename g t) = shape_of t.
Proof. induction t as [|l IHl a d h r IHr]; [done|]. simpl. by rewrite IHl, IHr. Qed.

End renaming.

Lemma shape_of_erase t t' :
  shape_of t = shape_of t' → rename (λ _, 1%positive) t = rename (λ _, 1%positive) t'.
Proof.
  revert t'. induction t as [|l IHl a d h r IHr]; intros [|l' a' d' h' r']; try done.
  simpl. intros [= Hl -> -> Hr]. by rewrite (IHl _ Hl), (IHr _ Hr).
Qed.

Lemma shape_of_insert v n n' t t' :
  shape_of t = shape_of t' → shape_of (insert v n t) = shape_of (insert v n' t').
Proof.
  intros H.
  rewrite <- (shape_of_rename (λ _, 1%positive) (insert v n t)).
  rewrite <- (shape_of_rename (λ _, 1%positive) (insert v n' t')).
  by rewrite !rename_insert, (shape_of_erase _ _ H).
Qed.

Lemma shape_of_build_from vs : ∀ n n' t t',
  shape_of t = shape_of t' →
  shape_of (build_from vs n t) = shape_of (build_from vs n' t').
Proof.
  induction vs as [|v vs IH]; intros n n' t t' H; [done|].
  cbn [build_from]. by apply IH, shape_of_insert.
Qed.

Lemma shape_of_built xs n0 n0' : shape_of (built xs n0) = shape_of (built xs n0').
Proof. destruct xs as [|x xs]; [done|]. by apply shape_of_build_from. Qed.

(** X19: the tree a build gives depends on the first [len] values of the
    array only, not on the store it is built in, nor on what the array
    holds behind them.  Two builds of [k] values from arrays that agree on
    their first [k] values, in any two stores, at any addresses, give trees
    of the same shape, with the same values and the same stored heights in
    the same places. *)
Theorem generate_avl_shape fuel1 fuel2 arr1 arr2 xs1 xs2 k s1 s2 :
  arrays s1 !! arr1 = Some xs1 → arrays s2 !! arr2 = Some xs2 →
  (1 ≤ k)%nat → (k ≤ length xs1)%nat → (k ≤ length xs2)%nat →
  take k xs1 = take k xs2 →
  (3 * k ≤ fuel1)%nat → (3 * k ≤ fuel2)%nat →
  oracle_ok s1 → oracle_ok s2 →
  ∃ hd1 s1' root1 t1 hd2 s2' root2 t2,
    generate_avl fuel1 (Some arr1) (Z.of_nat k) s1 = Ok (Some hd1) s1'
    ∧ handles s1' !! hd1 = Some root1 ∧ tree_at (nodes s1') root1 t1
    ∧ generate_avl fuel2 (Some arr2) (Z.of_nat k) s2 = Ok (Some hd2) s2'
    ∧ handles s2' !! hd2 = Some root2 ∧ tree_at (nodes s2') root2 t2
    ∧ shape_of t1 = shape_of t2.
Proof.
  intros Harr1 Harr2 Hk Hk1 Hk2 Htake Hfuel1 Hfuel2 Ho1 Ho2.
  destruct (generate_avl_first fuel1 arr1 xs1 k s1 Harr1 Hk Hk1 Hfuel1 Ho1)
    as (s1' & E1 & _ & (Hr1 & Hnd1 & _ & Hh1) & _).
  destruct (generate_avl_first fuel2 arr2 xs2 k s2 Harr2 Hk Hk2 Hfuel2 Ho2)
    as (s2' & E2 & _ & (Hr2 & Hnd2 & _ & Hh2) & _).
  exists (Pos.succ (next s1)), s1', (root_ptr (built (take k xs1) (next s1))),
    (built (take k xs1) (next s1)),
    (Pos.succ (next s2)), s2', (root_ptr (built (take k xs2) (next s2))),
    (built (take k xs2) (next s2)).
  repeat (split; [done|]). rewrite Htake. apply shape_of_built.
Qed.

Lemma generate_avl_shape_witness :
  ∃ hd1 s1' root1 t1 hd2 s2' root2 t2,
    generate_avl 9 (Some 1%positive) (Z.of_nat 3) (init_mem [30; 10; 20]) = Ok (Some hd1) s1'
    ∧ handles s1' !! hd1 = Some root1 ∧ tree_at (nodes s1') root1 t1
    ∧ generate_avl 12 (Some 7%positive) (Z.of_nat 3) (late_mem [30; 10; 20; 40; 50])
      = Ok (Some hd2) s2'
    ∧ handles s2' !! hd2 = Some root2 ∧ tree_at (nodes s2') root2 t2
    ∧ shape_of t1 = shape_of t2.
Proof.
  apply (generate_avl_shape 9 12 1%positive 7%positive [30; 10; 20] [30; 10; 20; 40; 50] 3
           (init_mem [30; 10; 20]) (late_mem [30; 10; 20; 40; 50]));
    [reflexivity | reflexivity | lia | simpl; lia | simpl; lia | reflexivity
    | lia | lia | constructor | constructor].
Defined.

(** X20: the length may be smaller than the array.  With
    [1 ≤ len ≤] the number of values the array holds, [generate_avl] builds
    the tree of the first [len] values: [len] nodes, their values those of
    [arr[0]] to [arr[len-1]], in ascending order along the inorder
    sequence. *)
Theorem generate_avl_prefix fuel arr xs k s :
  arrays s !! arr = Some xs → (1 ≤ k)%nat → (k ≤ length xs)%nat →
  (3 * k ≤ fuel)%nat → oracle_ok s →
  ∃ hd s' root t,
    generate_avl fuel (Some arr) (Z.of_nat k) s = Ok (Some hd) s'
    ∧ handles s' !! hd = Some root ∧ tree_at (nodes s') root t
    ∧ size t = k
    ∧ values t ≡ₚ take k xs
    ∧ StronglySorted Z.le (values t).
Proof.
  intros Harr Hk Hkl Hfuel Ho.
  destruct (generate_avl_first fuel arr xs k s Harr Hk Hkl Hfuel Ho)
    as (s' & E & (_ & _ & Hs) & (Hr & Hnd & _ & Hh) & _).
  assert (take k xs ≠ []) as Hne.
  { destruct xs; [simpl in Hkl; lia|]. by destruct k; [lia|]. }
  exists (Pos.succ (next s)), s', (root_ptr (built (take k xs) (next s))),
    (built (take k xs) (next s)).
  split; [done|]. split; [done|]. split; [done|].
  split; [rewrite built_size by done; rewrite length_take; lia|].
  split; [by apply built_values|by apply values_sorted].
Qed.

Lemma generate_avl_prefix_witness :
  ∃ hd s' root t,
    generate_avl 6 (Some 1%positive) (Z.of_nat 2) (init_mem [30; 10; 20]) = Ok (Some hd) s'
    ∧ handles s' !! hd = Some root ∧ tree_at (nodes s') root t
    ∧ size t = 2%nat
    ∧ values t ≡ₚ take 2 [30; 10; 20]
    ∧ StronglySorted Z.le (values t).
Proof.
  apply (generate_avl_prefix 6 1%positive [30; 10; 20] 2 (init_mem [30; 10; 20]));
    [reflexivity | lia | simpl; lia | lia | constructor].
Defined.

(** ** What a returned handle tells about the allocations *)

Lemma all_served_refl s : all_served s s.
Proof. exists []. by split. Qed.

Lemma all_served_trans s1 s2 s3 :
  all_served s1 s2 → all_served s2 s3 → all_served s1 s3.
Proof.
  intros (p1 & E1 & H1) (p2 & E2 & H2). exists (p1 ++ p2). split.
  - by rewrite E1, E2, app_assoc.
  - by apply Forall_app.
Qed.

Lemma all_served_eq s s' : oracle s' = oracle s → all_served s s'.
Proof. intros E. exists []. by rewrite E. Qed.

Lemma served_run_ret {A} (a : A) : served_run (ret a).
Proof. intros s a' s' [= _ <-]. apply all_served_refl. Qed.

Lemma served_run_fail {A} f : served_run (@fail A f).
Proof. by intros s a s'. Qed.

Lemma served_run_bind {A B} (c : M A) (k : A → M B) :
  served_run c → (∀ a, served_run (k a)) → served_run (bind c k).
Proof.
  intros Hc Hk s b s' (a & s1 & H1 & H2)%bind_inv.
  eapply all_served_trans; [by eapply Hc|by eapply Hk].
Qed.

Lemma served_run_keeps {A} (c : M A) : keeps_oracle c → served_run c.
Proof. intros H s a s' E. apply all_served_eq. by eapply H. Qed.

Lemma never_ok_served {A} (c : M A) : never_ok c → served_run c.
Proof. intros H s a s' E. by apply H in E. Qed.

Lemma keeps_oracle_ret {A} (a : A) : keeps_oracle (ret a).
Proof. by intros s a' s' [= _ <-]. Qed.

Lemma keeps_oracle_fail {A} f : keeps_oracle (@fail A f).
Proof. by intros s a s'. Qed.

Lemma keeps_oracle_bind {A B} (c : M A) (k : A → M B) :
  keeps_oracle c → (∀ a, keeps_oracle (k a)) → keeps_oracle (bind c k).
Proof.
  intros Hc Hk s b s' (a & s1 & H1 & H2)%bind_inv.
  rewrite (Hk _ _ _ _ H2). by eapply Hc.
Qed.

Lemma keeps_oracle_load p : keeps_oracle (load p).
Proof. intros s a s'. unfold load. repeat case_match; by intros [= _ <-]. Qed.

Lemma keeps_oracle_store p f : keeps_oracle (store p f).
Proof. intros s a s'. unfold store. repeat case_match; by intros [= _ <-]. Qed.

Lemma keeps_oracle_load_handle p : keeps_oracle (load_handle p).
Proof. intros s a s'. unfold load_handle. repeat case_match; by intros [= _ <-]. Qed.

Lemma keeps_oracle_store_handle p v : keeps_oracle (store_handle p v).
Proof. intros s a s'. unfold store_handle. repeat case_match; by intros [= _ <-]. Qed.

Lemma keeps_oracle_read_int p i : keeps_oracle (read_int p i).
Proof. intros s a s'. unfold read_int. repeat case_match; by intros [= _ <-]. Qed.

Lemma keeps_oracle_log l fmt args : keeps_oracle (log l fmt args).
Proof. intros s a s'. unfold log. by intros [= _ <-]. Qed.

Create HintDb keeps_oracle.
#[local] Hint Resolve keeps_oracle_ret keeps_oracle_fail keeps_oracle_load
  keeps_oracle_store keeps_oracle_load_handle keeps_oracle_store_handle
  keeps_oracle_read_int keeps_oracle_log : keeps_oracle.

(** Through the binds and the case distinctions of a function body. *)
Ltac keeps_oracle :=
  repeat first
    [ solve [auto with keeps_oracle nocore]
    | apply keeps_oracle_bind; [|intros ?]
    | match goal with
      | |- keeps_oracle (match ?x with _ => _ end) => destruct x
      end ].

Lemma keeps_oracle_side p : keeps_oracle (side p).
Proof. unfold side. keeps_oracle. Qed.
#[local] Hint Resolve keeps_oracle_side : keeps_oracle.

Lemma keeps_oracle_height p : keeps_oracle (height p).
Proof. unfold height. keeps_oracle. Qed.

Lemma keeps_oracle_BalanceFactor p : keeps_oracle (BalanceFactor p).
Proof. unfold BalanceFactor. keeps_oracle. Qed.
#[local] Hint Resolve keeps_oracle_height keeps_oracle_BalanceFactor : keeps_oracle.

Lemma keeps_oracle_RotateRight p : keeps_oracle (RotateRight p).
Proof. unfold RotateRight. keeps_oracle. Qed.

Lemma keeps_oracle_RotateLeft p : keeps_oracle (RotateLeft p).
Proof. unfold RotateLeft. keeps_oracle. Qed.
#[local] Hint Resolve keeps_oracle_RotateRight keeps_oracle_RotateLeft : keeps_oracle.

Lemma keeps_oracle_LeftRight p : keeps_oracle (LeftRight p).
Proof. unfold LeftRight. keeps_oracle. Qed.

Lemma keeps_oracle_RightLeft p : keeps_oracle (RightLeft p).
Proof. unfold RightLeft. keeps_oracle. Qed.

Lemma keeps_oracle_reattach p head new : keeps_oracle (reattach p head new).
Proof. unfold reattach. keeps_oracle. Qed.
#[local] Hint Resolve keeps_oracle_LeftRight keeps_oracle_RightLeft
  keeps_oracle_reattach : keeps_oracle.

Lemma keeps_oracle_rebalance stack head tmp data :
  keeps_oracle (rebalance stack head tmp data).
Proof. unfold rebalance, RightRight, LeftLeft. keeps_oracle. Qed.
#[local] Hint Resolve keeps_oracle_rebalance : keeps_oracle.

Lemma keeps_oracle_while_pop fuel : ∀ stack head arr i,
  keeps_oracle (while_pop fuel stack head arr i).
Proof.
  induction fuel as [|fuel IH]; intros stack head arr i; cbn [while_pop]; keeps_oracle.
Qed.

(** An allocation of a node: the request is served and the rest goes on
    with the new node, or the rest goes on with NULL. *)
Lemma served_run_calloc_avl_t {B} (k : ptr → M B) :
  (∀ p, served_run (k (Some p))) → never_ok (k None) →
  served_run (bind calloc_avl_t k).
Proof.
  intros Hk Hnone s b s' (p & s1 & H1 & H2)%bind_inv.
  unfold calloc_avl_t, bind, request in H1.
  destruct (oracle s) as [|[|] o] eqn:Eo; injection H1 as <- <-.
  - eapply all_served_trans; [|by eapply Hk]. by apply all_served_eq.
  - eapply all_served_trans; [|by eapply Hk]. exists [true].
    split; [by rewrite Eo|by repeat constructor].
  - by apply Hnone in H2.
Qed.

Lemma served_run_calloc_avl_p {B} (k : ptr → M B) :
  (∀ p, served_run (k (Some p))) → never_ok (k None) →
  served_run (bind calloc_avl_p k).
Proof.
  intros Hk Hnone s b s' (p & s1 & H1 & H2)%bind_inv.
  unfold calloc_avl_p, bind, request in H1.
  destruct (oracle s) as [|[|] o] eqn:Eo; injection H1 as <- <-.
  - eapply all_served_trans; [|by eapply Hk]. by apply all_served_eq.
  - eapply all_served_trans; [|by eapply Hk]. exists [true].
    split; [by rewrite Eo|by repeat constructor].
  - by apply Hnone in H2.
Qed.

Lemma served_run_malloc_nodedata nd dir : served_run (malloc_nodedata nd dir).
Proof.
  intros s a s'. unfold malloc_nodedata, bind, request.
  destruct (oracle s) as [|[|] o] eqn:Eo; try done; intros [= _ <-].
  - by apply all_served_eq.
  - exists [true]. split; [by rewrite Eo|by repeat constructor].
Qed.

(** The writes that follow a failed allocation of a leaf end at the write
    through NULL. *)
Lemma never_ok_leaf {B} root (w : avl_t → avl_t) arr i (k : Z → unit → M B) :
  never_ok (bind (store root w)
              (λ _, bind (read_int arr i)
                      (λ v, bind (store None (Avl.with_data v)) (k v)))).
Proof.
  intros s b s' (? & s1 & _ & H)%bind_inv.
  apply bind_inv in H as (v & s2 & _ & H).
  by apply bind_inv in H as (? & s3 & ? & _).
Qed.

Lemma served_run_while_root fuel : ∀ arr i head root stack,
  served_run (while_root fuel arr i head root stack).
Proof.
  induction fuel as [|fuel IH]; intros arr i head root stack; cbn [while_root];
    [apply served_run_fail|].
  destruct root as [a|]; [|apply served_run_ret].
  apply served_run_bind; [apply served_run_keeps, keeps_oracle_read_int|]. intros v.
  apply served_run_bind; [apply served_run_keeps, keeps_oracle_load|]. intros r.
  destruct (v <? Avl.data r).
  - destruct (Avl.left r).
    + apply served_run_bind; [apply served_run_malloc_nodedata|]. intros n.
      apply served_run_bind; [apply served_run_keeps, keeps_oracle_load|]. intros r'.
      apply IH.
    + apply served_run_calloc_avl_t.
      * intros p. apply served_run_keeps.
        pose proof keeps_oracle_while_pop. keeps_oracle.
      * apply never_ok_leaf.
  - destruct (Avl.right r).
    + apply served_run_bind; [apply served_run_malloc_nodedata|]. intros n.
      apply served_run_bind; [apply served_run_keeps, keeps_oracle_load|]. intros r'.
      apply IH.
    + apply served_run_calloc_avl_t.
      * intros p. apply served_run_keeps.
        pose proof keeps_oracle_while_pop. keeps_oracle.
      * apply never_ok_leaf.
Qed.

Lemma served_run_for_i fuel : ∀ arr len head i root stack,
  served_run (for_i fuel arr len head i root stack).
Proof.
  induction fuel as [|fuel IH]; intros arr len head i root stack; cbn [for_i];
    [apply served_run_fail|].
  destruct (i <? len); [|apply served_run_ret].
  apply served_run_bind; [apply served_run_while_root|]. intros [root' stack'].
  apply IH.
Qed.

(** The build behind the allocation of the root, with [root] what the
    allocation gave. *)
Lemma served_run_build fuel arr len root :
  served_run (v ← read_int arr 0;
              store root (Avl.with_data v);;
              head ← calloc_avl_p;
              store_handle head root;;
              '(root, stack) ← for_i fuel arr len head 1 root get_stack;
              destroy_stack stack;;
              ret head).
Proof.
  apply served_run_bind; [apply served_run_keeps, keeps_oracle_read_int|]. intros v.
  apply served_run_bind; [apply served_run_keeps, keeps_oracle_store|]. intros _.
  apply served_run_calloc_avl_p.
  - intros hd.
    apply served_run_bind; [apply served_run_keeps, keeps_oracle_store_handle|].
    intros _. apply served_run_bind; [apply served_run_for_i|]. intros [root' stack'].
    apply served_run_bind; [apply served_run_ret|]. intros _. apply served_run_ret.
  - by intros s b s' (? & s1 & ? & _)%bind_inv.
Qed.

Lemma returns_build fuel arr len root :
  returns (λ r : ptr, r ≠ None)
    (v ← read_int arr 0;
     store root (Avl.with_data v);;
     head ← calloc_avl_p;
     store_handle head root;;
     '(root, stack) ← for_i fuel arr len head 1 root get_stack;
     destroy_stack stack;;
     ret head).
Proof.
  apply returns_bind. intros v. apply returns_bind. intros _.
  apply returns_bind. intros [hd|].
  - apply returns_bind. intros _. apply returns_bind. intros [root' stack'].
    apply returns_bind. intros _. by apply returns_ret.
  - by intros s b s' (? & s1 & ? & _)%bind_inv.
Qed.

(** X21: what the result of [generate_avl] tells, whatever the store, the
    array and the length.  NULL is returned in two cases only, each with
    its error logged and nothing else done: the array is NULL or the
    length 0, or the first allocation request, the one for the root,
    failed.  When a handle is returned, every allocation request of the
    build was served: a failed request for the handle, a leaf or a path
    entry never ends in a return, with or without an error. *)
Theorem generate_avl_returns fuel arr len s r s' :
  generate_avl fuel arr len s = Ok r s' →
  match r with
  | None =>
      ((arr = None ∨ len = 0)
       ∧ s' = set_logs (logs s ++ [Log ERROR "Invalid array." []]) s)
      ∨ (arr ≠ None ∧ len ≠ 0
         ∧ ∃ o, oracle s = false :: o
           ∧ s' = set_logs (logs s ++ [Log ERROR "calloc failed." []]) (set_oracle o s))
  | Some _ => arr ≠ None ∧ len ≠ 0 ∧ all_served s s'
  end.
Proof.
  unfold generate_avl.
  destruct (match arr with None => true | Some _ => false end || (len =? 0)) eqn:Hin.
  { intros [= <- <-]. left. split; [|done].
    destruct arr; [|by left]. right. cbn [orb] in Hin. lia. }
  assert (arr ≠ None ∧ len ≠ 0) as [Harr Hlen].
  { destruct arr; [|done]. cbn [orb] in Hin. split; [done|lia]. }
  intros (root & s1 & H1 & H2)%bind_inv.
  unfold calloc_avl_t, bind, request in H1.
  destruct (oracle s) as [|[|] o] eqn:Eo; injection H1 as <- <-.
  - pose proof (returns_build _ _ _ _ _ _ _ H2) as Hr.
    destruct r as [hd|]; [|done]. split; [done|]. split; [done|].
    eapply all_served_trans; [|by eapply served_run_build]. by apply all_served_eq.
  - pose proof (returns_build _ _ _ _ _ _ _ H2) as Hr.
    destruct r as [hd|]; [|done]. split; [done|]. split; [done|].
    eapply all_served_trans; [|by eapply served_run_build].
    exists [true]. split; [by rewrite Eo|by repeat constructor].
  - injection H2 as <- <-. right. split; [done|]. split; [done|]. by exists o.
Qed.

Lemma generate_avl_returns_witness :
  (((Some 1%positive = None ∨ 2 = 0)
    ∧ set_logs [Log ERROR "calloc failed." []] (oracle_mem [10; 20] [])
      = set_logs (logs (oracle_mem [10; 20] [false]) ++ [Log ERROR "Invalid array." []])
          (oracle_mem [10; 20] [false]))
   ∨ (Some 1%positive ≠ None ∧ 2 ≠ 0
      ∧ ∃ o, oracle (oracle_mem [10; 20] [false]) = false :: o
        ∧ set_logs [Log ERROR "calloc failed." []] (oracle_mem [10; 20] [])
          = set_logs (logs (oracle_mem [10; 20] [false]) ++ [Log ERROR "calloc failed." []])
              (set_oracle o (oracle_mem [10; 20] [false]))))
  ∧ ∃ s', generate_avl 9 (Some 1%positive) 2 (oracle_mem [10; 20] [true; true; true; false])
          = Ok (Some 3%positive) s'
      ∧ Some 1%positive ≠ None ∧ 2 ≠ 0
      ∧ all_served (oracle_mem [10; 20] [true; true; true; false]) s'.
Proof.
  split.
  - apply (generate_avl_returns 9 (Some 1%positive) 2 (oracle_mem [10; 20] [false]) None
             (set_logs [Log ERROR "calloc failed." []] (oracle_mem [10; 20] []))).
    reflexivity.
  - eexists. split; [vm_compute; reflexivity|].
    refine (generate_avl_returns 9 (Some 1%positive) 2
              (oracle_mem [10; 20] [true; true; true; false]) (Some 3%positive) _ _).
    vm_compute. reflexivity.
Defined.

